(** * FaceShield: the blur and compositing pipeline of [blur-faces.js]

    A shallow embedding of [separableGaussianBlur], of the image part of
    [blurFaces] and of the command line of the script, followed by the
    properties proved about them.

    Conventions of the embedding.
    - A JavaScript number is a rational [Q], or [NaN] (what arithmetic on
      [undefined] yields, the value of an out-of-range typed-array read).
      A [Float32Array] store goes through [Math_fround], a
      [Uint8ClampedArray] store through [ToUint8Clamp].
    - The rounding of double arithmetic, [binary64], is written out where
      a result is turned into an integer (lines 37-38: [sigma] and the
      half-width of the kernel) and in [expandBox64], the expanded box as
      the code computes it. The weighted sums of the blur and the box
      [expandBox] of the compositing model are exact; the theorems on them
      carry either an explicit tolerance for the float32 stores or a
      margin of whole pixels.
    - [Math.exp] and the float32 rounding are the two members of the class
      [JSMath]; the theorems state which of their properties they use.
    - Typed arrays live in a heap ([gmap] from locations to arrays) threaded
      by a state monad, so allocation, in-place writes and aliasing are
      explicit.
    - A canvas bitmap is a value: a list of premultiplied RGBA pixels with
      exact rational channels in the unit interval.
    - The file system and the path functions of Node are the members of the
      class [NodeHost]. *)

From Stdlib Require Import ZArith QArith Qround Qabs Qminmax Qpower Lia Lqa.
From stdpp Require Import base strings list gmap.

Open Scope Z_scope.

(** ** JavaScript numbers *)

Inductive jsnum : Type :=
  | Num (q : Q)
  | NaN.

Definition jadd (a b : jsnum) : jsnum :=
  match a, b with
  | Num p, Num q => Num (p + q)%Q
  | _, _ => NaN
  end.

Definition jmul (a b : jsnum) : jsnum :=
  match a, b with
  | Num p, Num q => Num (p * q)%Q
  | _, _ => NaN
  end.

(** Division by zero gives an infinity or NaN in JavaScript; neither is a
    rational, both are collapsed into [NaN]. *)
Definition jdiv (a b : jsnum) : jsnum :=
  match a, b with
  | Num p, Num q => if Qeq_bool q 0 then NaN else Num (p / q)%Q
  | _, _ => NaN
  end.

(** The two primitives of the host that are not rational functions. *)
Class JSMath : Type := {
  Math_exp : Q -> Q;
  Math_fround : Q -> Q
}.

(** Rounding to the nearest integer, ties to the even one. *)
Definition round_half_even (q : Q) : Z :=
  let f := Qfloor q in
  match (q ?= inject_Z f + (1 # 2))%Q with
  | Lt => f
  | Gt => f + 1
  | Eq => if Z.even f then f else f + 1
  end.

(** ECMAScript ToUint8Clamp: NaN goes to 0, the value is clamped to
    [0, 255], then rounded to the nearest integer, ties to even. *)
Definition ToUint8Clamp (v : jsnum) : Z :=
  match v with
  | NaN => 0
  | Num q => round_half_even (Qmin (Qmax q 0) 255)
  end.

(** ** Double precision

    The binary exponent of a rational that is not zero: [e] with
    [2^e <= |x| < 2^(e+1)]. *)
Definition binade (x : Q) : Z :=
  let e0 := Z.log2 (Z.abs (Qnum x)) - Z.log2 (Zpos (Qden x)) in
  if Qle_bool (2 ^ e0) (Qabs x) then e0 else e0 - 1.

(** The binary64 number nearest to [x], ties to even: what an arithmetic
    operation of JavaScript returns when its exact result is [x]. The
    significand has 53 bits; overflow and the subnormal range, which the
    sizes of an image do not reach, are left out. *)
Definition binary64 (x : Q) : Q :=
  if Qeq_bool x 0 then 0%Q
  else
    let s := 52 - binade x in
    (inject_Z (round_half_even (x * 2 ^ s)) * 2 ^ (- s))%Q.

(** Relative error of one rounding to binary64: 2^-53. *)
Definition eps64 : Q := 1 # 9007199254740992.

(** ** Typed arrays and the heap *)

Inductive array_kind : Type :=
  | Float32Array
  | Uint8ClampedArray.

(** The conversion a store into an array of the given kind applies. *)
Definition coerce `{JSMath} (k : array_kind) (v : jsnum) : jsnum :=
  match k with
  | Float32Array =>
      match v with
      | Num q => Num (Math_fround q)
      | NaN => NaN
      end
  | Uint8ClampedArray => Num (inject_Z (ToUint8Clamp v))
  end.

Record typed_array : Type := TypedArray {
  ta_kind : array_kind;
  ta_data : list jsnum
}.

(** [a[i]] used as a number: [undefined] (out of range) becomes [NaN]. *)
Definition ta_get (a : typed_array) (i : Z) : jsnum :=
  if decide (0 <= i) then default NaN (ta_data a !! Z.to_nat i) else NaN.

(** [a[i] = v]: converted by the array kind; ignored out of range. *)
Definition ta_set `{JSMath} (a : typed_array) (i : Z) (v : jsnum) : typed_array :=
  if decide (0 <= i)
  then TypedArray (ta_kind a) (<[Z.to_nat i := coerce (ta_kind a) v]> (ta_data a))
  else a.

Definition loc : Type := positive.

Abbreviation heap := (gmap loc typed_array).

(** State monad over the heap. *)
Definition M (A : Type) : Type := heap -> A * heap.

Definition ret {A} (a : A) : M A := fun st => (a, st).

Definition bind {A B} (m : M A) (f : A -> M B) : M B :=
  fun st => let (a, st') := m st in f a st'.

Notation "'do' x <- m ; k" := (bind m (fun x => k))
  (at level 10, x pattern, m at level 100, k at level 200,
   format "'[v' 'do'  x  <-  m ; '/' k ']'").
Notation "m ;;; k" := (bind m (fun _ => k))
  (at level 100, k at level 200, right associativity).

(** [new Float32Array(n)] / [new Uint8ClampedArray(n)]: a fresh location
    holding [n] zeros. *)
Definition new_array (k : array_kind) (n : nat) : M loc :=
  fun st =>
    let l := fresh (dom st) in
    (l, <[l := TypedArray k (replicate n (Num 0))]> st).

Definition array_length (l : loc) : M nat :=
  fun st => (from_option (fun a => length (ta_data a)) 0%nat (st !! l), st).

Definition load (l : loc) (i : Z) : M jsnum :=
  fun st => (from_option (fun a => ta_get a i) NaN (st !! l), st).

Definition store `{JSMath} (l : loc) (i : Z) (v : jsnum) : M unit :=
  fun st =>
    (tt, match st !! l with
         | Some a => <[l := ta_set a i v]> st
         | None => st
         end).

(** A [for] loop over the listed index values, carrying the loop-local
    variables [s]. *)
Fixpoint forM {X S} (xs : list X) (body : X -> S -> M S) (s : S) : M S :=
  match xs with
  | [] => ret s
  | x :: xs' => do s' <- body x s ; forM xs' body s'
  end.

(** ** The Gaussian kernel (lines 37-47 of [separableGaussianBlur])

    Lines 37-38: the quotient [radius / 2.5] and the product [sigma * 3]
    are doubles, so each is rounded to binary64; [Math.max] and [Math.ceil]
    are exact on doubles, and so is [kHalf * 2 + 1] on the integers that
    occur. *)

Definition sigma_of (radius : Q) : Q := Qmax 1 (binary64 (radius / (5 # 2))).

Definition kHalf_of (radius : Q) : Z := Qceiling (binary64 (sigma_of radius * 3)).

Definition kLen_of (radius : Q) : Z := kHalf_of radius * 2 + 1.

Definition gaussKernel `{JSMath} (radius : Q) : M loc :=
  let sigma := sigma_of radius in
  let kHalf := kHalf_of radius in
  let kLen := kHalf * 2 + 1 in
  do kernel <- new_array Float32Array (Z.to_nat kLen) ;
  do kSum <- forM (seqZ 0 kLen) (fun i kSum =>
            let x := inject_Z (i - kHalf) in
            store kernel i (Num (Math_exp (- (x * x) / (2 * sigma * sigma))%Q)) ;;;
            do ki <- load kernel i ;
            ret (jadd kSum ki)) (Num 0) ;
  forM (seqZ 0 kLen) (fun i (_ : unit) =>
     do ki <- load kernel i ;
     store kernel i (jdiv ki kSum)) tt ;;;
  ret kernel.

(** ** The separable blur *)

Definition separableGaussianBlur `{JSMath}
    (src : loc) (w h : Z) (radius : Q) : M loc :=
  let kHalf := kHalf_of radius in
  let kLen := kHalf * 2 + 1 in
  do kernel <- gaussKernel radius ;
  do n <- array_length src ;
  do tmp <- new_array Float32Array n ;
  do out <- new_array Uint8ClampedArray n ;
  (* horizontal pass: src -> tmp *)
  forM (seqZ 0 h) (fun row (_ : unit) =>
    forM (seqZ 0 w) (fun col (_ : unit) =>
      do (r, g, b, a) <- forM (seqZ (- kHalf) kLen) (fun k '(r, g, b, a) =>
          let sc := Z.min (w - 1) (Z.max 0 (col + k)) in
          let idx := (row * w + sc) * 4 in
          do wt <- load kernel (k + kHalf) ;
          do s0 <- load src idx ;
          do s1 <- load src (idx + 1) ;
          do s2 <- load src (idx + 2) ;
          do s3 <- load src (idx + 3) ;
          ret (jadd r (jmul s0 wt), jadd g (jmul s1 wt),
               jadd b (jmul s2 wt), jadd a (jmul s3 wt)))
        (Num 0, Num 0, Num 0, Num 0) ;
      let oi := (row * w + col) * 4 in
      store tmp oi r ;;; store tmp (oi + 1) g ;;;
      store tmp (oi + 2) b ;;; store tmp (oi + 3) a) tt) tt ;;;
  (* vertical pass: tmp -> out *)
  forM (seqZ 0 w) (fun col (_ : unit) =>
    forM (seqZ 0 h) (fun row (_ : unit) =>
      do (r, g, b, a) <- forM (seqZ (- kHalf) kLen) (fun k '(r, g, b, a) =>
          let sr := Z.min (h - 1) (Z.max 0 (row + k)) in
          let idx := (sr * w + col) * 4 in
          do wt <- load kernel (k + kHalf) ;
          do s0 <- load tmp idx ;
          do s1 <- load tmp (idx + 1) ;
          do s2 <- load tmp (idx + 2) ;
          do s3 <- load tmp (idx + 3) ;
          ret (jadd r (jmul s0 wt), jadd g (jmul s1 wt),
               jadd b (jmul s2 wt), jadd a (jmul s3 wt)))
        (Num 0, Num 0, Num 0, Num 0) ;
      let oi := (row * w + col) * 4 in
      store out oi r ;;; store out (oi + 1) g ;;;
      store out (oi + 2) b ;;; store out (oi + 3) a) tt) tt ;;;
  ret out.

(** ** Canvas bitmaps

    The 2D canvas of the host is not part of the program; the operations
    the program calls are modelled after the HTML canvas and the
    Porter-Duff compositing rules, on exact rational channels. Every
    canvas of the pipeline has the dimensions of the input image and every
    drawing is at offset (0, 0), so pixel [i] of a source lands on pixel
    [i] of the destination. *)

Record pixel : Type := Pixel { pr : Q; pg : Q; pb : Q; pa : Q }.

Definition transparent : pixel := Pixel 0 0 0 0.

(** The fill style ['#fff']: opaque white. *)
Definition white : pixel := Pixel 1 1 1 1.

Record canvas : Type := Canvas {
  cv_width : Z;
  cv_height : Z;
  cv_pixels : list pixel
}.

Definition createCanvas (w h : Z) : canvas :=
  Canvas w h (replicate (Z.to_nat w * Z.to_nat h) transparent).

Definition clearRect (c : canvas) : canvas :=
  Canvas (cv_width c) (cv_height c)
         (replicate (length (cv_pixels c)) transparent).

Inductive globalCompositeOperation : Type :=
  | source_over
  | destination_in.

(** Compositing of a source pixel onto a destination pixel, both
    premultiplied. *)
Definition composite (op : globalCompositeOperation) (dst src : pixel) : pixel :=
  match op with
  | source_over =>
      Pixel (pr src + pr dst * (1 - pa src)) (pg src + pg dst * (1 - pa src))
            (pb src + pb dst * (1 - pa src)) (pa src + pa dst * (1 - pa src))
  | destination_in =>
      Pixel (pr dst * pa src) (pg dst * pa src)
            (pb dst * pa src) (pa dst * pa src)
  end%Q.

(** [ctx.drawImage(src, 0, 0)] under the given composite operation. *)
Definition drawImage (op : globalCompositeOperation) (dst src : canvas) : canvas :=
  Canvas (cv_width dst) (cv_height dst)
    (imap (fun i d => composite op d (default transparent (cv_pixels src !! i)))
          (cv_pixels dst)).

(** The path [ellipse(cx, cy, rx, ry, 0, 0, 2*PI)]. *)
Record ellipse : Type := Ellipse { e_cx : Q; e_cy : Q; e_rx : Q; e_ry : Q }.

(** The points the filled path covers. A radius that is not positive
    covers nothing. *)
Definition in_ellipse (e : ellipse) (px py : Q) : Prop :=
  (0 < e_rx e /\ 0 < e_ry e /\
   (px - e_cx e) * (px - e_cx e) * (e_ry e * e_ry e)
   + (py - e_cy e) * (py - e_cy e) * (e_rx e * e_rx e)
   <= e_rx e * e_rx e * (e_ry e * e_ry e))%Q.

Definition in_ellipseb (e : ellipse) (px py : Q) : bool :=
  negb (Qle_bool (e_rx e) 0) && negb (Qle_bool (e_ry e) 0) &&
  Qle_bool ((px - e_cx e) * (px - e_cx e) * (e_ry e * e_ry e)
            + (py - e_cy e) * (py - e_cy e) * (e_rx e * e_rx e))
           (e_rx e * e_rx e * (e_ry e * e_ry e)).

(** Centre of pixel [i] of a bitmap of width [w]. *)
Definition pixel_centre (w : Z) (i : nat) : Q * Q :=
  (inject_Z (Z.of_nat i mod w) + (1 # 2), inject_Z (Z.of_nat i / w) + (1 # 2))%Q.

(** [ctx.fill()] of an ellipse path with a solid colour. The rasterizer is
    the host's; it is modelled without anti-aliasing: a pixel is painted
    when its centre is covered. *)
Definition fill (c : canvas) (e : ellipse) (fillStyle : pixel) : canvas :=
  Canvas (cv_width c) (cv_height c)
    (imap (fun i d =>
             let '(px, py) := pixel_centre (cv_width c) i in
             if in_ellipseb e px py then composite source_over d fillStyle else d)
          (cv_pixels c)).

(** The four bytes [getImageData] reports for a pixel: straight
    (un-premultiplied) colour and alpha, scaled to 0..255. *)
Definition straight_bytes (p : pixel) : list jsnum :=
  if Qeq_bool (pa p) 0 then [Num 0; Num 0; Num 0; Num 0]
  else [Num (pr p / pa p * 255); Num (pg p / pa p * 255);
        Num (pb p / pa p * 255); Num (pa p * 255)]%Q.

(** The bytes of the whole bitmap, pixel after pixel. *)
Definition image_bytes `{JSMath} (c : canvas) : list jsnum :=
  coerce Uint8ClampedArray <$> concat (straight_bytes <$> cv_pixels c).

(** [ctx.getImageData(0, 0, w, h).data]: a new [Uint8ClampedArray]. *)
Definition getImageData `{JSMath} (c : canvas) : M loc :=
  fun st =>
    let l := fresh (dom st) in
    (l, <[l := TypedArray Uint8ClampedArray (image_bytes c)]> st).

Definition to_Q (v : jsnum) : Q :=
  match v with
  | Num q => q
  | NaN => 0
  end.

Definition premultiplied (r g b a : jsnum) : pixel :=
  Pixel (to_Q r / 255 * (to_Q a / 255)) (to_Q g / 255 * (to_Q a / 255))
        (to_Q b / 255 * (to_Q a / 255)) (to_Q a / 255)%Q.

(** The bitmap of [c] after every pixel is replaced by the four bytes the
    array [a] holds for it. *)
Definition canvas_of_bytes (c : canvas) (a : typed_array) : canvas :=
  Canvas (cv_width c) (cv_height c)
    (imap (fun i (_ : pixel) =>
             let o := Z.of_nat i * 4 in
             premultiplied (ta_get a o) (ta_get a (o + 1))
                           (ta_get a (o + 2)) (ta_get a (o + 3)))
          (cv_pixels c)).

(** [ctx.putImageData(new ImageData(data, w, h), 0, 0)]: the bitmap is
    replaced, without compositing. *)
Definition putImageData (c : canvas) (data : loc) : M canvas :=
  fun st =>
    (canvas_of_bytes c (default (TypedArray Uint8ClampedArray []) (st !! data)), st).

(** ** Detections and the pipeline of [blurFaces] *)

Definition BLUR_RADIUS : Q := 15.
Definition MIN_CONFIDENCE : Q := 2 # 5.
Definition FEATHER_RADIUS : Q := 34.

Record Box : Type := mkBox {
  box_x : Q;
  box_y : Q;
  box_width : Q;
  box_height : Q
}.

Record FaceDetection : Type := mkFaceDetection { box : Box; score : Q }.

(** An element of the detector's result: [det.detection.box]. *)
Record WithFaceLandmarks : Type := mkDet { detection : FaceDetection }.

(** The expanded box [(fx, fy, fw, fh)] of lines 157-162. [expandBox] and
    [maskEllipse] are the formulas of the code in exact arithmetic;
    [expandBox64] and [maskEllipse64], further down, add the rounding of
    each operation. *)
Record expanded : Type := mkExpanded { fx : Q; fy : Q; fw : Q; fh : Q }.

Definition expandBox (w h : Z) (box : Box) : expanded :=
  let padX := (box_width box * (1 # 5))%Q in
  let padY := (box_height box * (1 # 5))%Q in
  let fx := Qmax 0 (box_x box - padX) in
  let fy := Qmax 0 (box_y box - padY * (3 # 2)) in
  let fw := Qmin (inject_Z w - fx) (box_width box + padX * 2) in
  let fh := Qmin (inject_Z h - fy) (box_height box + padY * (5 # 2)) in
  mkExpanded fx fy fw fh.

Definition maskEllipse (b : expanded) : ellipse :=
  Ellipse (fx b + fw b / 2) (fy b + fh b / 2) (fw b / 2) (fh b / 2).

(** The opaque elliptical mask of one face (lines 165-171). *)
Definition maskCanvas_of (w h : Z) (box : Box) : canvas :=
  let maskCanvas := createCanvas w h in
  let maskCanvas := clearRect maskCanvas in
  fill maskCanvas (maskEllipse (expandBox w h box)) white.

(** The body of [detections.forEach] (lines 153-192): [ctx] is the bitmap
    of the main canvas, the only one that outlives the iteration. *)
Definition blurFace `{JSMath} (w h : Z) (blurredCanvas : canvas)
    (det : WithFaceLandmarks) (ctx : canvas) : M canvas :=
  let box := box (detection det) in
  let maskCanvas := maskCanvas_of w h box in
  do maskData <- getImageData maskCanvas ;
  do featheredData <- separableGaussianBlur maskData w h FEATHER_RADIUS ;
  do featherCanvas <- putImageData (createCanvas w h) featheredData ;
  let patchCanvas := drawImage source_over (createCanvas w h) blurredCanvas in
  let patchCanvas := drawImage destination_in patchCanvas featherCanvas in
  ret (drawImage source_over ctx patchCanvas).

(** [blurFaces], from the decoded image and the detector's result to the
    bitmap that is encoded and saved. *)
Definition blurFaces `{JSMath} (img : canvas)
    (detections : list WithFaceLandmarks) : M canvas :=
  let w := cv_width img in
  let h := cv_height img in
  let canvas := drawImage source_over (createCanvas w h) img in
  if decide (length detections = 0%nat) then ret canvas
  else
    let blurredCanvas := drawImage source_over (createCanvas w h) img in
    do srcData <- getImageData blurredCanvas ;
    do gaussData <- separableGaussianBlur srcData w h BLUR_RADIUS ;
    do blurredCanvas <- putImageData blurredCanvas gaussData ;
    forM detections (blurFace w h blurredCanvas) canvas.

(** ** A computable instance of the host primitives

    Used to run the model on concrete inputs. [exp_q] is a rational
    approximation of the exponential (argument reduction by 64, ten terms
    of the series, six squarings on 60 fractional bits, result cut to 40
    fractional bits and kept positive);
    [fround_q] rounds to a 24-bit significand, ties to even, as binary32
    does inside its normal range. *)

Fixpoint exp_series (y : Q) (n : nat) (k : Z) : Q :=
  match n with
  | O => 1
  | S n' => 1 + y / inject_Z k * exp_series y n' (k + 1)
  end%Q.

(** [v] cut down to 60 fractional bits. *)
Definition cut60 (v : Q) : Q := Qfloor (v * inject_Z (2 ^ 60)) # (2 ^ 60).

Fixpoint square_n (n : nat) (v : Q) : Q :=
  match n with
  | O => v
  | S n' => square_n n' (cut60 (v * v))
  end.

Definition exp_q (x : Q) : Q :=
  let t := exp_series (cut60 (Qabs x / 64)) 10 1 in
  let p := square_n 6 (cut60 t) in
  let v := if Qle_bool x 0 then (/ p)%Q else p in
  Z.max 1 (Qfloor (v * inject_Z (2 ^ 40))) # (2 ^ 40).

Definition fround_q (x : Q) : Q :=
  if Qeq_bool x 0 then 0%Q
  else
    let e0 := Z.log2 (Z.abs (Qnum x)) - Z.log2 (Zpos (Qden x)) in
    let e := if Qle_bool (2 ^ e0) (Qabs x) then e0 else e0 - 1 in
    let s := 23 - e in
    (inject_Z (round_half_even (x * 2 ^ s)) * 2 ^ (- s))%Q.

Definition host : JSMath := {| Math_exp := exp_q; Math_fround := fround_q |}.

(** ** Functional reading of the loops

    What each loop of [separableGaussianBlur] computes, as a fold over the
    same index lists; the run lemmas below show that the monadic code and
    these folds agree. *)

Definition tap_step (kernel src : typed_array) (kHalf : Z) (idx_of : Z -> Z)
    (acc : jsnum * jsnum * jsnum * jsnum) (k : Z) : jsnum * jsnum * jsnum * jsnum :=
  let '(r, g, b, a) := acc in
  let idx := idx_of k in
  let wt := ta_get kernel (k + kHalf) in
  (jadd r (jmul (ta_get src idx) wt), jadd g (jmul (ta_get src (idx + 1)) wt),
   jadd b (jmul (ta_get src (idx + 2)) wt), jadd a (jmul (ta_get src (idx + 3)) wt)).

Definition taps (kernel src : typed_array) (kHalf : Z) (idx_of : Z -> Z)
    : jsnum * jsnum * jsnum * jsnum :=
  foldl (tap_step kernel src kHalf idx_of) (Num 0, Num 0, Num 0, Num 0)
        (seqZ (- kHalf) (kHalf * 2 + 1)).

Definition set4 `{JSMath} (d : typed_array) (oi : Z)
    (v : jsnum * jsnum * jsnum * jsnum) : typed_array :=
  let '(r, g, b, a) := v in
  ta_set (ta_set (ta_set (ta_set d oi r) (oi + 1) g) (oi + 2) b) (oi + 3) a.

Definition h_idx (w row col k : Z) : Z :=
  (row * w + Z.min (w - 1) (Z.max 0 (col + k))) * 4.

Definition v_idx (w h row col k : Z) : Z :=
  (Z.min (h - 1) (Z.max 0 (row + k)) * w + col) * 4.

Definition hpass_px `{JSMath} (kernel src : typed_array) (kHalf w row : Z)
    (d : typed_array) (col : Z) : typed_array :=
  set4 d ((row * w + col) * 4) (taps kernel src kHalf (h_idx w row col)).

Definition hpass `{JSMath} (kernel src : typed_array) (kHalf w h : Z)
    (d : typed_array) : typed_array :=
  foldl (fun d row => foldl (hpass_px kernel src kHalf w row) d (seqZ 0 w))
        d (seqZ 0 h).

Definition vpass_px `{JSMath} (kernel tmp : typed_array) (kHalf w h col : Z)
    (d : typed_array) (row : Z) : typed_array :=
  set4 d ((row * w + col) * 4) (taps kernel tmp kHalf (v_idx w h row col)).

Definition vpass `{JSMath} (kernel tmp : typed_array) (kHalf w h : Z)
    (d : typed_array) : typed_array :=
  foldl (fun d col => foldl (vpass_px kernel tmp kHalf w h col) d (seqZ 0 h))
        d (seqZ 0 w).

(** The kernel loops: unnormalised weight of tap [i], their running sum,
    and the normalised array. *)
Definition raw_weight `{JSMath} (radius : Q) (i : Z) : jsnum :=
  let sigma := sigma_of radius in
  let x := inject_Z (i - kHalf_of radius) in
  coerce Float32Array (Num (Math_exp (- (x * x) / (2 * sigma * sigma))%Q)).

Definition kSum_of `{JSMath} (radius : Q) : jsnum :=
  foldl (fun acc i => jadd acc (raw_weight radius i)) (Num 0)
        (seqZ 0 (kLen_of radius)).

Definition kernel_weights `{JSMath} (radius : Q) : list jsnum :=
  let kSum := kSum_of radius in
  (fun i => coerce Float32Array (jdiv (raw_weight radius i) kSum))
    <$> seqZ 0 (kLen_of radius).

Definition zeros (k : array_kind) (n : nat) : typed_array :=
  TypedArray k (replicate n (Num 0)).

(** ** Further definitions used by the statements *)

Definition exp_arg (radius : Q) (i : Z) : Q :=
  (- (inject_Z (i - kHalf_of radius) * inject_Z (i - kHalf_of radius))
   / (2 * sigma_of radius * sigma_of radius))%Q.

(** Channel [c] of a pixel's four accumulators. *)
Definition chan (c : Z) (v : jsnum * jsnum * jsnum * jsnum) : jsnum :=
  let '(r, g, b, a) := v in
  if decide (c = 0) then r else if decide (c = 1) then g
  else if decide (c = 2) then b else a.

(** ** The two passes as the specification words them

    One convolution, [convolve_at], is used for both passes and for each of
    the four channels; only the sampling function differs. Out-of-range
    positions are clamped to the valid range. *)
Definition clamp_to (lo hi i : Z) : Z := Z.max lo (Z.min hi i).

Definition convolve_at (kernel : typed_array) (halfWidth : Z)
    (sample : Z -> jsnum) (centre : Z) : jsnum :=
  foldl (fun acc k =>
           jadd acc (jmul (sample (centre + k)) (ta_get kernel (k + halfWidth))))
        (Num 0) (seqZ (- halfWidth) (halfWidth * 2 + 1)).

Definition spec_horizontal (kernel src : typed_array) (halfWidth w : Z)
    (row col ch : Z) : jsnum :=
  convolve_at kernel halfWidth
    (fun c => ta_get src ((row * w + clamp_to 0 (w - 1) c) * 4 + ch)) col.

Definition spec_vertical (kernel tmp : typed_array) (halfWidth w h : Z)
    (row col ch : Z) : jsnum :=
  convolve_at kernel halfWidth
    (fun r => ta_get tmp ((clamp_to 0 (h - 1) r * w + col) * 4 + ch)) row.

(** Relative error of a binary32 store inside the normal range: 2^-24. *)
Definition eps32 : Q := 1 # 16777216.

(** Sum of [f] over an index list, accumulated from the left. *)
Definition Qsum (f : Z -> Q) (xs : list Z) : Q :=
  foldl (fun a i => a + f i)%Q 0%Q xs.

Definition rw `{JSMath} (radius : Q) (i : Z) : Q := Math_fround (Math_exp (exp_arg radius i)).

Definition ksum `{JSMath} (radius : Q) : Q := Qsum (rw radius) (seqZ 0 (kLen_of radius)).

Definition nw `{JSMath} (radius : Q) (i : Z) : Q := Math_fround (rw radius i / ksum radius).

(** The four bytes of one RGBA colour and the buffer of a [w] x [h] image
    filled with it. *)
Definition pixel_bytes (color : Z * Z * Z * Z) : list jsnum :=
  let '(r, g, b, a) := color in
  [Num (inject_Z r); Num (inject_Z g); Num (inject_Z b); Num (inject_Z a)].

Definition uniform_buffer (w h : Z) (color : Z * Z * Z * Z) : list jsnum :=
  concat (replicate (Z.to_nat (w * h)) (pixel_bytes color)).

Definition chanZ (c : Z) (color : Z * Z * Z * Z) : Z :=
  let '(r, g, b, a) := color in
  if decide (c = 0) then r else if decide (c = 1) then g
  else if decide (c = 2) then b else a.

Definition is_byte (z : Z) : Prop := 0 <= z <= 255.

Definition byte_color (color : Z * Z * Z * Z) : Prop :=
  let '(r, g, b, a) := color in is_byte r /\ is_byte g /\ is_byte b /\ is_byte a.

(** Channel [ch] of the [w] x [h] buffer [S] holds the byte [c] at every
    pixel. *)
Definition channel_is (S : typed_array) (w h ch c : Z) : Prop :=
  forall row col, 0 <= row < h -> 0 <= col < w ->
    ta_get S ((row * w + col) * 4 + ch) = Num (inject_Z c).

(** The weighted sum of a constant [c]: the value of either pass on a
    uniform row or column. *)
Definition conv_const `{JSMath} (radius c : Q) : Q :=
  Qsum (fun k => c * nw radius (k + kHalf_of radius))%Q
       (seqZ (- kHalf_of radius) (kHalf_of radius * 2 + 1)).


(** C9 read literally: a larger radius gives a strictly larger half-width. *)
Definition halfWidth_strictly_increasing : Prop :=
  forall r1 r2 : Q, (0 < r1)%Q -> (r1 < r2)%Q -> kHalf_of r1 < kHalf_of r2.

(** ** The pipeline as a function of the image and the regions

    The array a blur returns depends on the source array only, not on the
    rest of the heap; this makes the stages of [blurFaces] functions. *)

Definition blur_data `{JSMath} (S : typed_array) (w h : Z) (radius : Q) : typed_array :=
  let K := TypedArray Float32Array (kernel_weights radius) in
  let n := length (ta_data S) in
  let T := hpass K S (kHalf_of radius) w h (zeros Float32Array n) in
  vpass K T (kHalf_of radius) w h (zeros Uint8ClampedArray n).

(** The once-computed fully blurred image. *)
Definition blurred_of `{JSMath} (img : canvas) : canvas :=
  let c := drawImage source_over (createCanvas (cv_width img) (cv_height img)) img in
  canvas_of_bytes c
    (blur_data (TypedArray Uint8ClampedArray (image_bytes c))
               (cv_width img) (cv_height img) BLUR_RADIUS).

(** The feathered mask of a region, as the array the blur returns. *)
Definition feathered_of `{JSMath} (w h : Z) (b : Box) : typed_array :=
  blur_data (TypedArray Uint8ClampedArray (image_bytes (maskCanvas_of w h b)))
            w h FEATHER_RADIUS.

(** Its opacity byte at pixel [i]. *)
Definition mask_alpha `{JSMath} (w h : Z) (b : Box) (i : nat) : Q :=
  to_Q (ta_get (feathered_of w h b) (Z.of_nat i * 4 + 3)).

(** One iteration of [detections.forEach] on bitmaps. *)
Definition face_step `{JSMath} (w h : Z) (blurredCanvas ctx : canvas)
    (det : WithFaceLandmarks) : canvas :=
  let featherCanvas :=
    canvas_of_bytes (createCanvas w h) (feathered_of w h (box (detection det))) in
  let patchCanvas := drawImage source_over (createCanvas w h) blurredCanvas in
  let patchCanvas := drawImage destination_in patchCanvas featherCanvas in
  drawImage source_over ctx patchCanvas.

(** Equality of bitmaps up to the representation of the rationals. *)
Definition pixel_eq (p q : pixel) : Prop :=
  (pr p == pr q /\ pg p == pg q /\ pb p == pb q /\ pa p == pa q)%Q.

Definition canvas_eq (c d : canvas) : Prop :=
  cv_width c = cv_width d /\ cv_height c = cv_height d /\
  Forall2 pixel_eq (cv_pixels c) (cv_pixels d).

(** A bitmap has as many pixels as its dimensions say. *)
Definition canvas_wf (c : canvas) : Prop :=
  0 <= cv_width c /\ 0 <= cv_height c /\
  length (cv_pixels c) = (Z.to_nat (cv_width c) * Z.to_nat (cv_height c))%nat.

(** Linear interpolation of premultiplied pixels, channel by channel. *)
Definition lerp (a b t : Q) : Q := (a + (b - a) * t)%Q.

Definition lerp_pixel (o b : pixel) (t : Q) : pixel :=
  Pixel (lerp (pr o) (pr b) t) (lerp (pg o) (pg b) t)
        (lerp (pb o) (pb b) t) (lerp (pa o) (pa b) t).

(** What the two [drawImage] calls of an iteration make of an output pixel
    [o], given the blurred pixel [b] and the mask opacity [t] in [0, 1]. *)
Definition stencil_over (o b : pixel) (t : Q) : pixel :=
  Pixel (pr b * t + pr o * (1 - pa b * t)) (pg b * t + pg o * (1 - pa b * t))
        (pb b * t + pb o * (1 - pa b * t)) (pa b * t + pa o * (1 - pa b * t)).

(** C1 read literally: whatever the image, after any number of regions the
    next region turns every pixel [o] of the output so far into
    [lerp(o, blurred, mask_alpha / 255)]. *)
Definition lerp_rule `{JSMath} : Prop :=
  forall (img : canvas) (before : list WithFaceLandmarks) (det : WithFaceLandmarks)
         (i : nat) (o b : pixel),
    let w := cv_width img in
    let h := cv_height img in
    let ctx := foldl (face_step w h (blurred_of img))
                     (drawImage source_over (createCanvas w h) img) before in
    canvas_wf img ->
    cv_pixels ctx !! i = Some o ->
    cv_pixels (blurred_of img) !! i = Some b ->
    exists p,
      cv_pixels (face_step w h (blurred_of img) ctx det) !! i = Some p /\
      pixel_eq p (lerp_pixel o b (mask_alpha w h (box (detection det)) i / 255)).

(** A one-pixel image, half-transparent red, and a region that covers it. *)
Definition half_red_1x1 : canvas := Canvas 1 1 [Pixel (1 # 2) 0 0 (1 # 2)].

Definition whole_1x1 : WithFaceLandmarks :=
  mkDet (mkFaceDetection (mkBox 0 0 1 1) (9 # 10)).

(** ** Opacity values of a mask buffer *)





Definition byte_num (v : jsnum) : Prop :=
  exists z, v = Num (inject_Z z) /\ 0 <= z <= 255.


(** A mask of two pixels, one transparent and one opaque. *)
Definition two_pixel_mask : list jsnum :=
  pixel_bytes (0, 0, 0, 0) ++ pixel_bytes (255, 255, 255, 255).

(** ** Concrete inputs *)

(** A heap holding the two-pixel mask at location 1. *)
Definition two_pixel_heap : heap :=
  {[1%positive := TypedArray Uint8ClampedArray two_pixel_mask]}.

(** A heap holding a 100 x 100 opaque red image at location 1. *)
Definition red_100_heap : heap :=
  {[1%positive := TypedArray Uint8ClampedArray
                    (uniform_buffer 100 100 (255, 0, 0, 255))]}.

(** The region of the specification's end-to-end scenario. *)
Definition centre_box : Box := mkBox 25 25 50 50.

(** An image without transparency. *)
Definition opaque (c : canvas) : Prop :=
  Forall (fun p => pa p == 1)%Q (cv_pixels c).

(** A black and a white pixel, both opaque. *)
Definition black_white_2x1 : canvas := Canvas 2 1 [Pixel 0 0 0 1; Pixel 1 1 1 1].

(** A region over the right-hand pixel of a two-pixel row. *)
Definition right_pixel : WithFaceLandmarks :=
  mkDet (mkFaceDetection (mkBox 1 0 1 1) (9 # 10)).

(** ** Further definitions: the reach of the blur *)

(** Index of channel [ch] of pixel [(row, col)] in an RGBA buffer of width
    [w]. *)
Definition sample_index (w row col ch : Z) : Z := (row * w + col) * 4 + ch.

(** The pixels the two passes read for the output pixel [(row, col)]: those
    of the image at most [kHalf] rows and [kHalf] columns away. *)
Definition in_window (w h kHalf row col r c : Z) : Prop :=
  0 <= r < h /\ 0 <= c < w /\ Z.abs (r - row) <= kHalf /\ Z.abs (c - col) <= kHalf.

(** Channel [ch] of [S] holds numbers between [lo] and [hi] on the window
    of [(row, col)]. *)
Definition window_within (S : typed_array) (w h kHalf row col ch lo hi : Z) : Prop :=
  forall r c, in_window w h kHalf row col r c ->
    exists q, ta_get S (sample_index w r c ch) = Num q /\
              (inject_Z lo <= q <= inject_Z hi)%Q.

(** Two buffers hold the same values of channel [ch] on the window of
    [(row, col)]. *)
Definition window_agree (S S' : typed_array) (w h kHalf row col ch : Z) : Prop :=
  forall r c, in_window w h kHalf row col r c ->
    ta_get S (sample_index w r c ch) = ta_get S' (sample_index w r c ch).

(** ** Further definitions: regions and pixels *)

(** Index of pixel [(row, col)] in the pixel list of a bitmap of width [w]. *)
Definition pixel_at (w row col : Z) : nat := Z.to_nat (row * w + col).

(** How far the feathered mask of a region reaches beyond its pixels: the
    half-width of the feathering kernel. *)
Definition featherReach : Z := kHalf_of FEATHER_RADIUS.

(** The expanded box of a region is not empty. *)
Definition nonempty_box (w h : Z) (b : Box) : Prop :=
  (0 < fw (expandBox w h b) /\ 0 < fh (expandBox w h b))%Q.

(** At least [featherReach] whole pixels lie between pixel [(row, col)] and
    the expanded box of the region, to the left, to the right, above or
    below it. *)
Definition out_of_reach (w h : Z) (b : Box) (row col : Z) : Prop :=
  let e := expandBox w h b in
  let R := inject_Z featherReach in
  nonempty_box w h b /\
  (inject_Z col + R + 1 <= fx e \/ fx e + fw e <= inject_Z col - R \/
   inject_Z row + R + 1 <= fy e \/ fy e + fh e <= inject_Z row - R)%Q.

(** The ellipse of the region covers the centre of every pixel on the
    feathering window of [(row, col)]. *)
Definition window_covered (w h : Z) (b : Box) (row col : Z) : Prop :=
  forall r c, in_window w h featherReach row col r c ->
    in_ellipse (maskEllipse (expandBox w h b))
               (inject_Z c + (1 # 2)) (inject_Z r + (1 # 2)).

(** A bitmap of one opaque colour, given by its three bytes. *)
Definition solid_pixel (r g b : Z) : pixel :=
  Pixel (inject_Z r / 255) (inject_Z g / 255) (inject_Z b / 255) 1.

Definition solid (w h r g b : Z) : canvas :=
  Canvas w h (replicate (Z.to_nat w * Z.to_nat h) (solid_pixel r g b)).

(** [x] lies between [a] and [b], whichever is the larger. *)
Definition between (a b x : Q) : Prop := (Qmin a b <= x <= Qmax a b)%Q.

(** Every channel of [p] lies between those of [o] and [b]. *)
Definition pixel_between (o b p : pixel) : Prop :=
  between (pr o) (pr b) (pr p) /\ between (pg o) (pg b) (pg p) /\
  between (pb o) (pb b) (pb p) /\ between (pa o) (pa b) (pa p).

(** The four bytes saved for a pixel. *)
Definition saved_bytes `{JSMath} (p : pixel) : list jsnum :=
  coerce Uint8ClampedArray <$> straight_bytes p.

(** The padded box of the region lies on the canvas, so that neither
    [Math.max] nor [Math.min] of lines 159-162 clamps it. *)
Definition padded_box_fits (w h : Z) (b : Box) : Prop :=
  let padX := (box_width b * (1 # 5))%Q in
  let padY := (box_height b * (1 # 5))%Q in
  (0 < box_width b /\ 0 < box_height b /\
   0 <= box_x b - padX /\ 0 <= box_y b - padY * (3 # 2) /\
   box_x b + box_width b + padX <= inject_Z w /\
   box_y b + box_height b + padY <= inject_Z h)%Q.

(** ** The expanded box in double precision

    Lines 157-162 and the arguments of [ellipse] (line 170) with the
    rounding of every operation written out: [fl] is applied to each
    exact result; [0.2] is itself a rounded constant, [1.5], [2] and [2.5]
    are doubles. With no rounding ([fl] the identity) these are
    [expandBox] and [maskEllipse]; with [binary64] they are the numbers
    the code computes. *)
Definition expandBox_in (fl : Q -> Q) (w h : Z) (box : Box) : expanded :=
  let padX := fl (box_width box * fl (1 # 5))%Q in
  let padY := fl (box_height box * fl (1 # 5))%Q in
  let fx := Qmax 0 (fl (box_x box - padX)%Q) in
  let fy := Qmax 0 (fl (box_y box - fl (padY * (3 # 2)))%Q) in
  let fw := Qmin (fl (inject_Z w - fx)%Q) (fl (box_width box + fl (padX * 2))%Q) in
  let fh := Qmin (fl (inject_Z h - fy)%Q) (fl (box_height box + fl (padY * (5 # 2)))%Q) in
  mkExpanded fx fy fw fh.

Definition maskEllipse_in (fl : Q -> Q) (b : expanded) : ellipse :=
  Ellipse (fl (fx b + fl (fw b / 2))%Q) (fl (fy b + fl (fh b / 2))%Q)
          (fl (fw b / 2)%Q) (fl (fh b / 2)%Q).

Definition expandBox64 : Z -> Z -> Box -> expanded := expandBox_in binary64.

Definition maskEllipse64 : expanded -> ellipse := maskEllipse_in binary64.

(** C10 read literally: the box the code computes lies on the canvas. *)
Definition box_on_canvas (w h : Z) (e : expanded) : Prop :=
  (0 <= fx e /\ 0 <= fy e /\
   fx e + fw e <= inject_Z w /\ fy e + fh e <= inject_Z h)%Q.

Definition expanded_box_on_canvas : Prop :=
  forall (w h : Z) (b : Box), box_on_canvas w h (expandBox64 w h b).

(** A region of a 100 x 100 image whose padded box is clamped on the
    right and at the bottom. *)
Definition wide_box : Box := mkBox 15 15 72 72.

(** ** Further definitions: hard edges of a mask *)








(** ** Further definitions: the inside of a region *)

(** The ellipse of the region covers the whole square of every pixel on
    the feathering window of [(row, col)]: its four corners, and so, the
    ellipse being convex, all of it. A rasteriser that anti-aliases paints
    such a pixel in full, as one that samples the centre does. *)
Definition window_inside (w h : Z) (b : Box) (row col : Z) : Prop :=
  forall r c, in_window w h featherReach row col r c ->
    forall dx dy, 0 <= dx <= 1 -> 0 <= dy <= 1 ->
      in_ellipse (maskEllipse (expandBox w h b))
                 (inject_Z (c + dx)) (inject_Z (r + dy)).

(** An opaque bitmap of black and white pixels in turn. *)
Definition striped (w h : Z) : canvas :=
  Canvas w h ((fun i : nat => if Nat.even i then Pixel 0 0 0 1 else Pixel 1 1 1 1)
                <$> seq 0 (Z.to_nat w * Z.to_nat h)).

(** A region that takes up most of a 200 x 200 image. *)
Definition large_face : WithFaceLandmarks :=
  mkDet (mkFaceDetection (mkBox 20 30 160 140) (9 # 10)).

(** ** The command line (lines 202-219) and the model folder (lines 100-113)

    The file system and the path functions are the host's: they are the
    members of the class [NodeHost]. *)

Class NodeHost : Type := {
  fs_existsSync : string -> bool;
  path_resolve : string -> string -> string;
  path_basename : string -> string -> string;
  path_extname : string -> string
}.

(** [s.replace(pattern, replacement)] for a string pattern: the first
    occurrence is replaced, the others are kept. The replacement patterns
    ([$&] and the like) are not modelled; the program replaces by the
    empty string only. *)
Fixpoint String_replace (s pattern replacement : string) : string :=
  if String.prefix pattern s
  then replacement +:+
       String.substring (String.length pattern)
                        (String.length s - String.length pattern) s
  else match s with
       | EmptyString => EmptyString
       | String c s' => String c (String_replace s' pattern replacement)
       end.

(** The folder both networks are loaded from (lines 100-113), given
    [__dirname]. *)
Definition modelFolder `{NodeHost} (dirname : string) : string :=
  let localModelDir := path_resolve dirname "models" in
  let modelPath :=
    if fs_existsSync localModelDir
    then "file://" +:+ localModelDir
    else "file://" +:+ path_resolve dirname "node_modules/@vladmandic/face-api/model" in
  String_replace modelPath "file://" "".

(** [a || b] where [a] is an element of [args]: a missing element
    ([undefined]) and the empty string are falsy. *)
Definition or_else (a : option string) (b : string) : string :=
  match a with
  | Some s => if decide (s = "") then b else s
  | None => b
  end.

(** What the script does once it has read its arguments: it ends the
    process with a status after a message on the error stream, or it calls
    [blurFaces]. *)
Inductive cli_action : Type :=
  | process_exit (code : Z) (message : string)
  | call_blurFaces (inputPath outputPath : string).

Definition defaultOutput `{NodeHost} (inputFile : string) : string :=
  "faceshield-" +:+ path_basename inputFile (path_extname inputFile) +:+ ".png".

(** Lines 202-216, [args] being [process.argv.slice(2)]: what the script
    does before the promise of [blurFaces] is settled. *)
Definition cli `{NodeHost} (args : list string) : cli_action :=
  if decide (length args < 1)%nat
  then process_exit 1 "Usage: node blur-faces.js <input-image> [output-image]"
  else
    let inputFile := default "" (args !! 0%nat) in
    let outputFile := or_else (args !! 1%nat) (defaultOutput inputFile) in
    if negb (fs_existsSync inputFile)
    then process_exit 1 ("❌ File not found: " +:+ inputFile)
    else call_blurFaces inputFile outputFile.

(** The value a rejected promise carries, as far as the handler of lines
    216-219 looks at it: its [message] property, if it has one, and the
    text [console.error] prints for the value itself. *)
Record rejection : Type := mkRejection {
  err_message : option string;
  err_text : string
}.

(** How the promise [blurFaces] returns is settled. *)
Inductive settled : Type :=
  | fulfilled
  | rejected (err : rejection).

(** How a run of the script ends: with a call of [process.exit], after a
    message on the error stream, or by running to its end. *)
Inductive script_end : Type :=
  | exited (code : Z) (message : string)
  | ran_to_end.

(** The whole script, lines 202-219; [blurFaces_settles] tells how the
    call of [blurFaces] on an input and an output path is settled. *)
Definition script `{NodeHost} (blurFaces_settles : string -> string -> settled)
    (args : list string) : script_end :=
  match cli args with
  | process_exit code message => exited code message
  | call_blurFaces inputFile outputFile =>
      match blurFaces_settles inputFile outputFile with
      | fulfilled => ran_to_end
      | rejected err =>
          exited 1 ("❌ Error: " +:+ or_else (err_message err) (err_text err))
      end
  end.

(** ** Further concrete inputs *)

(** The two-pixel mask with other colour bytes and the same opacities. *)
Definition two_pixel_tinted : list jsnum :=
  pixel_bytes (9, 9, 9, 0) ++ pixel_bytes (7, 7, 7, 255).

Definition two_pixel_tinted_heap : heap :=
  {[1%positive := TypedArray Uint8ClampedArray two_pixel_tinted]}.

(** A region near the right end of a row of 100 pixels. *)
Definition right_end : WithFaceLandmarks :=
  mkDet (mkFaceDetection (mkBox 80 0 10 1) (9 # 10)).

(** A file system that holds [photo.jpg] only, with path functions that
    are good enough for that name. *)
Definition one_photo : NodeHost := {|
  fs_existsSync := fun f => if decide (f = "photo.jpg") then true else false;
  path_resolve := fun dir f => dir +:+ "/" +:+ f;
  path_basename := fun f ext => "photo";
  path_extname := fun f => ".jpg"
|}.

(** * Proofs *)

Section Proofs.
Context `{JS : JSMath}.

Lemma bind_run {A B} (m : M A) (f : A -> M B) st a st' :
  m st = (a, st') -> bind m f st = f a st'.
Proof. intros E. unfold bind. by rewrite E. Qed.

Lemma load_run l i (st : heap) a :
  st !! l = Some a -> load l i st = (ta_get a i, st).
Proof. intros E. unfold load. by rewrite E. Qed.

Lemma store_run l i v (st : heap) a :
  st !! l = Some a -> store l i v st = (tt, <[l := ta_set a i v]> st).
Proof. intros E. unfold store. by rewrite E. Qed.

Lemma store_run_insert l i v (st : heap) a :
  store l i v (<[l := a]> st) = (tt, <[l := ta_set a i v]> st).
Proof.
  rewrite (store_run _ _ _ _ a); [| apply lookup_insert_eq].
  by rewrite insert_insert_eq.
Qed.

(** A loop whose body acts on one abstract component [t] of the heap. *)
Lemma forM_sim {X S T} (repr : T -> heap) (pure : X -> T * S -> T * S)
    (xs : list X) (body : X -> S -> M S) :
  (forall x t s, x ∈ xs ->
     body x s (repr t) = ((pure x (t, s)).2, repr (pure x (t, s)).1)) ->
  forall t s,
    forM xs body s (repr t)
    = ((foldl (fun p x => pure x p) (t, s) xs).2,
       repr (foldl (fun p x => pure x p) (t, s) xs).1).
Proof.
  induction xs as [| x xs IH]; intros Hb t s; [done |].
  cbn [forM foldl]. erewrite bind_run; [| apply Hb; left].
  rewrite IH.
  - by destruct (pure x (t, s)).
  - intros y t' s' Hy. apply Hb. by right.
Qed.

Lemma taps_run kernel src (K S : typed_array) kHalf idx_of ks acc (st : heap) :
  st !! kernel = Some K -> st !! src = Some S ->
  forM ks (fun k '(r, g, b, a) =>
      do wt <- load kernel (k + kHalf) ;
      do s0 <- load src (idx_of k) ;
      do s1 <- load src (idx_of k + 1) ;
      do s2 <- load src (idx_of k + 2) ;
      do s3 <- load src (idx_of k + 3) ;
      ret (jadd r (jmul s0 wt), jadd g (jmul s1 wt),
           jadd b (jmul s2 wt), jadd a (jmul s3 wt))) acc st
  = (foldl (tap_step K S kHalf idx_of) acc ks, st).
Proof.
  intros HK HS. revert acc.
  induction ks as [| k ks IH]; intros acc; [done |].
  cbn [forM foldl]. destruct acc as [[[r g] b] a].
  erewrite bind_run; [apply IH |].
  repeat (erewrite bind_run; [| by apply load_run]).
  reflexivity.
Qed.

Lemma forM_sim_unit {X T} (repr : T -> heap) (pure : T -> X -> T)
    (xs : list X) (body : X -> unit -> M unit) :
  (forall x t, x ∈ xs -> body x tt (repr t) = (tt, repr (pure t x))) ->
  forall t, forM xs body tt (repr t) = (tt, repr (foldl pure t xs)).
Proof.
  induction xs as [| x xs IH]; intros Hb t; [done |].
  cbn [forM foldl]. erewrite bind_run; [| apply Hb; left].
  apply IH. intros y t' Hy. apply Hb. by right.
Qed.

Lemma store4_run l oi r g b a (d : typed_array) (st : heap) :
  (store l oi r ;;; store l (oi + 1) g ;;;
   store l (oi + 2) b ;;; store l (oi + 3) a) (<[l := d]> st)
  = (tt, <[l := set4 d oi (r, g, b, a)]> st).
Proof.
  repeat (erewrite bind_run; [| apply store_run_insert]).
  apply store_run_insert.
Qed.

Section Passes.
Variables (kernel src tmp : loc) (K S : typed_array) (st0 : heap).
Variables (kHalf w h : Z).
Hypothesis HK : st0 !! kernel = Some K.
Hypothesis HS : st0 !! src = Some S.
Hypothesis Hk : tmp <> kernel.
Hypothesis Hs : tmp <> src.

Lemma taps_run_under d idx_of :
  forM (seqZ (- kHalf) (kHalf * 2 + 1)) (fun k '(r, g, b, a) =>
      do wt <- load kernel (k + kHalf) ;
      do s0 <- load src (idx_of k) ;
      do s1 <- load src (idx_of k + 1) ;
      do s2 <- load src (idx_of k + 2) ;
      do s3 <- load src (idx_of k + 3) ;
      ret (jadd r (jmul s0 wt), jadd g (jmul s1 wt),
           jadd b (jmul s2 wt), jadd a (jmul s3 wt)))
    (Num 0, Num 0, Num 0, Num 0) (<[tmp := d]> st0)
  = (taps K S kHalf idx_of, <[tmp := d]> st0).
Proof. apply taps_run; by rewrite lookup_insert_ne. Qed.

Lemma hpass_run d :
  forM (seqZ 0 h) (fun row (_ : unit) =>
    forM (seqZ 0 w) (fun col (_ : unit) =>
      do (r, g, b, a) <- forM (seqZ (- kHalf) (kHalf * 2 + 1)) (fun k '(r, g, b, a) =>
          let sc := Z.min (w - 1) (Z.max 0 (col + k)) in
          let idx := (row * w + sc) * 4 in
          do wt <- load kernel (k + kHalf) ;
          do s0 <- load src idx ;
          do s1 <- load src (idx + 1) ;
          do s2 <- load src (idx + 2) ;
          do s3 <- load src (idx + 3) ;
          ret (jadd r (jmul s0 wt), jadd g (jmul s1 wt),
               jadd b (jmul s2 wt), jadd a (jmul s3 wt)))
        (Num 0, Num 0, Num 0, Num 0) ;
      let oi := (row * w + col) * 4 in
      store tmp oi r ;;; store tmp (oi + 1) g ;;;
      store tmp (oi + 2) b ;;; store tmp (oi + 3) a) tt) tt (<[tmp := d]> st0)
  = (tt, <[tmp := hpass K S kHalf w h d]> st0).
Proof.
  unfold hpass.
  apply (forM_sim_unit (fun t => <[tmp := t]> st0)
           (fun d row => foldl (hpass_px K S kHalf w row) d (seqZ 0 w))).
  intros row t _.
  apply (forM_sim_unit (fun t => <[tmp := t]> st0) (hpass_px K S kHalf w row)).
  intros col t' _.
  erewrite bind_run; [| apply (taps_run_under t' (h_idx w row col))].
  unfold hpass_px. destruct (taps K S kHalf (h_idx w row col)) as [[[r g] b] a].
  apply store4_run.
Qed.

Lemma vpass_run d :
  forM (seqZ 0 w) (fun col (_ : unit) =>
    forM (seqZ 0 h) (fun row (_ : unit) =>
      do (r, g, b, a) <- forM (seqZ (- kHalf) (kHalf * 2 + 1)) (fun k '(r, g, b, a) =>
          let sr := Z.min (h - 1) (Z.max 0 (row + k)) in
          let idx := (sr * w + col) * 4 in
          do wt <- load kernel (k + kHalf) ;
          do s0 <- load src idx ;
          do s1 <- load src (idx + 1) ;
          do s2 <- load src (idx + 2) ;
          do s3 <- load src (idx + 3) ;
          ret (jadd r (jmul s0 wt), jadd g (jmul s1 wt),
               jadd b (jmul s2 wt), jadd a (jmul s3 wt)))
        (Num 0, Num 0, Num 0, Num 0) ;
      let oi := (row * w + col) * 4 in
      store tmp oi r ;;; store tmp (oi + 1) g ;;;
      store tmp (oi + 2) b ;;; store tmp (oi + 3) a) tt) tt (<[tmp := d]> st0)
  = (tt, <[tmp := vpass K S kHalf w h d]> st0).
Proof.
  unfold vpass.
  apply (forM_sim_unit (fun t => <[tmp := t]> st0)
           (fun d col => foldl (vpass_px K S kHalf w h col) d (seqZ 0 h))).
  intros col t _.
  apply (forM_sim_unit (fun t => <[tmp := t]> st0) (vpass_px K S kHalf w h col)).
  intros row t' _.
  erewrite bind_run; [| apply (taps_run_under t' (v_idx w h row col))].
  unfold vpass_px. destruct (taps K S kHalf (v_idx w h row col)) as [[[r g] b] a].
  apply store4_run.
Qed.
End Passes.

Lemma ta_set_kind a i v : ta_kind (ta_set a i v) = ta_kind a.
Proof. unfold ta_set. by case_decide. Qed.

Lemma ta_set_length a i v : length (ta_data (ta_set a i v)) = length (ta_data a).
Proof. unfold ta_set. case_decide; [apply length_insert | done]. Qed.

Lemma ta_get_nat a (j : nat) : ta_get a (Z.of_nat j) = default NaN (ta_data a !! j).
Proof. unfold ta_get. rewrite decide_True by lia. by rewrite Nat2Z.id. Qed.

(** Lookup after one store. *)
Lemma ta_set_lookup a i v (j : nat) :
  ta_data (ta_set a i v) !! j
  = if decide (Z.of_nat j = i /\ (j < length (ta_data a))%nat)
    then Some (coerce (ta_kind a) v) else ta_data a !! j.
Proof.
  unfold ta_set. case_decide as Hi; cbn [ta_data].
  - destruct (decide (Z.of_nat j = i /\ (j < length (ta_data a))%nat)) as [[<- Hlt] | Hj].
    + rewrite Nat2Z.id. by apply list_lookup_insert_eq.
    + destruct (decide (Z.to_nat i = j)) as [<- | Hne].
      * rewrite list_insert_ge; [done |]. apply Nat.nlt_ge. intros Hlt. apply Hj. lia.
      * by rewrite list_lookup_insert_ne.
  - rewrite decide_False; [done | lia].
Qed.

Lemma seqZ_snoc (n : nat) : seqZ 0 (Z.of_nat (S n)) = seqZ 0 (Z.of_nat n) ++ [Z.of_nat n].
Proof.
  replace (Z.of_nat (S n)) with (Z.of_nat n + 1) by lia.
  rewrite seqZ_app by lia. done.
Qed.

(** A loop [for i in 0..n-1: a[i] = g(i, a[i])]. *)
Lemma seq_update_lookup (g : Z -> jsnum -> jsnum) (n : nat) (d : typed_array) (j : nat) :
  let d' := foldl (fun d i => ta_set d i (g i (ta_get d i))) d (seqZ 0 (Z.of_nat n)) in
  ta_kind d' = ta_kind d /\
  length (ta_data d') = length (ta_data d) /\
  ta_data d' !! j
  = if decide (j < n)%nat
    then (fun old => coerce (ta_kind d) (g (Z.of_nat j) old)) <$> ta_data d !! j
    else ta_data d !! j.
Proof.
  induction n as [| n IH]; [done |].
  cbn zeta in *. rewrite seqZ_snoc, foldl_app. cbn [foldl].
  destruct IH as (IHk & IHl & IHj).
  rewrite ta_set_kind, ta_set_length. split; [done |]. split; [done |].
  rewrite ta_set_lookup, IHk, IHl.
  destruct (decide (Z.of_nat j = Z.of_nat n /\ (j < length (ta_data d))%nat)) as [[Hj Hlt] | Hj].
  - apply Nat2Z.inj in Hj. subst j.
    rewrite decide_True by lia.
    rewrite ta_get_nat.
    assert (Hold : ta_data
      (foldl (fun d i => ta_set d i (g i (ta_get d i))) d (seqZ 0 (Z.of_nat n))) !! n
      = ta_data d !! n).
    { rewrite IHj. rewrite decide_False by lia. done. }
    rewrite Hold. destruct (lookup_lt_is_Some_2 (ta_data d) n Hlt) as [x Hx].
    by rewrite Hx.
  - rewrite IHj. destruct (decide (j = n)) as [-> | Hne].
    + rewrite decide_False by lia. rewrite decide_True by lia.
      rewrite lookup_ge_None_2; [done |]. apply Nat.nlt_ge. intros Hlt. apply Hj. done.
    + repeat case_decide; try lia; done.
Qed.

(** ** Rounding to binary64 *)

Lemma inject_Z_le_iff (a b : Z) : a <= b <-> (inject_Z a <= inject_Z b)%Q.
Proof. by rewrite Zle_Qle. Qed.

Lemma inject_Z_succ (a : Z) : (inject_Z (a + 1) == inject_Z a + 1)%Q.
Proof. rewrite inject_Z_plus. reflexivity. Qed.

Lemma round_half_even_err (q : Q) :
  (q - (1 # 2) <= inject_Z (round_half_even q) /\
   inject_Z (round_half_even q) <= q + (1 # 2))%Q.
Proof.
  unfold round_half_even.
  pose proof (Qfloor_le q) as Hf1. pose proof (Qlt_floor q) as Hf2.
  rewrite inject_Z_succ in Hf2.
  destruct (q ?= inject_Z (Qfloor q) + (1 # 2))%Q eqn:E.
  - apply (proj2 (Qeq_alt _ _)) in E.
    destruct (Z.even (Qfloor q)); [| rewrite inject_Z_succ]; split; lra.
  - apply (proj2 (Qlt_alt _ _)) in E. split; lra.
  - apply (proj2 (Qgt_alt _ _)) in E. rewrite inject_Z_succ. split; lra.
Qed.

Lemma round_half_even_comp (q q' : Q) : (q == q')%Q -> round_half_even q = round_half_even q'.
Proof.
  intros E. unfold round_half_even. rewrite (Qfloor_comp _ _ E).
  assert (Ec : (q ?= inject_Z (Qfloor q') + (1 # 2))%Q
             = (q' ?= inject_Z (Qfloor q') + (1 # 2))%Q).
  { apply Qcompare_comp; [done | reflexivity]. }
  by rewrite Ec.
Qed.

Lemma round_half_even_Z (n : Z) : round_half_even (inject_Z n) = n.
Proof.
  unfold round_half_even. rewrite Qfloor_Z.
  destruct (inject_Z n ?= inject_Z n + (1 # 2))%Q eqn:E; [| done |].
  - apply (proj2 (Qeq_alt _ _)) in E. lra.
  - apply (proj2 (Qgt_alt _ _)) in E. lra.
Qed.

Lemma round_half_even_mono (q q' : Q) :
  (q <= q')%Q -> round_half_even q <= round_half_even q'.
Proof.
  intros Hq. destruct (Z_le_gt_dec (round_half_even q) (round_half_even q')) as [| Hgt]; [done |].
  exfalso.
  destruct (round_half_even_err q) as [_ H1]. destruct (round_half_even_err q') as [H2 _].
  assert (Hz : (inject_Z (round_half_even q') + 1 <= inject_Z (round_half_even q))%Q).
  { rewrite <- inject_Z_succ, <- Zle_Qle. lia. }
  assert (E : (q == q')%Q) by lra.
  apply round_half_even_comp in E. lia.
Qed.

Lemma two_ne_0 : ~ (2 == 0)%Q.
Proof. discriminate. Qed.

Lemma Qabs_num_den (x : Q) :
  (Qabs x == inject_Z (Z.abs (Qnum x)) / inject_Z (Zpos (Qden x)))%Q.
Proof. destruct x as [n d]. cbn [Qabs Qnum Qden]. apply Qmake_Qdiv. Qed.

(** The exponent guessed from the bit lengths is at most one too large. *)
Lemma log2_guess_lower (x : Q) :
  ~ (x == 0)%Q ->
  (2 ^ (Z.log2 (Z.abs (Qnum x)) - Z.log2 (Zpos (Qden x)) - 1) <= Qabs x)%Q.
Proof.
  intros Hx.
  set (n := Z.abs (Qnum x)). set (d := Zpos (Qden x)).
  assert (Hn : 0 < n).
  { unfold n. destruct x as [[| p | p] q]; cbn; try lia. exfalso. apply Hx. reflexivity. }
  assert (Hd : 0 < d) by (unfold d; lia).
  destruct (Z.log2_spec n Hn) as [Hn1 _]. destruct (Z.log2_spec d Hd) as [_ Hd2].
  pose proof (Z.log2_nonneg n) as Ha. pose proof (Z.log2_nonneg d) as Hb.
  set (a := Z.log2 n) in *. set (b := Z.log2 d) in *.
  rewrite Qabs_num_den. fold n d.
  replace (a - b - 1) with (a - (b + 1)) by lia.
  rewrite Qpower_minus by apply two_ne_0.
  change 2%Q with (inject_Z 2). rewrite <- !Zpower_Qpower by lia.
  replace (Z.succ b) with (b + 1) in Hd2 by lia.
  assert (HnQ : (inject_Z (2 ^ a) <= inject_Z n)%Q) by (by rewrite <- Zle_Qle).
  assert (HdQ : (inject_Z d <= inject_Z (2 ^ (b + 1)))%Q) by (rewrite <- Zle_Qle; lia).
  assert (HdQ0 : (0 < inject_Z d)%Q).
  { change 0%Q with (inject_Z 0). by rewrite <- Zlt_Qlt. }
  assert (HaQ0 : (0 <= inject_Z (2 ^ a))%Q).
  { change 0%Q with (inject_Z 0). rewrite <- Zle_Qle. lia. }
  assert (HB0 : (0 < inject_Z (2 ^ (b + 1)))%Q).
  { change 0%Q with (inject_Z 0). rewrite <- Zlt_Qlt. lia. }
  apply Qle_shift_div_l; [done |].
  unfold Qdiv. rewrite <- Qmult_assoc, (Qmult_comm (/ _)), Qmult_assoc.
  apply Qle_shift_div_r; [done |].
  generalize dependent (inject_Z (2 ^ a)). generalize dependent (inject_Z (2 ^ (b + 1))).
  generalize dependent (inject_Z n). generalize dependent (inject_Z d).
  intros D HD N B HDB HB A HA HA0. nra.
Qed.

(** ... and never too small. *)
Lemma log2_guess_upper (x : Q) :
  ~ (x == 0)%Q ->
  (Qabs x < 2 ^ (Z.log2 (Z.abs (Qnum x)) - Z.log2 (Zpos (Qden x)) + 1))%Q.
Proof.
  intros Hx.
  set (n := Z.abs (Qnum x)). set (d := Zpos (Qden x)).
  assert (Hn : 0 < n).
  { unfold n. destruct x as [[| p | p] q]; cbn; try lia. exfalso. apply Hx. reflexivity. }
  assert (Hd : 0 < d) by (unfold d; lia).
  destruct (Z.log2_spec n Hn) as [_ Hn2]. destruct (Z.log2_spec d Hd) as [Hd1 _].
  pose proof (Z.log2_nonneg n) as Ha. pose proof (Z.log2_nonneg d) as Hb.
  set (a := Z.log2 n) in *. set (b := Z.log2 d) in *.
  rewrite Qabs_num_den. fold n d.
  replace (a - b + 1) with (a + 1 - b) by lia.
  rewrite Qpower_minus by apply two_ne_0.
  change 2%Q with (inject_Z 2). rewrite <- !Zpower_Qpower by lia.
  replace (Z.succ a) with (a + 1) in Hn2 by lia.
  assert (HnQ : (inject_Z n < inject_Z (2 ^ (a + 1)))%Q) by (by rewrite <- Zlt_Qlt).
  assert (HdQ : (inject_Z (2 ^ b) <= inject_Z d)%Q) by (by rewrite <- Zle_Qle).
  assert (HdQ0 : (0 < inject_Z d)%Q).
  { change 0%Q with (inject_Z 0). by rewrite <- Zlt_Qlt. }
  assert (HnQ0 : (0 < inject_Z n)%Q).
  { change 0%Q with (inject_Z 0). by rewrite <- Zlt_Qlt. }
  assert (HB0 : (0 < inject_Z (2 ^ b))%Q).
  { change 0%Q with (inject_Z 0). rewrite <- Zlt_Qlt. lia. }
  apply Qlt_shift_div_r; [done |].
  unfold Qdiv. rewrite <- Qmult_assoc, (Qmult_comm (/ _)), Qmult_assoc.
  apply Qlt_shift_div_l; [done |].
  generalize dependent (inject_Z (2 ^ (a + 1))). generalize dependent (inject_Z (2 ^ b)).
  generalize dependent (inject_Z n). generalize dependent (inject_Z d).
  intros D HD N HN B HDB HB A HA. nra.
Qed.

Lemma binade_spec (x : Q) :
  ~ (x == 0)%Q -> (2 ^ binade x <= Qabs x < 2 ^ (binade x + 1))%Q.
Proof.
  intros Hx. unfold binade.
  destruct (Qle_bool _ _) eqn:E.
  - split; [by apply Qle_bool_iff | by apply log2_guess_upper].
  - split; [by apply log2_guess_lower |].
    apply Qnot_le_lt. intros Hle. apply Qle_bool_iff in Hle.
    replace (Z.log2 (Z.abs (Qnum x)) - Z.log2 (Z.pos (Qden x)) - 1 + 1)
      with (Z.log2 (Z.abs (Qnum x)) - Z.log2 (Z.pos (Qden x))) in Hle by lia.
    congruence.
Qed.

Lemma pow2_add (a b : Z) : (2 ^ (a + b) == 2 ^ a * 2 ^ b)%Q.
Proof. apply Qpower_plus, two_ne_0. Qed.

Lemma pow2_pos (a : Z) : (0 < 2 ^ a)%Q.
Proof. by apply Qpower_0_lt. Qed.

Lemma pow2_le (a b : Z) : a <= b -> (2 ^ a <= 2 ^ b)%Q.
Proof. intros. apply Qpower_le_compat_l; [done | discriminate]. Qed.

Lemma pow2_Z (n : Z) : 0 <= n -> (2 ^ n == inject_Z (2 ^ n))%Q.
Proof. intros. change 2%Q with (inject_Z 2). by rewrite <- Zpower_Qpower. Qed.

Lemma binary64_err (x : Q) : (Qabs (binary64 x - x) <= Qabs x * eps64)%Q.
Proof.
  unfold binary64. destruct (Qeq_bool x 0) eqn:E0.
  - apply Qeq_bool_eq in E0. rewrite E0. discriminate.
  - assert (Hx : ~ (x == 0)%Q) by (by apply Qeq_bool_neq).
    destruct (binade_spec x Hx) as [He _].
    set (e := binade x) in *. cbn zeta.
    set (s := 52 - e).
    destruct (round_half_even_err (x * 2 ^ s)) as [Hm1 Hm2].
    set (m := inject_Z (round_half_even (x * 2 ^ s))) in *.
    assert (HP : (0 < 2 ^ s)%Q) by apply pow2_pos.
    assert (HPi : (2 ^ (- s) == / 2 ^ s)%Q) by apply Qpower_opp.
    assert (HPi0 : (0 < / 2 ^ s)%Q) by (by apply Qinv_lt_0_compat).
    assert (HPP : (2 ^ s * / 2 ^ s == 1)%Q) by (apply Qmult_inv_r; lra).
    assert (Hes : (2 ^ e * eps64 == / 2 ^ s * (1 # 2))%Q).
    { rewrite <- HPi. change eps64 with (2 ^ (-53))%Q. change (1 # 2)%Q with (2 ^ (-1))%Q.
      rewrite <- !Qpower_plus by apply two_ne_0. unfold s.
      replace (e + -53) with (- (52 - e) + -1) by lia. reflexivity. }
    rewrite HPi. clear HPi. clearbody m.
    set (Pi := (/ 2 ^ s)%Q) in *. set (P := (2 ^ s)%Q) in *.
    set (E2 := (2 ^ e)%Q) in *. clearbody Pi P E2.
    assert (Hxe : (E2 * eps64 <= Qabs x * eps64)%Q).
    { apply Qmult_le_compat_r; [done | discriminate]. }
    apply Qle_trans with (Pi * (1 # 2))%Q; [| lra].
    apply Qabs_Qle_condition.
    assert (Ex : (x == x * P * Pi)%Q).
    { rewrite <- Qmult_assoc, HPP. ring. }
    split.
    + assert ((x * P - (1 # 2)) * Pi <= m * Pi)%Q by (apply Qmult_le_compat_r; lra).
      nra.
    + assert (m * Pi <= (x * P + (1 # 2)) * Pi)%Q by (apply Qmult_le_compat_r; lra).
      nra.
Qed.

Lemma binary64_bounds (x : Q) :
  (0 <= x -> x * (1 - eps64) <= binary64 x <= x * (1 + eps64))%Q /\
  (x <= 0 -> x * (1 + eps64) <= binary64 x <= x * (1 - eps64))%Q.
Proof.
  pose proof (binary64_err x) as H. apply Qabs_Qle_condition in H.
  split; intros Hx.
  - rewrite (Qabs_pos x) in H by done. lra.
  - rewrite (Qabs_neg x) in H by done. lra.
Qed.

Lemma binary64_nonneg (x : Q) : (0 <= x -> 0 <= binary64 x)%Q.
Proof.
  intros Hx. destruct (binary64_bounds x) as [H _]. specialize (H Hx).
  assert (0 <= x * (1 - eps64))%Q by (apply Qmult_le_0_compat; [done | discriminate]).
  lra.
Qed.

Lemma binary64_nonpos (x : Q) : (x <= 0 -> binary64 x <= 0)%Q.
Proof.
  intros Hx. destruct (binary64_bounds x) as [_ H]. specialize (H Hx).
  assert (0 <= (- x) * (1 - eps64))%Q.
  { apply Qmult_le_0_compat; [lra | discriminate]. }
  lra.
Qed.

Lemma binary64_pos_inv (x : Q) : (0 < binary64 x -> 0 < x)%Q.
Proof.
  intros H. apply Qnot_le_lt. intros Hx. apply binary64_nonpos in Hx. lra.
Qed.

(** A positive number is rounded to a number of its own binade, or to the
    power of two that ends it. *)
Lemma binary64_in_binade (x : Q) :
  (0 < x -> 2 ^ binade x <= binary64 x <= 2 ^ (binade x + 1))%Q.
Proof.
  intros Hx0. assert (Hx : ~ (x == 0)%Q) by lra.
  destruct (binade_spec x Hx) as [He1 He2]. rewrite Qabs_pos in He1, He2 by lra.
  unfold binary64. destruct (Qeq_bool x 0) eqn:E0.
  { apply Qeq_bool_eq in E0. lra. }
  set (e := binade x) in *. cbn zeta. set (s := 52 - e).
  assert (HP : (0 < 2 ^ s)%Q) by apply pow2_pos.
  assert (HQ : (0 < 2 ^ (- s))%Q) by apply pow2_pos.
  assert (E52 : (2 ^ e * 2 ^ s == inject_Z (2 ^ 52))%Q).
  { rewrite <- pow2_add, <- pow2_Z by lia. unfold s.
    replace (e + (52 - e)) with 52 by lia. reflexivity. }
  assert (E53 : (2 ^ (e + 1) * 2 ^ s == inject_Z (2 ^ 53))%Q).
  { rewrite <- pow2_add, <- pow2_Z by lia. unfold s.
    replace (e + 1 + (52 - e)) with 53 by lia. reflexivity. }
  assert (Elo : (2 ^ e == inject_Z (2 ^ 52) * 2 ^ (- s))%Q).
  { rewrite <- E52, <- Qmult_assoc, <- pow2_add.
    replace (s + - s) with 0 by lia. change (2 ^ 0)%Q with 1%Q. ring. }
  assert (Ehi : (2 ^ (e + 1) == inject_Z (2 ^ 53) * 2 ^ (- s))%Q).
  { rewrite <- E53, <- Qmult_assoc, <- pow2_add.
    replace (s + - s) with 0 by lia. change (2 ^ 0)%Q with 1%Q. ring. }
  rewrite Elo, Ehi. split; apply Qmult_le_compat_r; try lra.
  - rewrite <- Zle_Qle. rewrite <- (round_half_even_Z (2 ^ 52)) at 1.
    apply round_half_even_mono. rewrite <- E52.
    apply Qmult_le_compat_r; lra.
  - rewrite <- Zle_Qle. rewrite <- (round_half_even_Z (2 ^ 53)) at 1.
    apply round_half_even_mono. rewrite <- E53.
    apply Qmult_le_compat_r; lra.
Qed.

(** Rounding keeps the order of positive numbers. *)
Lemma binary64_mono_pos (x y : Q) : (0 < x -> x <= y -> binary64 x <= binary64 y)%Q.
Proof.
  intros Hx Hxy. assert (Hy : (0 < y)%Q) by lra.
  assert (Hx0 : ~ (x == 0)%Q) by lra. assert (Hy0 : ~ (y == 0)%Q) by lra.
  destruct (binade_spec x Hx0) as [Hx1 Hx2]. destruct (binade_spec y Hy0) as [Hy1 Hy2].
  rewrite Qabs_pos in Hx1, Hx2, Hy1, Hy2 by lra.
  destruct (Z_lt_le_dec (binade y) (binade x)) as [Hlt | Hle].
  { exfalso. assert (2 ^ (binade y + 1) <= 2 ^ binade x)%Q by (apply pow2_le; lia). lra. }
  destruct (Z.eq_dec (binade x) (binade y)) as [Heq | Hne].
  - unfold binary64.
    destruct (Qeq_bool x 0) eqn:Ex; [apply Qeq_bool_eq in Ex; lra |].
    destruct (Qeq_bool y 0) eqn:Ey; [apply Qeq_bool_eq in Ey; lra |].
    cbn zeta. rewrite Heq. set (s := 52 - binade y).
    pose proof (pow2_pos s). pose proof (pow2_pos (- s)).
    apply Qmult_le_compat_r; [| lra].
    rewrite <- Zle_Qle. apply round_half_even_mono. apply Qmult_le_compat_r; lra.
  - destruct (binary64_in_binade x Hx) as [_ H1]. destruct (binary64_in_binade y Hy) as [H2 _].
    assert (2 ^ (binade x + 1) <= 2 ^ binade y)%Q by (apply pow2_le; lia). lra.
Qed.

Lemma binary64_le_of_le (x : Q) (c : Q) :
  (0 < c)%Q -> (binary64 c == c)%Q -> (x <= c -> binary64 x <= c)%Q.
Proof.
  intros Hc Ec Hx. destruct (Qlt_le_dec 0 x) as [Hpos | Hneg].
  - rewrite <- Ec. by apply binary64_mono_pos.
  - apply binary64_nonpos in Hneg. lra.
Qed.

Lemma binary64_ge_of_ge (x : Q) (c : Q) :
  (0 < c)%Q -> (binary64 c == c)%Q -> (c <= x -> c <= binary64 x)%Q.
Proof. intros Hc Ec Hx. rewrite <- Ec. by apply binary64_mono_pos. Qed.

Lemma binary64_1 : (binary64 1 == 1)%Q.
Proof. reflexivity. Qed.

Lemma binary64_3 : (binary64 3 == 3)%Q.
Proof. reflexivity. Qed.

(** ** The size of the kernel *)

Lemma sigma_ge_1 radius : (1 <= sigma_of radius)%Q.
Proof. apply Q.le_max_l. Qed.

Lemma kHalf_ge_3 radius : 3 <= kHalf_of radius.
Proof.
  unfold kHalf_of. pose proof (sigma_ge_1 radius) as Hs.
  assert (H3 : Qceiling 3 <= Qceiling (binary64 (sigma_of radius * 3))).
  { apply Qceiling_resp_le.
    apply binary64_ge_of_ge; [reflexivity | apply binary64_3 | lra]. }
  exact H3.
Qed.

Lemma kLen_pos radius : 7 <= kLen_of radius.
Proof. unfold kLen_of. pose proof (kHalf_ge_3 radius). lia. Qed.

Lemma kernel_loop1_pure radius (xs : list Z) (d : typed_array) (acc : jsnum) :
  ta_kind d = Float32Array ->
  (forall i, i ∈ xs -> 0 <= i < Z.of_nat (length (ta_data d))) ->
  foldl (fun (p : typed_array * jsnum) i =>
           (ta_set p.1 i (Num (Math_exp (exp_arg radius i))),
            jadd p.2 (ta_get (ta_set p.1 i (Num (Math_exp (exp_arg radius i)))) i)))
        (d, acc) xs
  = (foldl (fun d i => ta_set d i (Num (Math_exp (exp_arg radius i)))) d xs,
     foldl (fun a i => jadd a (raw_weight radius i)) acc xs).
Proof.
  revert d acc. induction xs as [| i xs IH]; intros d acc Hk Hr; [done |].
  cbn [foldl fst snd]. rewrite IH.
  - f_equal. f_equal. f_equal.
    assert (0 <= i < Z.of_nat (length (ta_data d))) as Hi by (apply Hr; left).
    unfold ta_get. rewrite decide_True by lia.
    rewrite ta_set_lookup, decide_True by lia.
    rewrite Hk. reflexivity.
  - by rewrite ta_set_kind.
  - intros j Hj. rewrite ta_set_length. apply Hr. by right.
Qed.

Lemma kernel_data radius :
  let n := Z.to_nat (kLen_of radius) in
  let d1 := foldl (fun d i => ta_set d i (Num (Math_exp (exp_arg radius i))))
                  (zeros Float32Array n) (seqZ 0 (kLen_of radius)) in
  foldl (fun d i => ta_set d i (jdiv (ta_get d i) (kSum_of radius)))
        d1 (seqZ 0 (kLen_of radius))
  = TypedArray Float32Array (kernel_weights radius).
Proof.
  intros n d1.
  pose proof (kLen_pos radius) as Hn.
  assert (Hseq : seqZ 0 (kLen_of radius) = seqZ 0 (Z.of_nat n)).
  { unfold n. by rewrite Z2Nat.id by lia. }
  pose proof (fun j => seq_update_lookup
    (fun i _ => Num (Math_exp (exp_arg radius i))) n (zeros Float32Array n) j) as H1.
  cbn zeta in H1. rewrite <- Hseq in H1. fold d1 in H1.
  pose proof (fun j => seq_update_lookup
    (fun i old => jdiv old (kSum_of radius)) n d1 j) as H2.
  cbn zeta in H2. rewrite <- Hseq in H2.
  set (d2 := foldl _ d1 _) in *.
  destruct (H1 0%nat) as (Hk1 & Hl1 & _). destruct (H2 0%nat) as (Hk2 & Hl2 & _).
  destruct d2 as [k2 data2] eqn:Ed2. cbn [ta_kind ta_data] in *.
  f_equal; [by rewrite Hk2, Hk1 |].
  apply list_eq. intros j.
  destruct (H2 j) as (_ & _ & ->). destruct (H1 j) as (_ & _ & ->).
  unfold kernel_weights. rewrite list_lookup_fmap, Hseq.
  unfold zeros. cbn [ta_data ta_kind].
  destruct (decide (j < n)%nat) as [Hj | Hj].
  - rewrite lookup_replicate_2 by done. rewrite lookup_seqZ_lt by lia.
    cbn [fmap option_fmap option_map]. rewrite Hk1. cbn [ta_kind].
    rewrite Z.add_0_l. reflexivity.
  - rewrite (proj1 (lookup_replicate_None _ _ _)) by lia.
    rewrite lookup_seqZ_ge by lia. done.
Qed.

Lemma gaussKernel_run radius (st : heap) :
  gaussKernel radius st
  = (fresh (dom st),
     <[fresh (dom st) := TypedArray Float32Array (kernel_weights radius)]> st).
Proof.
  unfold gaussKernel. set (l := fresh (dom st)).
  erewrite bind_run; [| reflexivity]. fold l.
  change (replicate ?n (Num 0)) with (ta_data (zeros Float32Array n)).
  fold (kLen_of radius).
  set (n := Z.to_nat (kLen_of radius)).
  change (TypedArray Float32Array (ta_data (zeros Float32Array n)))
    with (zeros Float32Array n).
  erewrite bind_run.
  2:{ apply (forM_sim (fun t => <[l := t]> st)
        (fun i (p : typed_array * jsnum) =>
           (ta_set p.1 i (Num (Math_exp (exp_arg radius i))),
            jadd p.2 (ta_get (ta_set p.1 i (Num (Math_exp (exp_arg radius i)))) i)))).
      intros i t s _. cbn [fst snd].
      erewrite bind_run; [| apply store_run_insert].
      erewrite bind_run; [| apply load_run, lookup_insert_eq].
      reflexivity. }
  rewrite kernel_loop1_pure.
  2:{ done. }
  2:{ intros i Hi. apply elem_of_seqZ in Hi. unfold zeros. cbn [ta_data].
      rewrite length_replicate. unfold n. lia. }
  cbn [fst snd]. fold (kSum_of radius).
  erewrite bind_run.
  2:{ apply (forM_sim_unit (fun t => <[l := t]> st)
        (fun d i => ta_set d i (jdiv (ta_get d i) (kSum_of radius)))).
      intros i t _.
      erewrite bind_run; [| apply load_run, lookup_insert_eq].
      apply store_run_insert. }
  unfold ret. f_equal. f_equal. apply kernel_data.
Qed.

Lemma kernel_weights_length radius :
  length (kernel_weights radius) = Z.to_nat (kLen_of radius).
Proof. unfold kernel_weights. by rewrite length_fmap, length_seqZ. Qed.

Lemma fresh_lookup_None (st : heap) : st !! fresh (dom st) = None.
Proof. apply not_elem_of_dom. apply is_fresh. Qed.

Lemma fresh_ne (st : heap) l a : st !! l = Some a -> fresh (dom st) <> l.
Proof. intros E Heq. pose proof (fresh_lookup_None st) as Hf. congruence. Qed.

Lemma new_array_run k n (st : heap) :
  new_array k n st = (fresh (dom st), <[fresh (dom st) := zeros k n]> st).
Proof. reflexivity. Qed.

Lemma array_length_run l (st : heap) a :
  st !! l = Some a -> array_length l st = (length (ta_data a), st).
Proof. intros E. unfold array_length. by rewrite E. Qed.

Lemma separableGaussianBlur_run src w h radius (st : heap) (S : typed_array) :
  st !! src = Some S ->
  let K := TypedArray Float32Array (kernel_weights radius) in
  let kernel := fresh (dom st) in
  let st1 := <[kernel := K]> st in
  let n := length (ta_data S) in
  let tmp := fresh (dom st1) in
  let st2 := <[tmp := zeros Float32Array n]> st1 in
  let out := fresh (dom st2) in
  let T := hpass K S (kHalf_of radius) w h (zeros Float32Array n) in
  let O := vpass K T (kHalf_of radius) w h (zeros Uint8ClampedArray n) in
  separableGaussianBlur src w h radius st
  = (out, <[out := O]> (<[tmp := T]> st1)).
Proof.
  intros HS K kernel st1 n tmp st2 out T O.
  assert (Hks : kernel <> src) by (by eapply fresh_ne).
  assert (H1K : st1 !! kernel = Some K) by apply lookup_insert_eq.
  assert (H1S : st1 !! src = Some S) by (unfold st1; by rewrite lookup_insert_ne).
  assert (Htk : tmp <> kernel) by (by eapply fresh_ne).
  assert (Hts : tmp <> src) by (by eapply fresh_ne).
  assert (H2T : st2 !! tmp = Some (zeros Float32Array n)) by apply lookup_insert_eq.
  assert (Hot : out <> tmp) by (by eapply fresh_ne).
  assert (Hok : out <> kernel).
  { eapply fresh_ne. unfold st2. rewrite lookup_insert_ne by done. exact H1K. }
  assert (Hos : out <> src).
  { eapply fresh_ne. unfold st2. rewrite lookup_insert_ne by done. exact H1S. }
  unfold separableGaussianBlur.
  erewrite bind_run; [| apply gaussKernel_run].
  erewrite bind_run; [| apply array_length_run; exact H1S].
  erewrite bind_run; [| apply new_array_run].
  erewrite bind_run; [| apply new_array_run].
  fold K kernel st1 n tmp st2 out.
  erewrite bind_run.
  2:{ unfold st2. rewrite insert_insert_ne by done.
      apply (hpass_run kernel src tmp K S (<[out := zeros Uint8ClampedArray n]> st1)).
      - by rewrite lookup_insert_ne.
      - by rewrite lookup_insert_ne.
      - done.
      - done. }
  fold T.
  erewrite bind_run.
  2:{ rewrite insert_insert_ne by done.
      apply (vpass_run kernel tmp out K T (<[tmp := T]> st1)).
      - by rewrite lookup_insert_ne.
      - apply lookup_insert_eq.
      - done.
      - done. }
  reflexivity.
Qed.

Lemma set4_kind d oi v : ta_kind (set4 d oi v) = ta_kind d.
Proof. destruct v as [[[r g] b] a]. unfold set4. by rewrite !ta_set_kind. Qed.

Lemma set4_length d oi v : length (ta_data (set4 d oi v)) = length (ta_data d).
Proof. destruct v as [[[r g] b] a]. unfold set4. by rewrite !ta_set_length. Qed.

Lemma set4_lookup d oi v (j : nat) :
  ta_data (set4 d oi v) !! j
  = if decide (oi <= Z.of_nat j < oi + 4 /\ (j < length (ta_data d))%nat)
    then Some (coerce (ta_kind d) (chan (Z.of_nat j - oi) v))
    else ta_data d !! j.
Proof.
  destruct v as [[[r g] b] a]. unfold set4, chan.
  rewrite !ta_set_lookup, !ta_set_kind, !ta_set_length.
  repeat (destruct (decide _) as [? | ?]); try reflexivity; try lia.
  all: exfalso; intuition lia.
Qed.

Lemma foldl_touch {X} (step : typed_array -> X -> typed_array)
    (touched : X -> nat -> Prop) (P : nat -> jsnum -> Prop)
    (k : array_kind) (n : nat) (xs : list X) :
  (forall x j, touched x j \/ ~ touched x j) ->
  (forall d x, x ∈ xs -> ta_kind d = k -> length (ta_data d) = n ->
     ta_kind (step d x) = k /\ length (ta_data (step d x)) = n /\
     forall j,
       (touched x j -> (j < n)%nat ->
          exists v, ta_data (step d x) !! j = Some v /\ P j v) /\
       (~ touched x j -> ta_data (step d x) !! j = ta_data d !! j)) ->
  forall d, ta_kind d = k -> length (ta_data d) = n ->
    ta_kind (foldl step d xs) = k /\
    length (ta_data (foldl step d xs)) = n /\
    forall j,
      ((exists x, x ∈ xs /\ touched x j) -> (j < n)%nat ->
         exists v, ta_data (foldl step d xs) !! j = Some v /\ P j v) /\
      ((forall x, x ∈ xs -> ~ touched x j) ->
         ta_data (foldl step d xs) !! j = ta_data d !! j).
Proof.
  intros Hdec. induction xs as [| x xs IH] using rev_ind; intros Hstep d Hk Hn.
  - cbn. split; [done |]. split; [done |]. intros j. split; [| done].
    intros (x & Hx & _). by apply elem_of_nil in Hx.
  - rewrite foldl_app. cbn [foldl].
    destruct (IH (fun d y Hy => Hstep d y (proj2 (elem_of_app _ _ _) (or_introl Hy)))
                 d Hk Hn) as (IHk & IHn & IHj).
    destruct (Hstep (foldl step d xs) x) as (Sk & Sn & Sj);
      [apply elem_of_app; right; apply list_elem_of_singleton; done | done | done |].
    split; [done |]. split; [done |]. intros j.
    destruct (Sj j) as [St Su]. destruct (IHj j) as [It Iu]. split.
    + intros (y & Hy & Hty) Hj. destruct (Hdec x j) as [Hx | Hx]; [by apply St |].
      rewrite Su by done. apply It; [| done].
      exists y. split; [| done]. apply elem_of_app in Hy as [Hy | Hy]; [done |].
      apply list_elem_of_singleton in Hy. by subst.
    + intros Hno. rewrite Su.
      * apply Iu. intros y Hy. apply Hno. apply elem_of_app. by left.
      * apply Hno. apply elem_of_app. right. by apply list_elem_of_singleton.
Qed.

Lemma foldl_pair_row {A X Y} (g : X -> A -> Y -> A) (x : X) (ys : list Y) (d : A) :
  foldl (fun d (p : X * Y) => g p.1 d p.2) d (pair x <$> ys) = foldl (g x) d ys.
Proof. revert d. induction ys as [| y ys IH]; intros d; [done |]. cbn. apply IH. Qed.

Lemma foldl_nested {A X Y} (g : X -> A -> Y -> A) (xs : list X) (ys : list Y) (d : A) :
  foldl (fun d x => foldl (g x) d ys) d xs
  = foldl (fun d (p : X * Y) => g p.1 d p.2) d (xs ≫= fun x => pair x <$> ys).
Proof.
  revert d. induction xs as [| x xs IH]; intros d; [done |].
  cbn [foldl]. rewrite bind_cons, foldl_app, foldl_pair_row. apply IH.
Qed.

Lemma foldl_ext_in {A B} (f g : A -> B -> A) (l : list B) (a : A) :
  (forall a b, b ∈ l -> f a b = g a b) -> foldl f a l = foldl g a l.
Proof.
  revert a. induction l as [| b l IH]; intros a Hfg; [done |].
  cbn. rewrite Hfg by left. apply IH. intros a' b' Hb'. apply Hfg. by right.
Qed.

Lemma pixel_index_bound w h row col ch :
  0 <= row < h -> 0 <= col < w -> 0 <= ch < 4 ->
  0 <= (row * w + col) * 4 + ch < w * h * 4.
Proof. intros Hr Hc Hch. nia. Qed.

Lemma pixel_index_inj w row col ch row' col' ch' :
  0 <= col < w -> 0 <= col' < w -> 0 <= ch < 4 -> 0 <= ch' < 4 ->
  (row * w + col) * 4 + ch = (row' * w + col') * 4 + ch' ->
  row = row' /\ col = col' /\ ch = ch'.
Proof.
  intros Hc Hc' Hch Hch' E.
  assert (ch = ch') by lia. subst ch'.
  assert (E' : row * w + col = row' * w + col') by lia.
  assert (row = row') by nia. subst row'. lia.
Qed.

Lemma pass_lookup {X} (rc : X -> Z * Z) (val : Z -> Z -> jsnum * jsnum * jsnum * jsnum)
    (xs : list X) (d0 : typed_array) (w h : Z) :
  (forall x, x ∈ xs -> 0 <= (rc x).1 < h /\ 0 <= (rc x).2 < w) ->
  length (ta_data d0) = Z.to_nat (w * h * 4) ->
  let d' := foldl (fun d x => set4 d (((rc x).1 * w + (rc x).2) * 4)
                                   (val (rc x).1 (rc x).2)) d0 xs in
  ta_kind d' = ta_kind d0 /\
  length (ta_data d') = length (ta_data d0) /\
  forall x ch, x ∈ xs -> 0 <= ch < 4 ->
    ta_get d' (((rc x).1 * w + (rc x).2) * 4 + ch)
    = coerce (ta_kind d0) (chan ch (val (rc x).1 (rc x).2)).
Proof.
  intros Hin Hlen d'.
  pose (P := fun (j : nat) (v : jsnum) =>
    forall row col ch, 0 <= row < h -> 0 <= col < w -> 0 <= ch < 4 ->
      Z.of_nat j = (row * w + col) * 4 + ch ->
      v = coerce (ta_kind d0) (chan ch (val row col))).
  pose (touched := fun (x : X) (j : nat) =>
    ((rc x).1 * w + (rc x).2) * 4 <= Z.of_nat j < ((rc x).1 * w + (rc x).2) * 4 + 4).
  destruct (foldl_touch
    (fun d x => set4 d (((rc x).1 * w + (rc x).2) * 4) (val (rc x).1 (rc x).2))
    touched P (ta_kind d0) (length (ta_data d0)) xs) with (d := d0)
    as (Hk & Hl & Hj); [| | done | done |].
  - intros x j. unfold touched. lia.
  - intros d x Hx Hdk Hdl. rewrite set4_kind, set4_length.
    split; [done |]. split; [done |]. intros j. rewrite set4_lookup. split.
    + intros Ht Hjn. rewrite decide_True by (unfold touched in Ht; lia).
      eexists. split; [reflexivity |].
      intros row col ch Hr Hc Hch Ej. destruct (Hin x Hx) as [Hxr Hxc].
      unfold touched in Ht.
      destruct (pixel_index_inj w row col ch (rc x).1 (rc x).2
                  (Z.of_nat j - ((rc x).1 * w + (rc x).2) * 4))
        as (-> & -> & ->); [lia .. |].
      by rewrite Hdk.
    + intros Ht. rewrite decide_False; [done |]. unfold touched in Ht. lia.
  - fold d' in Hk, Hl, Hj. split; [done |]. split; [done |].
    intros x ch Hx Hch. destruct (Hin x Hx) as [Hxr Hxc].
    pose proof (pixel_index_bound w h _ _ ch Hxr Hxc Hch) as Hb.
    set (i := ((rc x).1 * w + (rc x).2) * 4 + ch) in *.
    destruct (Hj (Z.to_nat i)) as [Ht _].
    destruct Ht as (v & Ev & Pv).
    + exists x. split; [done |]. unfold touched. lia.
    + lia.
    + unfold ta_get. rewrite decide_True by lia. rewrite Ev. cbn.
      apply Pv; try done. lia.
Qed.

Lemma taps_chan (K S : typed_array) kHalf idx_of ks acc ch :
  0 <= ch < 4 ->
  chan ch (foldl (tap_step K S kHalf idx_of) acc ks)
  = foldl (fun a k => jadd a (jmul (ta_get S (idx_of k + ch)) (ta_get K (k + kHalf))))
          (chan ch acc) ks.
Proof.
  intros Hch. revert acc. induction ks as [| k ks IH]; intros acc; [done |].
  cbn [foldl]. rewrite IH. f_equal.
  destruct acc as [[[r g] b] a]. unfold tap_step, chan.
  repeat (destruct (decide _) as [-> | ?]); try reflexivity; try lia.
  - by rewrite Z.add_0_r.
  - replace ch with 3 by lia. reflexivity.
Qed.

Lemma elem_of_grid (a b : Z) (p : Z * Z) :
  p ∈ (seqZ 0 a ≫= fun x => pair x <$> seqZ 0 b) <-> 0 <= p.1 < a /\ 0 <= p.2 < b.
Proof.
  rewrite list_elem_of_bind. split.
  - intros (x & Hp & Hx). apply list_elem_of_fmap in Hp as (y & -> & Hy).
    apply elem_of_seqZ in Hx, Hy. cbn. lia.
  - intros [H1 H2]. exists p.1. split.
    + apply list_elem_of_fmap. exists p.2. split; [by destruct p |].
      apply elem_of_seqZ. lia.
    + apply elem_of_seqZ. lia.
Qed.

Lemma chan_zero ch : chan ch (Num 0, Num 0, Num 0, Num 0) = Num 0.
Proof. unfold chan. repeat case_decide; done. Qed.

Lemma hpass_lookup K S kHalf w h d0 :
  length (ta_data d0) = Z.to_nat (w * h * 4) ->
  ta_kind (hpass K S kHalf w h d0) = ta_kind d0 /\
  length (ta_data (hpass K S kHalf w h d0)) = length (ta_data d0) /\
  forall row col ch, 0 <= row < h -> 0 <= col < w -> 0 <= ch < 4 ->
    ta_get (hpass K S kHalf w h d0) ((row * w + col) * 4 + ch)
    = coerce (ta_kind d0) (spec_horizontal K S kHalf w row col ch).
Proof.
  intros Hlen. unfold hpass. rewrite foldl_nested.
  destruct (pass_lookup (fun p : Z * Z => p)
              (fun row col => taps K S kHalf (h_idx w row col))
              (seqZ 0 h ≫= fun x => pair x <$> seqZ 0 w) d0 w h)
    as (Hk & Hl & Hv); [| done |].
  { intros p Hp. by apply elem_of_grid in Hp. }
  split; [exact Hk |]. split; [exact Hl |].
  intros row col ch Hr Hc Hch.
  specialize (Hv (row, col) ch). cbn [fst snd] in Hv.
  unfold hpass_px. rewrite Hv; [| by apply elem_of_grid | done].
  f_equal. unfold taps. rewrite taps_chan, chan_zero by done.
  unfold spec_horizontal, convolve_at. apply foldl_ext_in.
  intros a k _. unfold h_idx, clamp_to.
  replace (Z.min (w - 1) (Z.max 0 (col + k))) with (Z.max 0 (Z.min (w - 1) (col + k))) by lia.
  reflexivity.
Qed.

Lemma vpass_lookup K T kHalf w h d0 :
  length (ta_data d0) = Z.to_nat (w * h * 4) ->
  ta_kind (vpass K T kHalf w h d0) = ta_kind d0 /\
  length (ta_data (vpass K T kHalf w h d0)) = length (ta_data d0) /\
  forall row col ch, 0 <= row < h -> 0 <= col < w -> 0 <= ch < 4 ->
    ta_get (vpass K T kHalf w h d0) ((row * w + col) * 4 + ch)
    = coerce (ta_kind d0) (spec_vertical K T kHalf w h row col ch).
Proof.
  intros Hlen. unfold vpass. rewrite foldl_nested.
  destruct (pass_lookup (fun p : Z * Z => (p.2, p.1))
              (fun row col => taps K T kHalf (v_idx w h row col))
              (seqZ 0 w ≫= fun x => pair x <$> seqZ 0 h) d0 w h)
    as (Hk & Hl & Hv); [| done |].
  { intros p Hp. apply elem_of_grid in Hp. cbn. lia. }
  split; [exact Hk |]. split; [exact Hl |].
  intros row col ch Hr Hc Hch.
  specialize (Hv (col, row) ch). cbn [fst snd] in Hv.
  unfold vpass_px. rewrite Hv; [| by apply elem_of_grid | done].
  f_equal. unfold taps. rewrite taps_chan, chan_zero by done.
  unfold spec_vertical, convolve_at. apply foldl_ext_in.
  intros a k _. unfold v_idx, clamp_to.
  replace (Z.min (h - 1) (Z.max 0 (row + k))) with (Z.max 0 (Z.min (h - 1) (row + k))) by lia.
  reflexivity.
Qed.

(** Lengths are kept whatever the dimensions are. *)
Lemma foldl_set4_shape {X} (f : X -> Z) (v : X -> jsnum * jsnum * jsnum * jsnum)
    (xs : list X) (d : typed_array) :
  ta_kind (foldl (fun d x => set4 d (f x) (v x)) d xs) = ta_kind d /\
  length (ta_data (foldl (fun d x => set4 d (f x) (v x)) d xs)) = length (ta_data d).
Proof.
  revert d. induction xs as [| x xs IH]; intros d; [done |].
  cbn [foldl]. destruct (IH (set4 d (f x) (v x))) as [-> ->].
  by rewrite set4_kind, set4_length.
Qed.

Lemma hpass_shape K S kHalf w h d0 :
  ta_kind (hpass K S kHalf w h d0) = ta_kind d0 /\
  length (ta_data (hpass K S kHalf w h d0)) = length (ta_data d0).
Proof.
  unfold hpass. rewrite foldl_nested.
  apply (foldl_set4_shape (fun p : Z * Z => (p.1 * w + p.2) * 4)
           (fun p => taps K S kHalf (h_idx w p.1 p.2))).
Qed.

Lemma vpass_shape K T kHalf w h d0 :
  ta_kind (vpass K T kHalf w h d0) = ta_kind d0 /\
  length (ta_data (vpass K T kHalf w h d0)) = length (ta_data d0).
Proof.
  unfold vpass. rewrite foldl_nested.
  apply (foldl_set4_shape (fun p : Z * Z => (p.2 * w + p.1) * 4)
           (fun p => taps K T kHalf (v_idx w h p.2 p.1))).
Qed.

Lemma Qsum_acc f xs a : (foldl (fun a i => a + f i) a xs == a + Qsum f xs)%Q.
Proof.
  unfold Qsum. revert a. induction xs as [| x xs IH]; intros a; cbn [foldl].
  - lra.
  - rewrite IH. rewrite (IH (0 + f x)%Q). lra.
Qed.

Lemma Qsum_cons f x xs : (Qsum f (x :: xs) == f x + Qsum f xs)%Q.
Proof. unfold Qsum at 1. cbn [foldl]. rewrite Qsum_acc. lra. Qed.

Lemma Qsum_le f g xs :
  (forall i, i ∈ xs -> f i <= g i)%Q -> (Qsum f xs <= Qsum g xs)%Q.
Proof.
  induction xs as [| x xs IH]; intros Hfg; [unfold Qsum; cbn; lra |].
  rewrite !Qsum_cons.
  assert (f x <= g x)%Q by (apply Hfg; left).
  assert (Qsum f xs <= Qsum g xs)%Q by (apply IH; intros i Hi; apply Hfg; by right).
  lra.
Qed.

Lemma Qsum_scale c f xs : (Qsum (fun i => c * f i) xs == c * Qsum f xs)%Q.
Proof.
  induction xs as [| x xs IH]; [unfold Qsum; cbn; lra |].
  rewrite !Qsum_cons, IH. lra.
Qed.

Lemma Qsum_ext f g xs : (forall i, f i == g i)%Q -> (Qsum f xs == Qsum g xs)%Q.
Proof.
  intros Hfg. induction xs as [| x xs IH]; [reflexivity |].
  rewrite !Qsum_cons, IH, (Hfg x). reflexivity.
Qed.

Lemma Qsum_nonneg f xs : (forall i, i ∈ xs -> 0 <= f i)%Q -> (0 <= Qsum f xs)%Q.
Proof.
  induction xs as [| x xs IH]; intros Hf; [unfold Qsum; cbn; lra |].
  rewrite Qsum_cons.
  assert (0 <= f x)%Q by (apply Hf; left).
  assert (0 <= Qsum f xs)%Q by (apply IH; intros i Hi; apply Hf; by right).
  lra.
Qed.

Lemma Qsum_pos f x xs : (forall i, i ∈ x :: xs -> 0 < f i)%Q -> (0 < Qsum f (x :: xs))%Q.
Proof.
  intros Hf. rewrite Qsum_cons.
  assert (0 < f x)%Q by (apply Hf; left).
  assert (0 <= Qsum f xs)%Q.
  { apply Qsum_nonneg. intros i Hi. apply Qlt_le_weak, Hf. by right. }
  lra.
Qed.

Lemma Qsum_fmap f (g : Z -> Z) xs : Qsum f (g <$> xs) = Qsum (fun k => f (g k)) xs.
Proof.
  unfold Qsum. generalize 0%Q. induction xs as [| x xs IH]; intros a; [done |].
  cbn. apply IH.
Qed.

Lemma Qsum_shift f (m a n : Z) :
  Qsum (fun k => f (k + m)) (seqZ a n) = Qsum f (seqZ (a + m) n).
Proof.
  rewrite (Z.add_comm a m), <- (fmap_add_seqZ m a n), Qsum_fmap.
  unfold Qsum. apply foldl_ext_in. intros acc k _. by rewrite (Z.add_comm m k).
Qed.

(** A [jadd] fold over numbers is a number. *)
Lemma jadd_fold_Num (f : Z -> Q) xs a :
  foldl (fun acc i => jadd acc (Num (f i))) (Num a) xs
  = Num (foldl (fun a i => a + f i)%Q a xs).
Proof. revert a. induction xs as [| x xs IH]; intros a; [done |]. cbn. apply IH. Qed.

Lemma raw_weight_Num radius i : raw_weight radius i = Num (rw radius i).
Proof. reflexivity. Qed.

Lemma kSum_of_Num radius : kSum_of radius = Num (ksum radius).
Proof. unfold kSum_of. apply (jadd_fold_Num (rw radius)). Qed.

(** Symmetry needs nothing from the primitives: taps [i] and [kLen-1-i]
    pass the very same argument to [Math.exp]. *)
Lemma exp_arg_sym radius i :
  exp_arg radius (kLen_of radius - 1 - i) = exp_arg radius i.
Proof.
  unfold exp_arg, kLen_of. f_equal. f_equal.
  unfold Qmult, inject_Z. cbn [Qnum Qden]. f_equal. ring.
Qed.

Lemma kernel_weights_lookup radius (i : nat) :
  (Z.of_nat i < kLen_of radius) ->
  kernel_weights radius !! i
  = Some (coerce Float32Array (jdiv (raw_weight radius (Z.of_nat i)) (kSum_of radius))).
Proof.
  intros Hi. unfold kernel_weights. rewrite list_lookup_fmap, lookup_seqZ_lt by done.
  cbn. by rewrite Z.add_0_l.
Qed.

Lemma kernel_weights_sym radius (i : nat) :
  (i < length (kernel_weights radius))%nat ->
  kernel_weights radius !! i
  = kernel_weights radius !! (length (kernel_weights radius) - 1 - i)%nat.
Proof.
  rewrite kernel_weights_length. intros Hi.
  rewrite !kernel_weights_lookup by lia.
  rewrite !raw_weight_Num. unfold rw.
  replace (Z.of_nat (Z.to_nat (kLen_of radius) - 1 - i)) with (kLen_of radius - 1 - Z.of_nat i) by lia.
  by rewrite exp_arg_sym.
Qed.

Hypothesis exp_pos : forall x, (0 < Math_exp x)%Q.
Hypothesis fround_err : forall x, (Qabs (Math_fround x - x) <= Qabs x * eps32)%Q.

Lemma fround_bounds x :
  (0 <= x -> x * (1 - eps32) <= Math_fround x /\ Math_fround x <= x * (1 + eps32))%Q.
Proof.
  intros Hx. pose proof (fround_err x) as He.
  rewrite (Qabs_pos x Hx) in He. apply Qabs_Qle_condition in He.
  destruct He as [H1 H2]. split; lra.
Qed.

Lemma fround_pos x : (0 < x -> 0 < Math_fround x)%Q.
Proof.
  intros Hx. destruct (fround_bounds x) as [H1 _]; [lra |].
  assert (0 < x * (1 - eps32))%Q; [| lra].
  apply Qmult_lt_0_compat; [done | reflexivity].
Qed.

Lemma fround_nonneg x : (0 <= x -> 0 <= Math_fround x)%Q.
Proof.
  intros Hx. destruct (fround_bounds x) as [H1 _]; [lra |].
  assert (0 <= x * (1 - eps32))%Q; [| lra].
  apply Qmult_le_0_compat; [done | discriminate].
Qed.

Lemma rw_pos radius i : (0 < rw radius i)%Q.
Proof. apply fround_pos, exp_pos. Qed.

Lemma ksum_pos radius : (0 < ksum radius)%Q.
Proof.
  unfold ksum. pose proof (kLen_pos radius) as Hn.
  destruct (seqZ 0 (kLen_of radius)) as [| x xs] eqn:E.
  - apply (f_equal length) in E. rewrite length_seqZ in E. cbn in E. lia.
  - apply Qsum_pos. intros i _. apply rw_pos.
Qed.

Lemma kernel_weights_Num radius :
  kernel_weights radius = (fun i => Num (nw radius i)) <$> seqZ 0 (kLen_of radius).
Proof.
  unfold kernel_weights. apply list_fmap_ext. intros _ i _.
  rewrite raw_weight_Num, kSum_of_Num. unfold jdiv.
  destruct (Qeq_bool (ksum radius) 0) eqn:E; [| reflexivity].
  apply Qeq_bool_eq in E. pose proof (ksum_pos radius). lra.
Qed.

Lemma ratio_nonneg radius i : (0 <= rw radius i / ksum radius)%Q.
Proof.
  apply Qle_shift_div_l; [apply ksum_pos |].
  pose proof (rw_pos radius i). lra.
Qed.

Lemma nw_nonneg radius i : (0 <= nw radius i)%Q.
Proof. apply fround_nonneg, ratio_nonneg. Qed.

Lemma ratio_sum radius :
  (Qsum (fun i => rw radius i / ksum radius) (seqZ 0 (kLen_of radius)) == 1)%Q.
Proof.
  transitivity (/ ksum radius * Qsum (rw radius) (seqZ 0 (kLen_of radius)))%Q.
  - rewrite <- Qsum_scale. apply Qsum_ext. intros i. unfold Qdiv. ring.
  - fold (ksum radius). rewrite Qmult_comm. apply Qmult_inv_r.
    pose proof (ksum_pos radius). lra.
Qed.

Lemma nw_sum radius :
  (1 - eps32 <= Qsum (nw radius) (seqZ 0 (kLen_of radius)) /\
   Qsum (nw radius) (seqZ 0 (kLen_of radius)) <= 1 + eps32)%Q.
Proof.
  pose proof (ratio_sum radius) as Hr. split.
  - apply Qle_trans with (Qsum (fun i => (1 - eps32) * (rw radius i / ksum radius))
                       (seqZ 0 (kLen_of radius)))%Q.
    + rewrite Qsum_scale, Hr. lra.
    + apply Qsum_le. intros i _.
      destruct (fround_bounds (rw radius i / ksum radius)) as [H1 _];
        [apply ratio_nonneg |].
      unfold nw. lra.
  - apply Qle_trans with (Qsum (fun i => (1 + eps32) * (rw radius i / ksum radius))
                       (seqZ 0 (kLen_of radius)))%Q.
    + apply Qsum_le. intros i _.
      destruct (fround_bounds (rw radius i / ksum radius)) as [_ H2];
        [apply ratio_nonneg |].
      unfold nw. lra.
    + rewrite Qsum_scale, Hr. lra.
Qed.

Lemma floor_near (q : Q) (c : Z) :
  (inject_Z c - (1 # 2) < q)%Q -> (q < inject_Z c + (1 # 2))%Q ->
  Qfloor q = c \/ Qfloor q = c - 1.
Proof.
  intros Hlo Hhi.
  pose proof (Qfloor_le q) as Hf1. pose proof (Qlt_floor q) as Hf2.
  rewrite inject_Z_succ in Hf2.
  destruct (Z_lt_le_dec c (Qfloor q)) as [Hgt | Hle].
  - exfalso. assert (Hc : c + 1 <= Qfloor q) by lia.
    apply inject_Z_le_iff in Hc. rewrite inject_Z_succ in Hc. lra.
  - destruct (Z_lt_le_dec (Qfloor q) (c - 1)) as [Hlt | Hge]; [| lia].
    exfalso. assert (Hc : Qfloor q + 1 + 1 <= c) by lia.
    apply inject_Z_le_iff in Hc. rewrite !inject_Z_succ in Hc. lra.
Qed.

Lemma round_half_even_near (q : Q) (c : Z) :
  (inject_Z c - (1 # 2) < q)%Q -> (q < inject_Z c + (1 # 2))%Q ->
  round_half_even q = c.
Proof.
  intros Hlo Hhi. unfold round_half_even.
  destruct (floor_near q c Hlo Hhi) as [-> | ->].
  - pose proof (proj1 (Qlt_alt _ _) Hhi) as E. by rewrite E.
  - assert (Hgt : (inject_Z (c - 1) + (1 # 2) < q)%Q).
    { replace c with (c - 1 + 1) in Hlo by lia. rewrite inject_Z_succ in Hlo. lra. }
    pose proof (proj1 (Qgt_alt _ _) Hgt) as E. rewrite E. lia.
Qed.

Lemma clamp_bounds (q : Q) : (0 <= Qmin (Qmax q 0) 255 <= 255)%Q.
Proof.
  split.
  - apply Q.min_glb; [apply Q.le_max_r | discriminate].
  - apply Q.le_min_r.
Qed.

Lemma ToUint8Clamp_near (q : Q) (c : Z) :
  0 <= c <= 255 ->
  (inject_Z c - (1 # 2) < q)%Q -> (q < inject_Z c + (1 # 2))%Q ->
  ToUint8Clamp (Num q) = c.
Proof.
  intros [Hc0 Hc1] Hlo Hhi. unfold ToUint8Clamp.
  apply inject_Z_le_iff in Hc0, Hc1.
  change (inject_Z 0) with 0%Q in Hc0. change (inject_Z 255) with 255%Q in Hc1.
  apply round_half_even_near.
  - destruct (Q.min_spec (Qmax q 0) 255) as [[_ ->] | [_ ->]];
      destruct (Q.max_spec q 0) as [[? E] | [? E]]; try rewrite E; lra.
  - destruct (Q.min_spec (Qmax q 0) 255) as [[? ->] | [? ->]];
      destruct (Q.max_spec q 0) as [[? E] | [? E]]; try rewrite E in *; lra.
Qed.

Lemma round_half_even_range (q : Q) :
  (0 <= q <= 255)%Q -> 0 <= round_half_even q <= 255.
Proof.
  intros [H0 H1]. unfold round_half_even.
  pose proof (Qfloor_le q) as Hf1. pose proof (Qlt_floor q) as Hf2.
  rewrite inject_Z_succ in Hf2.
  assert (Hf0 : 0 <= Qfloor q).
  { change 0 with (Qfloor 0). by apply Qfloor_resp_le. }
  assert (Hf255 : Qfloor q <= 255).
  { change 255 with (Qfloor 255). by apply Qfloor_resp_le. }
  assert (Hup : (inject_Z (Qfloor q) + (1 # 2) <= q)%Q -> Qfloor q + 1 <= 255).
  { intros Hh. destruct (Z_lt_le_dec (Qfloor q) 255) as [? | Hge]; [lia |].
    exfalso. apply inject_Z_le_iff in Hge. change (inject_Z 255) with 255%Q in Hge. lra. }
  destruct (q ?= inject_Z (Qfloor q) + (1 # 2))%Q eqn:E.
  - apply (proj2 (Qeq_alt _ _)) in E. destruct (Z.even (Qfloor q)); [lia |].
    split; [lia |]. apply Hup. lra.
  - lia.
  - apply (proj2 (Qgt_alt _ _)) in E. split; [lia |]. apply Hup. lra.
Qed.

Lemma ToUint8Clamp_range v : 0 <= ToUint8Clamp v <= 255.
Proof.
  destruct v as [q |]; [| cbn; lia].
  apply round_half_even_range, clamp_bounds.
Qed.

Lemma Qmul_mono_l (a b b' : Q) : (0 <= a -> b <= b' -> a * b <= a * b')%Q.
Proof. intros Ha Hb. nra. Qed.

Lemma round_trip_bound (c W hs f vs : Q) :
  (0 <= c -> c <= 255 -> 1 - eps32 <= W -> W <= 1 + eps32 ->
   hs == c * W -> hs * (1 - eps32) <= f -> f <= hs * (1 + eps32) ->
   vs == f * W ->
   c - (1 # 2) < vs /\ vs < c + (1 # 2))%Q.
Proof.
  intros Hc0 Hc1 HW0 HW1 Ehs Hf0 Hf1 Evs.
  unfold eps32 in *.
  assert (Hhs0 : (c * (1 - (1 # 16777216)) <= hs)%Q)
    by (rewrite Ehs; apply Qmul_mono_l; lra).
  assert (Hhs1 : (hs <= c * (1 + (1 # 16777216)))%Q)
    by (rewrite Ehs; apply Qmul_mono_l; lra).
  assert (Hhsn : (0 <= hs)%Q) by nra.
  assert (Hfn : (0 <= f)%Q) by nra.
  assert (Hf0' : (c * (1 - (1 # 16777216)) * (1 - (1 # 16777216)) <= f)%Q) by nra.
  assert (Hf1' : (f <= c * (1 + (1 # 16777216)) * (1 + (1 # 16777216)))%Q) by nra.
  assert (Hv0 : (f * (1 - (1 # 16777216)) <= vs)%Q)
    by (rewrite Evs; apply Qmul_mono_l; lra).
  assert (Hv1 : (vs <= f * (1 + (1 # 16777216)))%Q)
    by (rewrite Evs; apply Qmul_mono_l; lra).
  split; nra.
Qed.

Lemma concat_replicate_length {A} (m : nat) (l : list A) :
  length (concat (replicate m l)) = (m * length l)%nat.
Proof. induction m as [| m IH]; [done |]. cbn. rewrite length_app, IH. done. Qed.

Lemma concat_replicate_lookup {A} (m : nat) (l : list A) (j : nat) :
  (j < m * length l)%nat ->
  concat (replicate m l) !! j = l !! (j mod length l)%nat.
Proof.
  revert j. induction m as [| m IH]; intros j Hj; [cbn in Hj; lia |].
  cbn [replicate concat]. destruct (decide (j < length l)%nat) as [Hlt | Hge].
  - rewrite lookup_app_l by done. by rewrite Nat.mod_small.
  - rewrite lookup_app_r by lia. rewrite IH by (cbn in Hj; lia).
    f_equal. replace j with ((j - length l) + 1 * length l)%nat at 2 by lia.
    by rewrite Nat.Div0.mod_add.
Qed.

Lemma uniform_buffer_length w h color :
  length (uniform_buffer w h color) = Z.to_nat (w * h * 4).
Proof.
  unfold uniform_buffer. rewrite concat_replicate_length.
  destruct color as [[[r g] b] a]. cbn [pixel_bytes length]. lia.
Qed.

Lemma uniform_buffer_lookup w h color (j : nat) :
  (j < Z.to_nat (w * h * 4))%nat ->
  uniform_buffer w h color !! j
  = Some (Num (inject_Z (chanZ (Z.of_nat j mod 4) color))).
Proof.
  intros Hj. unfold uniform_buffer.
  destruct color as [[[r g] b] a].
  rewrite concat_replicate_lookup by (cbn [pixel_bytes length]; lia).
  cbn [pixel_bytes length].
  assert (Hm : Z.of_nat (j mod 4) = Z.of_nat j mod 4) by (rewrite Nat2Z.inj_mod; done).
  pose proof (Nat.mod_upper_bound j 4) as Hb.
  destruct (j mod 4)%nat as [| [| [| [| n]]]] eqn:E; try lia;
    rewrite <- Hm; reflexivity.
Qed.

Lemma kernel_get radius k :
  - kHalf_of radius <= k <= kHalf_of radius ->
  ta_get (TypedArray Float32Array (kernel_weights radius)) (k + kHalf_of radius)
  = Num (nw radius (k + kHalf_of radius)).
Proof.
  intros Hk. unfold ta_get. rewrite decide_True by lia. cbn [ta_data].
  rewrite kernel_weights_Num.
  rewrite list_lookup_fmap, lookup_seqZ_lt by (unfold kLen_of; lia).
  cbn. rewrite Z2Nat.id by lia. by rewrite Z.add_0_l.
Qed.

Lemma convolve_const radius sample centre (c : Q) :
  (forall k, - kHalf_of radius <= k <= kHalf_of radius -> sample (centre + k) = Num c) ->
  convolve_at (TypedArray Float32Array (kernel_weights radius)) (kHalf_of radius)
              sample centre
  = Num (conv_const radius c).
Proof.
  intros Hs. unfold convolve_at, conv_const, Qsum.
  rewrite <- (jadd_fold_Num (fun k => c * nw radius (k + kHalf_of radius))%Q).
  apply foldl_ext_in. intros acc k Hk. apply elem_of_seqZ in Hk.
  rewrite Hs, kernel_get by lia. reflexivity.
Qed.

Lemma conv_const_eq radius c :
  (conv_const radius c == c * Qsum (nw radius) (seqZ 0 (kLen_of radius)))%Q.
Proof.
  unfold conv_const. rewrite Qsum_scale.
  rewrite (Qsum_shift (nw radius)). rewrite Z.add_opp_diag_l. reflexivity.
Qed.

Lemma conv_const_round_trip radius (c : Z) :
  is_byte c ->
  ToUint8Clamp (Num (conv_const radius (Math_fround (conv_const radius (inject_Z c)))))
  = c.
Proof.
  intros Hc. pose proof (nw_sum radius) as [HW0 HW1].
  assert (Hc0 : (0 <= inject_Z c)%Q).
  { change 0%Q with (inject_Z 0). rewrite <- Zle_Qle. apply Hc. }
  assert (Hc1 : (inject_Z c <= 255)%Q).
  { change 255%Q with (inject_Z 255). rewrite <- Zle_Qle. apply Hc. }
  pose proof (conv_const_eq radius (inject_Z c)) as Ehs.
  assert (Hhs : (0 <= conv_const radius (inject_Z c))%Q).
  { rewrite Ehs. apply Qmult_le_0_compat; [done |]. unfold eps32 in HW0. lra. }
  destruct (fround_bounds _ Hhs) as [Hf0 Hf1].
  destruct (round_trip_bound _ _ _ _ _ Hc0 Hc1 HW0 HW1 Ehs Hf0 Hf1
              (conv_const_eq radius _)) as [Hlo Hhi].
  by apply ToUint8Clamp_near.
Qed.

Lemma lookup_of_get (d : typed_array) (j : nat) :
  (j < length (ta_data d))%nat -> ta_data d !! j = Some (ta_get d (Z.of_nat j)).
Proof.
  intros Hj. rewrite ta_get_nat.
  destruct (lookup_lt_is_Some_2 _ _ Hj) as [x ->]. done.
Qed.

Lemma chanZ_byte ch color : byte_color color -> is_byte (chanZ ch color).
Proof.
  destruct color as [[[r g] b] a]. intros (Hr & Hg & Hb & Ha).
  unfold chanZ. repeat case_decide; done.
Qed.

Lemma uniform_get w h color kind row col ch :
  0 <= row < h -> 0 <= col < w -> 0 <= ch < 4 ->
  ta_get (TypedArray kind (uniform_buffer w h color)) ((row * w + col) * 4 + ch)
  = Num (inject_Z (chanZ ch color)).
Proof.
  intros Hr Hc Hch. pose proof (pixel_index_bound w h row col ch Hr Hc Hch) as Hb.
  unfold ta_get. rewrite decide_True by lia. cbn [ta_data].
  rewrite uniform_buffer_lookup by lia. cbn.
  rewrite Z2Nat.id by lia.
  replace (((row * w + col) * 4 + ch) mod 4) with ch; [done |].
  rewrite Z.add_comm, Z.mod_add by lia. by rewrite Z.mod_small.
Qed.

Lemma clamp_to_range n i : 0 < n -> 0 <= clamp_to 0 (n - 1) i < n.
Proof. unfold clamp_to. lia. Qed.

(** A channel that is constant over the image stays so through both
    passes. *)
Lemma const_horizontal radius S w h row col ch c :
  channel_is S w h ch c ->
  0 <= row < h -> 0 <= col < w ->
  spec_horizontal (TypedArray Float32Array (kernel_weights radius)) S
                  (kHalf_of radius) w row col ch
  = Num (conv_const radius (inject_Z c)).
Proof.
  intros HS Hr Hc. unfold spec_horizontal. apply convolve_const.
  intros k _. apply HS; [done | apply clamp_to_range; lia].
Qed.

Lemma const_vertical radius w h (x : Q) T row col ch :
  (forall row col, 0 <= row < h -> 0 <= col < w ->
     ta_get T ((row * w + col) * 4 + ch) = Num x) ->
  0 <= row < h -> 0 <= col < w ->
  spec_vertical (TypedArray Float32Array (kernel_weights radius)) T
                (kHalf_of radius) w h row col ch
  = Num (conv_const radius x).
Proof.
  intros HT Hr Hc. unfold spec_vertical. apply convolve_const.
  intros k _. apply HT; [apply clamp_to_range; lia | done].
Qed.

Lemma blur_data_spec S w h radius :
  length (ta_data S) = Z.to_nat (w * h * 4) ->
  let K := TypedArray Float32Array (kernel_weights radius) in
  let T := hpass K S (kHalf_of radius) w h (zeros Float32Array (length (ta_data S))) in
  ta_kind (blur_data S w h radius) = Uint8ClampedArray /\
  length (ta_data (blur_data S w h radius)) = Z.to_nat (w * h * 4) /\
  forall row col ch, 0 <= row < h -> 0 <= col < w -> 0 <= ch < 4 ->
    ta_get T ((row * w + col) * 4 + ch)
    = coerce Float32Array (spec_horizontal K S (kHalf_of radius) w row col ch) /\
    ta_get (blur_data S w h radius) ((row * w + col) * 4 + ch)
    = coerce Uint8ClampedArray (spec_vertical K T (kHalf_of radius) w h row col ch).
Proof.
  intros Hlen K T.
  assert (Hz : forall k, length (ta_data (zeros k (length (ta_data S))))
                         = Z.to_nat (w * h * 4)).
  { intros k. unfold zeros. cbn [ta_data]. by rewrite length_replicate. }
  destruct (hpass_lookup K S (kHalf_of radius) w h _ (Hz Float32Array)) as (_ & _ & HT).
  destruct (vpass_lookup K T (kHalf_of radius) w h _ (Hz Uint8ClampedArray))
    as (HOk & HOl & HO).
  split; [exact HOk |]. split; [by rewrite <- (Hz Uint8ClampedArray) |].
  intros row col ch Hr Hc Hch. split; [by apply HT | by apply HO].
Qed.

Lemma blur_channel_const S w h radius ch (c : Z) :
  length (ta_data S) = Z.to_nat (w * h * 4) ->
  0 <= ch < 4 -> is_byte c ->
  channel_is S w h ch c ->
  channel_is (blur_data S w h radius) w h ch c.
Proof.
  intros Hlen Hch Hc HS row col Hr Hcol.
  destruct (blur_data_spec S w h radius Hlen) as (_ & _ & Hv). cbn zeta in Hv.
  destruct (Hv row col ch Hr Hcol Hch) as [_ ->].
  rewrite (const_vertical radius w h
             (Math_fround (conv_const radius (inject_Z c)))).
  - cbn [coerce]. by rewrite conv_const_round_trip.
  - intros row' col' Hr' Hc'. destruct (Hv row' col' ch Hr' Hc' Hch) as [-> _].
    by rewrite (const_horizontal radius S w h row' col' ch c).
  - done.
  - done.
Qed.

Lemma pixel_index_decompose w (j : Z) :
  0 < w -> 0 <= j ->
  j = ((j / 4 / w) * w + (j / 4) mod w) * 4 + j mod 4 /\
  0 <= (j / 4) mod w < w /\ 0 <= j mod 4 < 4 /\ 0 <= j / 4 / w.
Proof.
  intros Hw Hj.
  pose proof (Z.div_mod j 4 ltac:(lia)) as E4.
  pose proof (Z.div_mod (j / 4) w ltac:(lia)) as Ew.
  pose proof (Z.mod_pos_bound j 4 ltac:(lia)).
  pose proof (Z.mod_pos_bound (j / 4) w Hw).
  assert (0 <= j / 4) by (apply Z.div_pos; lia).
  assert (0 <= j / 4 / w) by (apply Z.div_pos; lia).
  repeat split; try lia.
Qed.

Lemma blur_data_uniform w h radius kind color :
  0 <= w -> 0 <= h -> byte_color color ->
  blur_data (TypedArray kind (uniform_buffer w h color)) w h radius
  = TypedArray Uint8ClampedArray (uniform_buffer w h color).
Proof.
  intros Hw Hh Hcol.
  set (S := TypedArray kind (uniform_buffer w h color)).
  assert (Hlen : length (ta_data S) = Z.to_nat (w * h * 4))
    by apply uniform_buffer_length.
  destruct (blur_data_spec S w h radius Hlen) as (HOk & HOl & _).
  assert (Hch : forall ch, 0 <= ch < 4 ->
            channel_is (blur_data S w h radius) w h ch (chanZ ch color)).
  { intros ch Hch. apply blur_channel_const; [done | done | by apply chanZ_byte |].
    intros row col Hr Hc. by apply uniform_get. }
  destruct (blur_data S w h radius) as [ko dO] eqn:EO.
  cbn [ta_kind ta_data] in HOk, HOl. f_equal; [done |].
  apply list_eq. intros j.
  destruct (decide (j < Z.to_nat (w * h * 4))%nat) as [Hj | Hj].
  - assert (Hw0 : 0 < w) by nia.
    destruct (pixel_index_decompose w (Z.of_nat j) Hw0 ltac:(lia))
      as (Ej & Hc & Hchj & Hr0).
    set (row := Z.of_nat j / 4 / w) in *. set (col := (Z.of_nat j / 4) mod w) in *.
    set (ch := Z.of_nat j mod 4) in *.
    assert (Hr : 0 <= row < h) by nia.
    rewrite uniform_buffer_lookup by lia. fold ch.
    change dO with (ta_data (TypedArray ko dO)).
    rewrite lookup_of_get by (cbn [ta_data]; lia).
    by rewrite Ej, (Hch ch Hchj row col Hr Hc).
  - rewrite !lookup_ge_None_2; [done | rewrite uniform_buffer_length; lia | lia].
Qed.

Lemma blur_data_run src w h radius (st : heap) (S : typed_array) :
  st !! src = Some S ->
  exists out st',
    separableGaussianBlur src w h radius st = (out, st') /\
    st' !! out = Some (blur_data S w h radius).
Proof.
  intros HS. pose proof (separableGaussianBlur_run src w h radius st S HS) as Hrun.
  cbn zeta in Hrun. eexists _, _. split; [exact Hrun |]. apply lookup_insert_eq.
Qed.

Lemma lookup_insert_Some_mono (st : heap) k v l a :
  st !! l = Some a -> is_Some (<[k := v]> st !! l).
Proof.
  intros E. destruct (decide (k = l)) as [-> | Hne].
  - rewrite lookup_insert_eq. by eexists.
  - rewrite lookup_insert_ne by done. by eexists.
Qed.

(** The blur allocates three arrays and writes to nothing else. *)
Lemma blur_frame src w h radius (st : heap) (S : typed_array) :
  st !! src = Some S ->
  exists out st' O,
    separableGaussianBlur src w h radius st = (out, st') /\
    st !! out = None /\
    st' !! out = Some O /\
    ta_kind O = Uint8ClampedArray /\
    length (ta_data O) = length (ta_data S) /\
    forall l a, st !! l = Some a -> st' !! l = Some a.
Proof.
  intros HS.
  pose proof (separableGaussianBlur_run src w h radius st S HS) as Hrun.
  cbn zeta in Hrun.
  set (K := TypedArray Float32Array (kernel_weights radius)) in *.
  set (kernel := fresh (dom st)) in *.
  set (st1 := <[kernel := K]> st) in *.
  set (n := length (ta_data S)) in *.
  set (tmp := fresh (dom st1)) in *.
  set (st2 := <[tmp := zeros Float32Array n]> st1) in *.
  set (out := fresh (dom st2)) in *.
  set (T := hpass K S (kHalf_of radius) w h (zeros Float32Array n)) in *.
  set (O := vpass K T (kHalf_of radius) w h (zeros Uint8ClampedArray n)) in *.
  assert (Hfresh : forall l a, st !! l = Some a ->
            l <> kernel /\ l <> tmp /\ l <> out).
  { intros l a E.
    destruct (lookup_insert_Some_mono st kernel K l a E) as [a1 E1].
    destruct (lookup_insert_Some_mono st1 tmp (zeros Float32Array n) l a1 E1) as [a2 E2].
    split; [| split]; apply not_eq_sym.
    - by eapply fresh_ne.
    - by eapply fresh_ne.
    - by eapply (fresh_ne st2). }
  exists out, (<[out := O]> (<[tmp := T]> st1)), O.
  split; [exact Hrun |]. split.
  { destruct (st !! out) as [a |] eqn:E; [| done].
    destruct (Hfresh out a E) as (_ & _ & Hne). done. }
  split; [apply lookup_insert_eq |].
  destruct (vpass_shape K T (kHalf_of radius) w h (zeros Uint8ClampedArray n)) as [Hk Hl].
  split; [exact Hk |]. split.
  { fold O in Hl. rewrite Hl. unfold zeros. cbn [ta_data]. by rewrite length_replicate. }
  intros l a E. destruct (Hfresh l a E) as (H1 & H2 & H3).
  unfold st1. by rewrite !lookup_insert_ne.
Qed.

(** The two passes, entry by entry; [T] is the temporary buffer. *)
Lemma blur_passes src w h radius (st : heap) (S : typed_array) :
  st !! src = Some S ->
  length (ta_data S) = Z.to_nat (w * h * 4) ->
  exists out st' tmp T O,
    separableGaussianBlur src w h radius st = (out, st') /\
    st' !! tmp = Some T /\
    st' !! out = Some O /\
    forall row col ch, 0 <= row < h -> 0 <= col < w -> 0 <= ch < 4 ->
      ta_get T ((row * w + col) * 4 + ch)
      = coerce Float32Array
          (spec_horizontal (TypedArray Float32Array (kernel_weights radius)) S
                           (kHalf_of radius) w row col ch) /\
      ta_get O ((row * w + col) * 4 + ch)
      = coerce Uint8ClampedArray
          (spec_vertical (TypedArray Float32Array (kernel_weights radius)) T
                         (kHalf_of radius) w h row col ch).
Proof.
  intros HS Hlen.
  pose proof (separableGaussianBlur_run src w h radius st S HS) as Hrun.
  cbn zeta in Hrun.
  destruct (blur_data_spec S w h radius Hlen) as (_ & _ & Hv). cbn zeta in Hv.
  set (st1 := <[fresh (dom st) := TypedArray Float32Array (kernel_weights radius)]> st) in *.
  set (st2 := <[fresh (dom st1) := zeros Float32Array (length (ta_data S))]> st1) in *.
  eexists _, _, (fresh (dom st1)), _, _. split; [exact Hrun |].
  split.
  { rewrite lookup_insert_ne; [apply lookup_insert_eq |].
    apply (fresh_ne st2 _ (zeros Float32Array (length (ta_data S)))).
    apply lookup_insert_eq. }
  split; [apply lookup_insert_eq |]. exact Hv.
Qed.

Lemma jadd_fold_fmap_Num (f : Z -> Q) xs a :
  foldl jadd (Num a) ((fun i => Num (f i)) <$> xs)
  = Num (foldl (fun a i => a + f i)%Q a xs).
Proof. revert a. induction xs as [| x xs IH]; intros a; [done |]. cbn. apply IH. Qed.

Lemma kernel_weights_total radius :
  foldl jadd (Num 0) (kernel_weights radius)
  = Num (Qsum (nw radius) (seqZ 0 (kLen_of radius))).
Proof. rewrite kernel_weights_Num. apply jadd_fold_fmap_Num. Qed.

Lemma kHalf_spec radius :
  kHalf_of radius = Qceiling (binary64 (Qmax 1 (binary64 (radius / (5 # 2))) * 3)).
Proof. reflexivity. Qed.

Lemma sigma_mono r1 r2 : (r1 <= r2)%Q -> (sigma_of r1 <= sigma_of r2)%Q.
Proof.
  intros Hr. unfold sigma_of.
  assert (Hd : (r1 / (5 # 2) <= r2 / (5 # 2))%Q).
  { unfold Qdiv. apply Qmult_le_compat_r; [done | discriminate]. }
  destruct (Qlt_le_dec 0 (r1 / (5 # 2))) as [Hpos | Hneg].
  - apply Q.max_le_compat_l. by apply binary64_mono_pos.
  - apply binary64_nonpos in Hneg. rewrite (Q.max_l 1 (binary64 (r1 / (5 # 2)))) by lra.
    apply Q.le_max_l.
Qed.

Lemma kHalf_mono r1 r2 : (r1 <= r2)%Q -> kHalf_of r1 <= kHalf_of r2.
Proof.
  intros Hr. unfold kHalf_of. apply Qceiling_resp_le.
  pose proof (sigma_mono r1 r2 Hr). pose proof (sigma_ge_1 r1).
  apply binary64_mono_pos; lra.
Qed.

Lemma Qhalf (a : Q) : (a / 2 == a * (1 # 2))%Q.
Proof. reflexivity. Qed.

Lemma Qsquare_nonneg (a : Q) : (0 <= a * a)%Q.
Proof. nra. Qed.

Lemma square_le_bounds (a r : Q) : (0 < r -> a * a <= r * r -> - r <= a <= r)%Q.
Proof. intros Hr Ha. split; nra. Qed.

Lemma ellipse_term_le (a b r s : Q) :
  (0 < s -> 0 <= b -> a * (s * s) + b <= r * r * (s * s) -> a <= r * r)%Q.
Proof.
  intros Hs Hb H.
  assert (Hss : (0 < s * s)%Q) by nra.
  destruct (Qlt_le_dec (r * r) a) as [Hc | Hc]; [| done].
  exfalso.
  assert (0 < (a - r * r) * (s * s))%Q by (apply Qmult_lt_0_compat; lra).
  lra.
Qed.

Lemma in_ellipse_box e px py :
  in_ellipse e px py ->
  (e_cx e - e_rx e <= px <= e_cx e + e_rx e /\
   e_cy e - e_ry e <= py <= e_cy e + e_ry e)%Q.
Proof.
  destruct e as [cx cy rx ry]. unfold in_ellipse. cbn [e_cx e_cy e_rx e_ry].
  intros (Hrx & Hry & Hin).
  assert (Hx : ((px - cx) * (px - cx) <= rx * rx)%Q).
  { apply (ellipse_term_le _ ((py - cy) * (py - cy) * (rx * rx)) rx ry); [done | |].
    - apply Qmult_le_0_compat; apply Qsquare_nonneg.
    - lra. }
  assert (Hy : ((py - cy) * (py - cy) <= ry * ry)%Q).
  { apply (ellipse_term_le _ ((px - cx) * (px - cx) * (ry * ry)) ry rx); [done | |].
    - apply Qmult_le_0_compat; apply Qsquare_nonneg.
    - lra. }
  destruct (square_le_bounds _ _ Hrx Hx). destruct (square_le_bounds _ _ Hry Hy).
  repeat split; lra.
Qed.

Lemma expandBox_bounds w h b :
  (0 <= fx (expandBox w h b) /\ 0 <= fy (expandBox w h b) /\
   fx (expandBox w h b) + fw (expandBox w h b) <= inject_Z w /\
   fy (expandBox w h b) + fh (expandBox w h b) <= inject_Z h)%Q.
Proof.
  unfold expandBox. cbn [fx fy fw fh].
  set (x0 := Qmax 0 _). set (y0 := Qmax 0 _).
  pose proof (Q.le_max_l 0 (box_x b - box_width b * (1 # 5))) as Hx. fold x0 in Hx.
  pose proof (Q.le_max_l 0 (box_y b - box_height b * (1 # 5) * (3 # 2))) as Hy.
  fold y0 in Hy.
  pose proof (Q.le_min_l (inject_Z w - x0) (box_width b + box_width b * (1 # 5) * 2)).
  pose proof (Q.le_min_l (inject_Z h - y0) (box_height b + box_height b * (1 # 5) * (5 # 2))).
  repeat split; lra.
Qed.

Lemma forM_pure {X S} (f : S -> X -> S) (body : X -> S -> M S) (xs : list X) :
  (forall x s st, exists st', body x s st = (f s x, st')) ->
  forall s st, exists st', forM xs body s st = (foldl f s xs, st').
Proof.
  intros Hb. induction xs as [| x xs IH]; intros s st; [by exists st |].
  cbn [forM foldl]. destruct (Hb x s st) as [st1 E1].
  destruct (IH (f s x) st1) as [st2 E2]. exists st2.
  by erewrite bind_run.
Qed.

Lemma blurFace_run w h blurredCanvas det ctx (st : heap) :
  exists st',
    blurFace w h blurredCanvas det ctx st
    = (face_step w h blurredCanvas ctx det, st').
Proof.
  unfold blurFace.
  set (mask := maskCanvas_of w h (box (detection det))).
  set (st1 := <[fresh (dom st) := TypedArray Uint8ClampedArray (image_bytes mask)]> st).
  destruct (blur_data_run (fresh (dom st)) w h FEATHER_RADIUS st1 _
              (lookup_insert_eq st _ _)) as (out & st2 & Hrun & Hout).
  exists st2.
  erewrite bind_run; [| reflexivity].
  erewrite bind_run; [| exact Hrun].
  erewrite bind_run; [| unfold putImageData; rewrite Hout; reflexivity].
  reflexivity.
Qed.

Lemma blurFaces_run img detections (st : heap) :
  detections <> [] ->
  exists st',
    blurFaces img detections st
    = (foldl (face_step (cv_width img) (cv_height img) (blurred_of img))
             (drawImage source_over
                (createCanvas (cv_width img) (cv_height img)) img)
             detections, st').
Proof.
  intros Hne. unfold blurFaces.
  rewrite decide_False by (by destruct detections).
  set (c := drawImage source_over (createCanvas (cv_width img) (cv_height img)) img).
  set (st1 := <[fresh (dom st) := TypedArray Uint8ClampedArray (image_bytes c)]> st).
  destruct (blur_data_run (fresh (dom st)) (cv_width img) (cv_height img) BLUR_RADIUS st1 _
              (lookup_insert_eq st _ _)) as (out & st2 & Hrun & Hout).
  destruct (forM_pure (face_step (cv_width img) (cv_height img) (blurred_of img))
              (blurFace (cv_width img) (cv_height img) (blurred_of img)) detections
              (fun det ctx st => blurFace_run _ _ _ det ctx st) c st2) as [st3 Hloop].
  exists st3.
  erewrite bind_run; [| reflexivity].
  erewrite bind_run; [| exact Hrun].
  erewrite bind_run; [| unfold putImageData; rewrite Hout; reflexivity].
  exact Hloop.
Qed.

Lemma blurFaces_nil img (st : heap) :
  blurFaces img [] st
  = (drawImage source_over (createCanvas (cv_width img) (cv_height img)) img, st).
Proof. reflexivity. Qed.

Lemma drawImage_lookup op dst src (i : nat) d :
  cv_pixels dst !! i = Some d ->
  cv_pixels (drawImage op dst src) !! i
  = Some (composite op d (default transparent (cv_pixels src !! i))).
Proof. intros E. unfold drawImage. cbn [cv_pixels]. by rewrite list_lookup_imap, E. Qed.

Lemma drawImage_length op dst src :
  length (cv_pixels (drawImage op dst src)) = length (cv_pixels dst).
Proof. unfold drawImage. cbn [cv_pixels]. apply length_imap. Qed.

Lemma createCanvas_lookup w h (i : nat) :
  (i < Z.to_nat w * Z.to_nat h)%nat ->
  cv_pixels (createCanvas w h) !! i = Some transparent.
Proof. intros Hi. unfold createCanvas. cbn [cv_pixels]. by apply lookup_replicate_2. Qed.

Lemma createCanvas_length w h :
  length (cv_pixels (createCanvas w h)) = (Z.to_nat w * Z.to_nat h)%nat.
Proof. unfold createCanvas. cbn [cv_pixels]. apply length_replicate. Qed.

Lemma canvas_of_bytes_lookup c a (i : nat) p :
  cv_pixels c !! i = Some p ->
  cv_pixels (canvas_of_bytes c a) !! i
  = Some (premultiplied (ta_get a (Z.of_nat i * 4)) (ta_get a (Z.of_nat i * 4 + 1))
                        (ta_get a (Z.of_nat i * 4 + 2)) (ta_get a (Z.of_nat i * 4 + 3))).
Proof. intros E. unfold canvas_of_bytes. cbn [cv_pixels]. by rewrite list_lookup_imap, E. Qed.

Lemma canvas_of_bytes_length c a :
  length (cv_pixels (canvas_of_bytes c a)) = length (cv_pixels c).
Proof. unfold canvas_of_bytes. cbn [cv_pixels]. apply length_imap. Qed.

Lemma blurred_of_length img :
  length (cv_pixels (blurred_of img))
  = (Z.to_nat (cv_width img) * Z.to_nat (cv_height img))%nat.
Proof.
  unfold blurred_of. by rewrite canvas_of_bytes_length, drawImage_length, createCanvas_length.
Qed.

(** One iteration, pixel by pixel. *)
Lemma face_step_pixel w h blurredCanvas ctx det (i : nat) o b :
  (i < Z.to_nat w * Z.to_nat h)%nat ->
  cv_pixels ctx !! i = Some o ->
  cv_pixels blurredCanvas !! i = Some b ->
  exists p,
    cv_pixels (face_step w h blurredCanvas ctx det) !! i = Some p /\
    pixel_eq p (stencil_over o b (mask_alpha w h (box (detection det)) i / 255)).
Proof.
  intros Hi Ho Hb. unfold face_step.
  eexists. split.
  - rewrite (drawImage_lookup _ _ _ _ _ Ho).
    erewrite (drawImage_lookup destination_in); cycle 1.
    { erewrite drawImage_lookup; [reflexivity | by apply createCanvas_lookup]. }
    erewrite canvas_of_bytes_lookup by (by apply createCanvas_lookup).
    rewrite Hb. reflexivity.
  - unfold pixel_eq, stencil_over, mask_alpha, composite, premultiplied, transparent.
    cbn [pr pg pb pa default from_option id]. repeat split; field.
Qed.

Lemma stencil_over_opaque o b t :
  (pa b == 1)%Q -> pixel_eq (stencil_over o b t) (lerp_pixel o b t).
Proof.
  intros Ha. unfold pixel_eq, stencil_over, lerp_pixel, lerp. cbn [pr pg pb pa].
  rewrite Ha. repeat split; ring.
Qed.

Lemma pixel_eq_trans p q r : pixel_eq p q -> pixel_eq q r -> pixel_eq p r.
Proof.
  unfold pixel_eq. intros (H1 & H2 & H3 & H4) (K1 & K2 & K3 & K4).
  rewrite H1, H2, H3, H4. done.
Qed.

Lemma half_red_bytes :
  image_bytes (drawImage source_over (createCanvas 1 1) half_red_1x1)
  = uniform_buffer 1 1 (255, 0, 0, 128).
Proof. vm_compute. reflexivity. Qed.

Lemma half_red_blurred :
  blurred_of half_red_1x1
  = canvas_of_bytes (drawImage source_over (createCanvas 1 1) half_red_1x1)
      (TypedArray Uint8ClampedArray (uniform_buffer 1 1 (255, 0, 0, 128))).
Proof.
  unfold blurred_of. change (cv_width half_red_1x1) with 1.
  change (cv_height half_red_1x1) with 1.
  rewrite half_red_bytes, blur_data_uniform; [done | lia | lia |].
  unfold byte_color, is_byte. lia.
Qed.

Lemma whole_1x1_mask_bytes :
  image_bytes (maskCanvas_of 1 1 (mkBox 0 0 1 1))
  = uniform_buffer 1 1 (255, 255, 255, 255).
Proof. vm_compute. reflexivity. Qed.

Lemma whole_1x1_feathered :
  feathered_of 1 1 (mkBox 0 0 1 1)
  = TypedArray Uint8ClampedArray (uniform_buffer 1 1 (255, 255, 255, 255)).
Proof.
  unfold feathered_of. rewrite whole_1x1_mask_bytes, blur_data_uniform; [done | lia | lia |].
  unfold byte_color, is_byte. lia.
Qed.

(** On the half-transparent pixel the region raises the opacity from 1/2 to
    about 3/4, where the interpolation would leave it at 128/255. *)
Lemma lerp_rule_fails : ~ lerp_rule.
Proof.
  intros H.
  specialize (H half_red_1x1 [] whole_1x1 0%nat). cbn zeta in H.
  change (cv_width half_red_1x1) with 1 in H. change (cv_height half_red_1x1) with 1 in H.
  cbn [foldl] in H. unfold face_step, mask_alpha in H.
  change (box (detection whole_1x1)) with (mkBox 0 0 1 1) in H.
  rewrite half_red_blurred, whole_1x1_feathered in H.
  edestruct H as (p & Hp & Hpe).
  - unfold canvas_wf. vm_compute. repeat split; discriminate.
  - vm_compute. reflexivity.
  - vm_compute. reflexivity.
  - vm_compute in Hp. injection Hp as <-.
    destruct Hpe as (_ & _ & _ & Ha). vm_compute in Ha. discriminate.
Qed.

Lemma ToUint8Clamp_comp (q q' : Q) :
  (q == q')%Q -> ToUint8Clamp (Num q) = ToUint8Clamp (Num q').
Proof.
  intros E. unfold ToUint8Clamp. apply round_half_even_comp. by rewrite E.
Qed.

Lemma coerce_u8_comp (x y : Q) :
  (x == y)%Q -> coerce Uint8ClampedArray (Num x) = coerce Uint8ClampedArray (Num y).
Proof. intros E. cbn [coerce]. by rewrite (ToUint8Clamp_comp x y E). Qed.

Lemma straight_bytes_comp p q :
  pixel_eq p q ->
  coerce Uint8ClampedArray <$> straight_bytes p
  = coerce Uint8ClampedArray <$> straight_bytes q.
Proof.
  intros (Hr & Hg & Hb & Ha). unfold straight_bytes.
  assert (Ez : Qeq_bool (pa p) 0 = Qeq_bool (pa q) 0).
  { destruct (Qeq_bool (pa q) 0) eqn:E.
    - apply Qeq_bool_iff. apply Qeq_bool_iff in E. by rewrite Ha.
    - destruct (Qeq_bool (pa p) 0) eqn:E'; [| done].
      apply Qeq_bool_iff in E'. rewrite Ha in E'. apply Qeq_bool_iff in E'. congruence. }
  rewrite Ez. destruct (Qeq_bool (pa q) 0); [done |].
  cbn [fmap list_fmap].
  rewrite (coerce_u8_comp (pr p / pa p * 255) (pr q / pa q * 255)) by (by rewrite Hr, Ha).
  rewrite (coerce_u8_comp (pg p / pa p * 255) (pg q / pa q * 255)) by (by rewrite Hg, Ha).
  rewrite (coerce_u8_comp (pb p / pa p * 255) (pb q / pa q * 255)) by (by rewrite Hb, Ha).
  rewrite (coerce_u8_comp (pa p * 255) (pa q * 255)) by (by rewrite Ha).
  reflexivity.
Qed.

Lemma image_bytes_comp c d : canvas_eq c d -> image_bytes c = image_bytes d.
Proof.
  intros (_ & _ & Hp). unfold image_bytes.
  induction Hp as [| p q ps qs Hpq _ IH]; [done |].
  cbn [fmap list_fmap concat]. rewrite !fmap_app. f_equal; [| exact IH].
  by apply straight_bytes_comp.
Qed.

Lemma draw_on_fresh_canvas img :
  canvas_wf img ->
  canvas_eq (drawImage source_over (createCanvas (cv_width img) (cv_height img)) img) img.
Proof.
  intros (Hw & Hh & Hlen). unfold canvas_eq. split; [done |]. split; [done |].
  apply Forall2_same_length_lookup. split.
  - by rewrite drawImage_length, createCanvas_length.
  - intros i p q Hp Hq.
    erewrite drawImage_lookup in Hp; cycle 1.
    { apply createCanvas_lookup. rewrite <- Hlen. by eapply lookup_lt_Some. }
    rewrite Hq in Hp. injection Hp as <-.
    unfold pixel_eq, composite, transparent. cbn [pr pg pb pa default from_option id].
    repeat split; ring.
Qed.

(** Every call of the blur allocates: the heap it returns is never the
    heap it was given. *)
Lemma blur_changes_heap src w h radius (st : heap) (S : typed_array) :
  st !! src = Some S -> (separableGaussianBlur src w h radius st).2 <> st.
Proof.
  intros HS. destruct (blur_frame src w h radius st S HS)
    as (out & st' & O & Hrun & Hnew & HO & _).
  rewrite Hrun. cbn. intros ->. congruence.
Qed.

Lemma in_ellipseb_spec e px py : in_ellipseb e px py = true <-> in_ellipse e px py.
Proof.
  unfold in_ellipseb, in_ellipse. rewrite !andb_true_iff, !negb_true_iff.
  rewrite Qle_bool_iff.
  assert (Hn : forall a, Qle_bool a 0 = false <-> (0 < a)%Q).
  { intros a. split.
    - intros E. apply Qnot_le_lt. intros Hle. apply Qle_bool_iff in Hle. congruence.
    - intros Hlt. destruct (Qle_bool a 0) eqn:E; [| done].
      apply Qle_bool_iff in E. lra. }
  rewrite !Hn. tauto.
Qed.

Lemma maskCanvas_pixel w h b (i : nat) :
  (i < Z.to_nat w * Z.to_nat h)%nat ->
  cv_pixels (maskCanvas_of w h b) !! i
  = Some (if in_ellipseb (maskEllipse (expandBox w h b))
                         (pixel_centre w i).1 (pixel_centre w i).2
          then white else transparent).
Proof.
  intros Hi. unfold maskCanvas_of, fill, clearRect. cbn [cv_pixels cv_width].
  rewrite list_lookup_imap, createCanvas_length, lookup_replicate_2 by done.
  cbn [fmap option_fmap option_map]. change (cv_width (createCanvas w h)) with w.
  destruct (pixel_centre w i) as [px py]. cbn [fst snd].
  destruct (in_ellipseb _ px py); reflexivity.
Qed.

Lemma maskCanvas_length w h b :
  length (cv_pixels (maskCanvas_of w h b)) = (Z.to_nat w * Z.to_nat h)%nat.
Proof.
  unfold maskCanvas_of, fill, clearRect. cbn [cv_pixels].
  by rewrite length_imap, length_replicate, createCanvas_length.
Qed.



Lemma byte_num_coerce v : byte_num (coerce Uint8ClampedArray v).
Proof. eexists. split; [reflexivity |]. apply ToUint8Clamp_range. Qed.

Lemma ta_set_bytes d i v :
  ta_kind d = Uint8ClampedArray -> Forall byte_num (ta_data d) ->
  Forall byte_num (ta_data (ta_set d i v)).
Proof.
  intros Hk Hd. unfold ta_set. case_decide; [| done]. cbn [ta_data].
  apply Forall_insert; [done |]. rewrite Hk. apply byte_num_coerce.
Qed.

Lemma set4_bytes d oi v :
  ta_kind d = Uint8ClampedArray -> Forall byte_num (ta_data d) ->
  Forall byte_num (ta_data (set4 d oi v)).
Proof.
  intros Hk Hd. destruct v as [[[r g] b] a]. unfold set4.
  repeat (apply ta_set_bytes; [by rewrite ?ta_set_kind |]). done.
Qed.

Lemma foldl_set4_bytes {X} (f : X -> Z) (v : X -> jsnum * jsnum * jsnum * jsnum)
    (xs : list X) (d : typed_array) :
  ta_kind d = Uint8ClampedArray -> Forall byte_num (ta_data d) ->
  Forall byte_num (ta_data (foldl (fun d x => set4 d (f x) (v x)) d xs)).
Proof.
  revert d. induction xs as [| x xs IH]; intros d Hk Hd; [done |].
  cbn [foldl]. apply IH; [by rewrite set4_kind | by apply set4_bytes].
Qed.

Lemma blur_data_bytes S w h radius : Forall byte_num (ta_data (blur_data S w h radius)).
Proof.
  unfold blur_data, vpass. rewrite foldl_nested.
  apply (foldl_set4_bytes (fun p : Z * Z => (p.2 * w + p.1) * 4)
           (fun p => taps _ _ (kHalf_of radius) (v_idx w h p.2 p.1))).
  - done.
  - unfold zeros. cbn [ta_data]. apply Forall_replicate. exists 0. split; [done | lia].
Qed.

Lemma blur_data_length S w h radius :
  length (ta_data (blur_data S w h radius)) = length (ta_data S).
Proof.
  unfold blur_data. destruct (vpass_shape (TypedArray Float32Array (kernel_weights radius))
    (hpass (TypedArray Float32Array (kernel_weights radius)) S (kHalf_of radius) w h
       (zeros Float32Array (length (ta_data S))))
    (kHalf_of radius) w h (zeros Uint8ClampedArray (length (ta_data S)))) as [_ ->].
  unfold zeros. cbn [ta_data]. apply length_replicate.
Qed.






Lemma concat_chunks_lookup {A B} (f : A -> list B) (n : nat) (l : list A) (p k : nat) :
  (forall x, length (f x) = n) -> (k < n)%nat ->
  concat (f <$> l) !! (p * n + k)%nat = l !! p ≫= fun x => f x !! k.
Proof.
  intros Hf Hk. revert p. induction l as [| x l IH]; intros p; [done |].
  cbn [fmap list_fmap concat]. destruct p as [| p].
  - cbn [Nat.mul Nat.add]. rewrite lookup_app_l by (rewrite Hf; lia). done.
  - rewrite lookup_app_r by (rewrite Hf; lia). rewrite Hf.
    replace (S p * n + k - n)%nat with (p * n + k)%nat by lia. apply IH.
Qed.

Lemma straight_bytes_length p : length (straight_bytes p) = 4%nat.
Proof. unfold straight_bytes. by destruct (Qeq_bool (pa p) 0). Qed.

Lemma image_bytes_lookup c (p k : nat) px :
  cv_pixels c !! p = Some px -> (k < 4)%nat ->
  image_bytes c !! (p * 4 + k)%nat
  = coerce Uint8ClampedArray <$> straight_bytes px !! k.
Proof.
  intros Hp Hk. unfold image_bytes. rewrite list_lookup_fmap.
  rewrite (concat_chunks_lookup straight_bytes 4) by (done || apply straight_bytes_length).
  by rewrite Hp.
Qed.

Lemma image_bytes_length c : length (image_bytes c) = (length (cv_pixels c) * 4)%nat.
Proof.
  unfold image_bytes. rewrite length_fmap.
  induction (cv_pixels c) as [| p ps IH]; [done |].
  cbn [fmap list_fmap concat length]. rewrite length_app, straight_bytes_length, IH. lia.
Qed.

Lemma opaque_alpha_byte px :
  (pa px == 1)%Q ->
  coerce Uint8ClampedArray <$> straight_bytes px !! 3%nat = Some (Num (inject_Z 255)).
Proof.
  intros Ha. unfold straight_bytes.
  destruct (Qeq_bool (pa px) 0) eqn:E.
  { apply Qeq_bool_iff in E. rewrite Ha in E. discriminate. }
  cbn [lookup list_lookup fmap option_fmap option_map].
  rewrite (coerce_u8_comp (pa px * 255) 255) by (rewrite Ha; reflexivity).
  reflexivity.
Qed.

Lemma pixel_of_index w h (i : nat) :
  0 <= w -> 0 <= h -> (i < Z.to_nat w * Z.to_nat h)%nat ->
  0 <= Z.of_nat i / w < h /\ 0 <= Z.of_nat i mod w < w /\
  Z.of_nat i = Z.of_nat i / w * w + Z.of_nat i mod w.
Proof.
  intros Hw Hh Hi. assert (Hw0 : 0 < w) by nia.
  pose proof (Z.div_mod (Z.of_nat i) w ltac:(lia)) as E.
  pose proof (Z.mod_pos_bound (Z.of_nat i) w Hw0).
  assert (0 <= Z.of_nat i / w) by (apply Z.div_pos; lia).
  assert (Z.of_nat i / w < h).
  { apply Z.div_lt_upper_bound; [done |]. nia. }
  repeat split; lia.
Qed.

(** The blurred version of an image without transparency has none. *)
Lemma blurred_of_opaque img (i : nat) b :
  canvas_wf img -> opaque img ->
  cv_pixels (blurred_of img) !! i = Some b -> (pa b == 1)%Q.
Proof.
  intros (Hw & Hh & Hlen) Hop Hb.
  set (w := cv_width img) in *. set (h := cv_height img) in *.
  set (c := drawImage source_over (createCanvas w h) img).
  assert (Hcl : length (cv_pixels c) = (Z.to_nat w * Z.to_nat h)%nat).
  { unfold c. by rewrite drawImage_length, createCanvas_length. }
  assert (Hi : (i < Z.to_nat w * Z.to_nat h)%nat).
  { unfold w, h. rewrite <- (blurred_of_length img). by eapply lookup_lt_Some. }
  set (S := TypedArray Uint8ClampedArray (image_bytes c)).
  assert (HSlen : length (ta_data S) = Z.to_nat (w * h * 4)).
  { unfold S. cbn [ta_data]. rewrite image_bytes_length, Hcl. nia. }
  assert (Hch : channel_is S w h 3 255).
  { intros row col Hr Hc.
    assert (Hp : (Z.to_nat (row * w + col) < Z.to_nat w * Z.to_nat h)%nat) by nia.
    destruct (lookup_lt_is_Some_2 (cv_pixels img) _ ltac:(rewrite Hlen; exact Hp))
      as [q Hq].
    assert (Hc0 : cv_pixels c !! Z.to_nat (row * w + col)
                  = Some (composite source_over transparent q)).
    { unfold c. erewrite drawImage_lookup by (by apply createCanvas_lookup).
      by rewrite Hq. }
    unfold ta_get, S. rewrite decide_True by nia. cbn [ta_data].
    replace (Z.to_nat ((row * w + col) * 4 + 3))
      with (Z.to_nat (row * w + col) * 4 + 3)%nat by nia.
    rewrite (image_bytes_lookup c _ 3 _ Hc0) by lia.
    rewrite opaque_alpha_byte; [done |].
    unfold composite, transparent. cbn [pa].
    rewrite (proj1 (Forall_lookup _ _) Hop _ _ Hq). reflexivity. }
  pose proof (blur_channel_const S w h BLUR_RADIUS 3 255 HSlen ltac:(lia)
                ltac:(unfold is_byte; lia) Hch) as HB.
  unfold blurred_of in Hb. fold w h c S in Hb.
  destruct (lookup_lt_is_Some_2 (cv_pixels c) i ltac:(rewrite Hcl; exact Hi)) as [x Hx].
  rewrite (canvas_of_bytes_lookup _ _ _ _ Hx) in Hb. injection Hb as <-.
  destruct (pixel_of_index w h i Hw Hh Hi) as (Hr & Hc & Ei).
  unfold premultiplied. cbn [pa].
  rewrite Ei at 1. rewrite (HB _ _ Hr Hc). reflexivity.
Qed.

(** ** The claims *)

(** C1, amended: with at least one region, [blurFaces] folds the regions,
    in the detector's order, over the bitmap of the decoded image, each
    iteration starting from the result of the previous one and using the
    same once-computed blurred bitmap. An iteration turns every
    (premultiplied) pixel [o] of the output so far into
    [blurred * t + o * (1 - blurred_alpha * t)], with [t = mask_alpha / 255]
    the opacity of the feathered mask at that pixel; where the blurred
    pixel is opaque this is [lerp(o, blurred, t)], and the blurred pixel is
    opaque everywhere when the image has no transparency. *)
Theorem C1_regions_composited_in_order img detections (st : heap) :
  detections <> [] ->
  let w := cv_width img in
  let h := cv_height img in
  exists st',
    blurFaces img detections st
    = (foldl (face_step w h (blurred_of img))
             (drawImage source_over (createCanvas w h) img) detections, st') /\
    (forall ctx det (i : nat) o b,
       cv_pixels ctx !! i = Some o ->
       cv_pixels (blurred_of img) !! i = Some b ->
       exists p,
         cv_pixels (face_step w h (blurred_of img) ctx det) !! i = Some p /\
         pixel_eq p (stencil_over o b (mask_alpha w h (box (detection det)) i / 255)) /\
         ((pa b == 1)%Q ->
          pixel_eq p (lerp_pixel o b (mask_alpha w h (box (detection det)) i / 255)))) /\
    (canvas_wf img -> opaque img ->
     forall (i : nat) b, cv_pixels (blurred_of img) !! i = Some b -> (pa b == 1)%Q).
Proof.
  intros Hne w h. destruct (blurFaces_run img detections st Hne) as [st' Hrun].
  exists st'. split; [exact Hrun |]. split.
  - intros ctx det i o b Ho Hb.
    assert (Hi : (i < Z.to_nat w * Z.to_nat h)%nat).
    { unfold w, h. rewrite <- (blurred_of_length img). by eapply lookup_lt_Some. }
    destruct (face_step_pixel w h (blurred_of img) ctx det i o b Hi Ho Hb)
      as (p & Hp & Hpe).
    exists p. split; [done |]. split; [done |].
    intros Ha. eapply pixel_eq_trans; [exact Hpe |]. by apply stencil_over_opaque.
  - intros Hwf Hop i b Hb. by eapply blurred_of_opaque.
Qed.

(** C2: for every radius > 0 the kernel array built by the blur routine
    has length [2 * halfWidth + 1], where [sigma = Math.max(1, radius / 2.5)]
    and [halfWidth = Math.ceil(sigma * 3)] are the numbers of lines 37-38:
    the quotient and the product are doubles, rounded to binary64 before
    [Math.max] and [Math.ceil] see them. Its weights add up to a number
    within 1e-6 of 1; and it is symmetric: entry [i] equals entry
    [len - 1 - i]. The sum bound relies on [Math.exp] being positive and on
    a [Float32Array] store having relative error at most 2^-24. *)
Theorem C2_kernel_length_sum_symmetry radius (st : heap) :
  (0 < radius)%Q ->
  exists kernel st' weights,
    gaussKernel radius st = (kernel, st') /\
    st' !! kernel = Some (TypedArray Float32Array weights) /\
    Z.of_nat (length weights)
      = 2 * Qceiling (binary64 (Qmax 1 (binary64 (radius / (5 # 2))) * 3)) + 1 /\
    (exists total, foldl jadd (Num 0) weights = Num total /\
                   (Qabs (total - 1) <= 1 # 1000000)%Q) /\
    forall i, (i < length weights)%nat ->
      weights !! i = weights !! (length weights - 1 - i)%nat.
Proof.
  intros _. eexists (fresh (dom st)), _, (kernel_weights radius).
  split; [apply gaussKernel_run |]. split; [apply lookup_insert_eq |].
  split.
  { rewrite kernel_weights_length, <- kHalf_spec.
    pose proof (kLen_pos radius). unfold kLen_of in *. lia. }
  split.
  { eexists. split; [apply kernel_weights_total |].
    destruct (nw_sum radius) as [H0 H1]. unfold eps32 in *.
    apply Qabs_Qle_condition. split; lra. }
  apply kernel_weights_sym.
Qed.

(** C3: blurring a buffer in which every pixel has the same RGBA colour
    (four bytes) gives a buffer in which every pixel has that colour, for
    every width, height and radius. *)
Theorem C3_uniform_color_unchanged src w h radius (st : heap) kind color :
  0 <= w -> 0 <= h -> byte_color color ->
  st !! src = Some (TypedArray kind (uniform_buffer w h color)) ->
  exists out st',
    separableGaussianBlur src w h radius st = (out, st') /\
    st' !! out = Some (TypedArray Uint8ClampedArray (uniform_buffer w h color)).
Proof.
  intros Hw Hh Hcol Hsrc.
  destruct (blur_data_run src w h radius st _ Hsrc) as (out & st' & Hrun & Hout).
  exists out, st'. split; [exact Hrun |].
  rewrite Hout. f_equal. by apply blur_data_uniform.
Qed.

(** C4: the horizontal pass stores in the temporary buffer [T], for every
    pixel and each of the four channels [ch], the convolution of the kernel
    with the samples of columns [col - halfWidth .. col + halfWidth] of the
    source row, column indices clamped to [0, w - 1]; the vertical pass
    stores in the result [O] the same convolution ([convolve_at]) of the
    horizontal output [T] along rows [row - halfWidth .. row + halfWidth],
    row indices clamped to [0, h - 1]. The four channels go through the
    same formula, each reading only its own channel. *)
Theorem C4_two_pass_clamped_convolution src w h radius (st : heap) (S : typed_array) :
  st !! src = Some S ->
  length (ta_data S) = Z.to_nat (w * h * 4) ->
  exists out st' tmp T O,
    separableGaussianBlur src w h radius st = (out, st') /\
    st' !! tmp = Some T /\
    st' !! out = Some O /\
    forall row col ch, 0 <= row < h -> 0 <= col < w -> 0 <= ch < 4 ->
      ta_get T ((row * w + col) * 4 + ch)
      = coerce Float32Array
          (convolve_at (TypedArray Float32Array (kernel_weights radius))
             (kHalf_of radius)
             (fun c => ta_get S ((row * w + clamp_to 0 (w - 1) c) * 4 + ch)) col) /\
      ta_get O ((row * w + col) * 4 + ch)
      = coerce Uint8ClampedArray
          (convolve_at (TypedArray Float32Array (kernel_weights radius))
             (kHalf_of radius)
             (fun r => ta_get T ((clamp_to 0 (h - 1) r * w + col) * 4 + ch)) row).
Proof.
  intros HS Hlen.
  destruct (blur_passes src w h radius st S HS Hlen)
    as (out & st' & tmp & T & O & Hrun & HT & HO & Hv).
  exists out, st', tmp, T, O. split; [done |]. split; [done |]. split; [done |].
  intros row col ch Hr Hc Hch.
  destruct (Hv row col ch Hr Hc Hch) as [E1 E2]. split; [exact E1 | exact E2].
Qed.


(** C6: with no region, [blurFaces] returns right after decoding. The
    bitmap it saves is the decoded image, pixel for pixel, with the very
    same bytes; the heap of typed arrays is left as it was, so the blur,
    which allocates on every call, has not run. *)
Theorem C6_no_region_passthrough img (st : heap) :
  canvas_wf img ->
  exists out,
    blurFaces img [] st = (out, st) /\
    canvas_eq out img /\
    image_bytes out = image_bytes img /\
    forall src w h radius S,
      st !! src = Some S -> (separableGaussianBlur src w h radius st).2 <> st.
Proof.
  intros Hwf. eexists. split; [apply blurFaces_nil |].
  pose proof (draw_on_fresh_canvas img Hwf) as Heq.
  split; [exact Heq |]. split; [by apply image_bytes_comp |].
  intros src w h radius S. apply blur_changes_heap.
Qed.

(** C8: [separableGaussianBlur] never writes to its source buffer. Run from
    any heap in which [src] holds a buffer [S], it returns a location [out]
    that was not allocated before the call (a new buffer), holding a
    [Uint8ClampedArray] of the length of [S] (so of length
    [w * h * 4] when [S] has that length); after the call [src] still holds
    [S], and so does every other buffer of the initial heap. *)
Theorem C8_blur_does_not_mutate_source src w h radius (st : heap) (S : typed_array) :
  st !! src = Some S ->
  exists out st' O,
    separableGaussianBlur src w h radius st = (out, st') /\
    st' !! src = Some S /\
    st !! out = None /\
    out <> src /\
    st' !! out = Some O /\
    ta_kind O = Uint8ClampedArray /\
    length (ta_data O) = length (ta_data S) /\
    (length (ta_data S) = Z.to_nat (w * h * 4) ->
     length (ta_data O) = Z.to_nat (w * h * 4)) /\
    forall l a, st !! l = Some a -> st' !! l = Some a.
Proof.
  intros HS.
  destruct (blur_frame src w h radius st S HS)
    as (out & st' & O & Hrun & Hnew & HO & Hk & Hl & Hframe).
  exists out, st', O. repeat split; try done.
  - by apply Hframe.
  - intros ->. congruence.
  - intros E. by rewrite Hl.
Qed.

(** C9, counterexample: radii 1 and 2 both give sigma = 1 and half-width 3. *)
Lemma C9_counterexample : ~ halfWidth_strictly_increasing.
Proof.
  intros H. specialize (H 1%Q 2%Q eq_refl eq_refl).
  vm_compute in H. discriminate.
Qed.

(** C9, amended: the half-width never decreases when the radius grows, and
    neither does the kernel length [2 * halfWidth + 1]; it stays the same
    while [radius / 2.5] is below 1 or [3 * sigma] rounds up to the same
    integer. *)
Theorem C9_halfWidth_monotone r1 r2 :
  (r1 < r2)%Q ->
  kHalf_of r1 <= kHalf_of r2 /\ kLen_of r1 <= kLen_of r2.
Proof.
  intros Hr. assert (kHalf_of r1 <= kHalf_of r2) by (apply kHalf_mono; lra).
  unfold kLen_of. lia.
Qed.

(** ** The expanded box in double precision *)

Lemma expandBox_in_exact w h b : expandBox_in (fun x => x) w h b = expandBox w h b.
Proof. reflexivity. Qed.

Lemma maskEllipse_in_exact e : maskEllipse_in (fun x => x) e = maskEllipse e.
Proof. reflexivity. Qed.

(** A sum whose second term is the rounded rest exceeds the whole by one
    rounding error at most. *)
Lemma rounded_rest (total x a : Q) :
  (a <= binary64 (total - x) -> x + a <= total + Qabs (total - x) * eps64)%Q.
Proof.
  intros Ha. pose proof (binary64_err (total - x)) as He.
  apply Qabs_Qle_condition in He. lra.
Qed.

Lemma expandBox64_bounds w h b :
  let e := expandBox64 w h b in
  (0 <= fx e /\ 0 <= fy e /\
   fx e + fw e <= inject_Z w + Qabs (inject_Z w - fx e) * eps64 /\
   fy e + fh e <= inject_Z h + Qabs (inject_Z h - fy e) * eps64)%Q.
Proof.
  cbn zeta. unfold expandBox64, expandBox_in. cbn [fx fy fw fh].
  set (x0 := Qmax 0 _). set (y0 := Qmax 0 _).
  repeat split.
  - apply Q.le_max_l.
  - apply Q.le_max_l.
  - apply rounded_rest, Q.le_min_l.
  - apply rounded_rest, Q.le_min_l.
Qed.

(** One axis of the ellipse: its extent, from the rounded centre and
    radius, stays within a few rounding errors of the canvas. *)
Lemma ellipse_axis64 (total x0 len p : Q) :
  (0 <= x0 -> len <= binary64 (total - x0) ->
   0 < binary64 (len / 2) ->
   binary64 (x0 + binary64 (len / 2)) - binary64 (len / 2) <= p ->
   p <= binary64 (x0 + binary64 (len / 2)) + binary64 (len / 2) ->
   - (total * eps64) <= p <= total * (1 + 4 * eps64))%Q.
Proof.
  intros Hx0 Hlen Hr Hp1 Hp2.
  set (r := binary64 (len / 2)) in *.
  assert (Hl2 : (0 < len / 2)%Q) by (by apply binary64_pos_inv).
  assert (Hl : (0 < len)%Q).
  { change (len / 2)%Q with (len * (1 # 2))%Q in Hl2. lra. }
  assert (Hrest : (0 < total - x0)%Q).
  { apply binary64_pos_inv. lra. }
  destruct (binary64_bounds (total - x0)) as [Hb _]. specialize (Hb ltac:(lra)).
  destruct (binary64_bounds (len / 2)) as [Hr1 _]. specialize (Hr1 ltac:(lra)).
  fold r in Hr1. change (len / 2)%Q with (len * (1 # 2))%Q in Hr1.
  destruct (binary64_bounds (x0 + r)) as [Hc _]. specialize (Hc ltac:(lra)).
  set (c := binary64 (x0 + r)) in *.
  assert (Htot : (0 < total)%Q) by lra.
  clearbody r c. unfold eps64 in *. split; nra.
Qed.

(** C10, amended: the expanded box the code computes, each operation of
    lines 157-162 rounded to binary64, has [fx >= 0] and [fy >= 0]; it
    passes the right and the bottom edge of the canvas by one rounding
    error at most, [fx + fw <= w + |w - fx| * 2^-53] and
    [fy + fh <= h + |h - fy| * 2^-53]; and every point covered by the
    ellipse drawn for the mask, whose centre and radii are rounded as
    well, lies within [w * 2^-51] of the columns and [h * 2^-51] of the
    rows of the canvas. With exact arithmetic the box and the ellipse lie
    on the canvas ([expandBox_bounds]). *)
Theorem C10_expanded_box_inside_canvas_up_to_rounding (w h : Z) (b : Box) :
  let e := expandBox64 w h b in
  (0 <= fx e /\ 0 <= fy e /\
   fx e + fw e <= inject_Z w + Qabs (inject_Z w - fx e) * eps64 /\
   fy e + fh e <= inject_Z h + Qabs (inject_Z h - fy e) * eps64)%Q /\
  forall px py, in_ellipse (maskEllipse64 e) px py ->
    (- (inject_Z w * eps64) <= px <= inject_Z w * (1 + 4 * eps64) /\
     - (inject_Z h * eps64) <= py <= inject_Z h * (1 + 4 * eps64))%Q.
Proof.
  intros e. split; [apply expandBox64_bounds |].
  intros px py Hin. pose proof Hin as (Hrx & Hry & _).
  apply in_ellipse_box in Hin.
  unfold maskEllipse64, maskEllipse_in in Hin, Hrx, Hry.
  cbn [e_cx e_cy e_rx e_ry] in Hin, Hrx, Hry.
  destruct Hin as [[Hx1 Hx2] [Hy1 Hy2]].
  destruct (expandBox64_bounds w h b) as (H1 & H2 & _). fold e in H1, H2.
  split.
  - apply (ellipse_axis64 _ (fx e) (fw e)); try done. apply Q.le_min_l.
  - apply (ellipse_axis64 _ (fy e) (fh e)); try done. apply Q.le_min_l.
Qed.

(** ** Range and reach of the blur *)

Lemma round_half_even_between (q : Q) (lo hi : Z) :
  (inject_Z lo - (1 # 2) < q)%Q -> (q < inject_Z hi + (1 # 2))%Q ->
  lo <= round_half_even q <= hi.
Proof.
  intros Hlo Hhi. unfold round_half_even.
  pose proof (Qfloor_le q) as Hf1. pose proof (Qlt_floor q) as Hf2.
  rewrite inject_Z_succ in Hf2.
  assert (Hup : (inject_Z (Qfloor q) + (1 # 2) <= q)%Q -> Qfloor q + 1 <= hi).
  { intros Hh. destruct (Z_lt_le_dec (Qfloor q) hi) as [? | Hge]; [lia |].
    exfalso. apply inject_Z_le_iff in Hge. lra. }
  assert (Hdn : (q <= inject_Z (Qfloor q) + (1 # 2))%Q -> lo <= Qfloor q).
  { intros Hh. destruct (Z_lt_le_dec (Qfloor q) lo) as [Hlt | Hge]; [| lia].
    exfalso. assert (Hc : Qfloor q + 1 <= lo) by lia.
    apply inject_Z_le_iff in Hc. rewrite inject_Z_succ in Hc. lra. }
  assert (Hfl : lo - 1 <= Qfloor q).
  { destruct (Z_lt_le_dec (Qfloor q) (lo - 1)) as [Hlt | Hge]; [| lia].
    exfalso. assert (Hc : Qfloor q + 1 + 1 <= lo) by lia.
    apply inject_Z_le_iff in Hc. rewrite !inject_Z_succ in Hc. lra. }
  assert (Hfh : Qfloor q <= hi).
  { destruct (Z_lt_le_dec hi (Qfloor q)) as [Hlt | Hge]; [| lia].
    exfalso. assert (Hc : hi + 1 <= Qfloor q) by lia.
    apply inject_Z_le_iff in Hc. rewrite inject_Z_succ in Hc. lra. }
  destruct (q ?= inject_Z (Qfloor q) + (1 # 2))%Q eqn:E.
  - apply (proj2 (Qeq_alt _ _)) in E.
    assert (lo <= Qfloor q) by (apply Hdn; lra).
    assert (Qfloor q + 1 <= hi) by (apply Hup; lra).
    destruct (Z.even (Qfloor q)); lia.
  - apply (proj2 (Qlt_alt _ _)) in E.
    assert (lo <= Qfloor q) by (apply Hdn; lra). lia.
  - apply (proj2 (Qgt_alt _ _)) in E.
    assert (Qfloor q + 1 <= hi) by (apply Hup; lra). lia.
Qed.

Lemma ToUint8Clamp_between (q : Q) (lo hi : Z) :
  0 <= lo -> hi <= 255 ->
  (inject_Z lo - (1 # 2) < q)%Q -> (q < inject_Z hi + (1 # 2))%Q ->
  lo <= ToUint8Clamp (Num q) <= hi.
Proof.
  intros Hl Hh Hlo Hhi. unfold ToUint8Clamp.
  assert (Hlh : lo <= hi).
  { destruct (Z_lt_le_dec hi lo) as [Hlt | Hge]; [| lia].
    exfalso. assert (Hc : hi + 1 <= lo) by lia.
    apply inject_Z_le_iff in Hc. rewrite inject_Z_succ in Hc. lra. }
  apply inject_Z_le_iff in Hl, Hh, Hlh.
  change (inject_Z 0) with 0%Q in Hl. change (inject_Z 255) with 255%Q in Hh.
  apply round_half_even_between.
  - destruct (Q.min_spec (Qmax q 0) 255) as [[_ ->] | [_ ->]];
      destruct (Q.max_spec q 0) as [[? E] | [? E]]; try rewrite E; lra.
  - destruct (Q.min_spec (Qmax q 0) 255) as [[? ->] | [? ->]];
      destruct (Q.max_spec q 0) as [[? E] | [? E]]; try rewrite E in *; lra.
Qed.

(** A convolution of numbers is a number: the weighted sum. *)
Lemma convolve_Num radius sample centre :
  (forall k, - kHalf_of radius <= k <= kHalf_of radius ->
     exists q, sample (centre + k) = Num q) ->
  convolve_at (TypedArray Float32Array (kernel_weights radius)) (kHalf_of radius)
              sample centre
  = Num (Qsum (fun k => (to_Q (sample (centre + k)%Z) * nw radius (k + kHalf_of radius)%Z)%Q)
              (seqZ (- kHalf_of radius) (kHalf_of radius * 2 + 1))).
Proof.
  intros Hs. unfold convolve_at, Qsum.
  rewrite <- (jadd_fold_Num
    (fun k => (to_Q (sample (centre + k)%Z) * nw radius (k + kHalf_of radius)%Z)%Q)).
  apply foldl_ext_in. intros acc k Hk. apply elem_of_seqZ in Hk.
  destruct (Hs k ltac:(lia)) as [q E]. rewrite E, kernel_get by lia. reflexivity.
Qed.

(** A convolution of numbers between [lo] and [hi] lies between [lo] and
    [hi] times the sum of the weights. *)
Lemma convolve_bounds radius sample centre (lo hi : Q) :
  (forall k, - kHalf_of radius <= k <= kHalf_of radius ->
     exists q, sample (centre + k) = Num q /\ (lo <= q <= hi)%Q) ->
  exists s,
    convolve_at (TypedArray Float32Array (kernel_weights radius)) (kHalf_of radius)
                sample centre = Num s /\
    (lo * Qsum (nw radius) (seqZ 0 (kLen_of radius)) <= s /\
     s <= hi * Qsum (nw radius) (seqZ 0 (kLen_of radius)))%Q.
Proof.
  intros Hs. eexists. split.
  { apply convolve_Num. intros k Hk. destruct (Hs k Hk) as (q & E & _). by exists q. }
  rewrite <- !conv_const_eq. unfold conv_const. split.
  - apply Qsum_le. intros k Hk. apply elem_of_seqZ in Hk.
    destruct (Hs k ltac:(lia)) as (q & -> & Hq1 & Hq2). cbn [to_Q].
    pose proof (nw_nonneg radius (k + kHalf_of radius)).
    rewrite !(Qmult_comm _ (nw radius _)). by apply Qmul_mono_l.
  - apply Qsum_le. intros k Hk. apply elem_of_seqZ in Hk.
    destruct (Hs k ltac:(lia)) as (q & -> & Hq1 & Hq2). cbn [to_Q].
    pose proof (nw_nonneg radius (k + kHalf_of radius)).
    rewrite !(Qmult_comm _ (nw radius _)). by apply Qmul_mono_l.
Qed.

(** The error of the float32 stores over both passes is too small to move
    a value out of the byte range it started in. *)
Lemma stored_row_sum_bounds (lo hi W hs : Q) :
  (0 <= lo -> 1 - eps32 <= W -> W <= 1 + eps32 ->
   lo * W <= hs -> hs <= hi * W ->
   lo * (1 - eps32) * (1 - eps32) <= Math_fround hs /\
   Math_fround hs <= hi * (1 + eps32) * (1 + eps32))%Q.
Proof.
  intros Hlo HW0 HW1 Hs0 Hs1.
  assert (Hlw : (lo * (1 - eps32) <= lo * W)%Q) by (apply Qmul_mono_l; lra).
  assert (Hhs0 : (0 <= hs)%Q).
  { unfold eps32 in *. assert (0 <= lo * (1 - (1 # 16777216)))%Q by nra. lra. }
  assert (Hhi : (0 <= hi)%Q).
  { unfold eps32 in *. nra. }
  assert (Hhw : (hi * W <= hi * (1 + eps32))%Q) by (apply Qmul_mono_l; lra).
  destruct (fround_bounds hs Hhs0) as [Hf0 Hf1].
  unfold eps32 in *. split; nra.
Qed.

Lemma column_sum_bounds (lo hi W vs : Q) :
  (0 <= lo -> lo <= hi -> hi <= 255 -> 1 - eps32 <= W -> W <= 1 + eps32 ->
   lo * (1 - eps32) * (1 - eps32) * W <= vs ->
   vs <= hi * (1 + eps32) * (1 + eps32) * W ->
   lo - (1 # 2) < vs /\ vs < hi + (1 # 2))%Q.
Proof.
  intros Hlo Hlh Hhi HW0 HW1 Hv0 Hv1. unfold eps32 in *.
  assert (H1 : (lo * (1 - (1 # 16777216)) * (1 - (1 # 16777216)) * (1 - (1 # 16777216))
                <= lo * (1 - (1 # 16777216)) * (1 - (1 # 16777216)) * W)%Q).
  { apply Qmul_mono_l; [nra | lra]. }
  assert (H2 : (hi * (1 + (1 # 16777216)) * (1 + (1 # 16777216)) * W
                <= hi * (1 + (1 # 16777216)) * (1 + (1 # 16777216)) * (1 + (1 # 16777216)))%Q).
  { apply Qmul_mono_l; [nra | lra]. }
  split; nra.
Qed.

Lemma in_window_clamped_row w h kHalf row col k :
  0 <= row < h -> 0 <= col < w -> - kHalf <= k <= kHalf ->
  in_window w h kHalf row col (clamp_to 0 (h - 1) (row + k)) col.
Proof. unfold in_window, clamp_to. lia. Qed.

Lemma in_window_clamped w h kHalf row col r k :
  in_window w h kHalf row col r col -> - kHalf <= k <= kHalf ->
  in_window w h kHalf row col r (clamp_to 0 (w - 1) (col + k)).
Proof. unfold in_window, clamp_to. lia. Qed.

(** The value of an output pixel of [blur_data] on a window of bounded
    values. *)
Lemma blur_data_range S w h radius row col ch (lo hi : Z) :
  length (ta_data S) = Z.to_nat (w * h * 4) ->
  0 <= row < h -> 0 <= col < w -> 0 <= ch < 4 ->
  0 <= lo -> hi <= 255 ->
  window_within S w h (kHalf_of radius) row col ch lo hi ->
  exists z,
    ta_get (blur_data S w h radius) (sample_index w row col ch) = Num (inject_Z z) /\
    lo <= z <= hi.
Proof.
  intros Hlen Hr Hc Hch Hlo Hhi Hwin.
  pose proof (nw_sum radius) as [HW0 HW1].
  set (W := Qsum (nw radius) (seqZ 0 (kLen_of radius))) in *.
  assert (Hlh : lo <= hi).
  { pose proof (kHalf_ge_3 radius).
    destruct (Hwin row col) as (q & _ & Hq1 & Hq2); [unfold in_window; lia |].
    apply inject_Z_le_iff. lra. }
  assert (Hlo' : (0 <= inject_Z lo)%Q).
  { change 0%Q with (inject_Z 0). by rewrite <- Zle_Qle. }
  assert (Hhi' : (inject_Z hi <= 255)%Q).
  { change 255%Q with (inject_Z 255). by rewrite <- Zle_Qle. }
  assert (Hlh' : (inject_Z lo <= inject_Z hi)%Q) by (by rewrite <- Zle_Qle).
  destruct (blur_data_spec S w h radius Hlen) as (_ & _ & Hv). cbn zeta in Hv.
  destruct (Hv row col ch Hr Hc Hch) as [_ EO].
  unfold sample_index. rewrite EO. unfold spec_vertical.
  edestruct (convolve_bounds radius) as (vs & -> & Hvs0 & Hvs1).
  { intros k Hk.
    pose proof (in_window_clamped_row w h _ row col k Hr Hc Hk) as Hin.
    assert (Hr' : 0 <= clamp_to 0 (h - 1) (row + k) < h) by apply Hin.
    destruct (Hv _ col ch Hr' Hc Hch) as [-> _]. unfold spec_horizontal.
    edestruct (convolve_bounds radius) as (hs & -> & Hhs0 & Hhs1).
    { intros k' Hk'. apply (Hwin _ _ (in_window_clamped _ _ _ _ _ _ k' Hin Hk')). }
    fold W in Hhs0, Hhs1. cbn [coerce]. eexists. split; [reflexivity |].
    apply (stored_row_sum_bounds _ _ W hs Hlo' HW0 HW1 Hhs0 Hhs1). }
  fold W in Hvs0, Hvs1. cbn [coerce].
  destruct (column_sum_bounds _ _ W vs Hlo' Hlh' Hhi' HW0 HW1 Hvs0 Hvs1) as [Hb0 Hb1].
  eexists. split; [reflexivity |]. by apply ToUint8Clamp_between.
Qed.

Lemma convolve_ext K kHalf sample sample' centre :
  (forall k, - kHalf <= k <= kHalf -> sample (centre + k) = sample' (centre + k)) ->
  convolve_at K kHalf sample centre = convolve_at K kHalf sample' centre.
Proof.
  intros Hs. unfold convolve_at. apply foldl_ext_in.
  intros acc k Hk. apply elem_of_seqZ in Hk. rewrite Hs by lia. reflexivity.
Qed.

(** An output pixel of [blur_data] depends on the window only. *)
Lemma blur_data_local S S' w h radius row col ch :
  length (ta_data S) = Z.to_nat (w * h * 4) ->
  length (ta_data S') = Z.to_nat (w * h * 4) ->
  0 <= row < h -> 0 <= col < w -> 0 <= ch < 4 ->
  window_agree S S' w h (kHalf_of radius) row col ch ->
  ta_get (blur_data S w h radius) (sample_index w row col ch)
  = ta_get (blur_data S' w h radius) (sample_index w row col ch).
Proof.
  intros Hlen Hlen' Hr Hc Hch Hwin.
  destruct (blur_data_spec S w h radius Hlen) as (_ & _ & Hv).
  destruct (blur_data_spec S' w h radius Hlen') as (_ & _ & Hv'). cbn zeta in Hv, Hv'.
  destruct (Hv row col ch Hr Hc Hch) as [_ EO].
  destruct (Hv' row col ch Hr Hc Hch) as [_ EO'].
  unfold sample_index. rewrite EO, EO'.
  apply (f_equal (coerce Uint8ClampedArray)). unfold spec_vertical.
  apply convolve_ext. intros k Hk.
  pose proof (in_window_clamped_row w h _ row col k Hr Hc Hk) as Hin.
  assert (Hr' : 0 <= clamp_to 0 (h - 1) (row + k) < h) by apply Hin.
  destruct (Hv _ col ch Hr' Hc Hch) as [-> _].
  destruct (Hv' _ col ch Hr' Hc Hch) as [-> _].
  f_equal. unfold spec_horizontal. apply convolve_ext. intros k' Hk'.
  apply (Hwin _ _ (in_window_clamped _ _ _ _ _ _ k' Hin Hk')).
Qed.

(** Entries no store of a pass writes to keep their value. *)
Lemma foldl_set4_untouched {X} (f : X -> Z) (v : X -> jsnum * jsnum * jsnum * jsnum)
    (xs : list X) (d : typed_array) (j : nat) :
  (forall x, x ∈ xs -> ~ (f x <= Z.of_nat j < f x + 4)) ->
  ta_data (foldl (fun d x => set4 d (f x) (v x)) d xs) !! j = ta_data d !! j.
Proof.
  revert d. induction xs as [| x xs IH]; intros d Hx; [done |].
  cbn [foldl]. rewrite IH.
  - rewrite set4_lookup. rewrite decide_False; [done |].
    intros [Hj _]. apply (Hx x); [left | done].
  - intros y Hy. apply Hx. by right.
Qed.

Lemma vpass_untouched K T kHalf w h d0 (j : nat) :
  w <= 0 \/ h <= 0 \/ w * h * 4 <= Z.of_nat j ->
  ta_data (vpass K T kHalf w h d0) !! j = ta_data d0 !! j.
Proof.
  intros Hout. unfold vpass. rewrite foldl_nested.
  apply (foldl_set4_untouched (fun p : Z * Z => (p.2 * w + p.1) * 4)
           (fun p => taps K T kHalf (v_idx w h p.2 p.1))).
  intros p Hp. apply elem_of_grid in Hp. destruct Hp as [Hc Hr].
  destruct Hout as [Hw | [Hh | Hbig]]; [lia | lia |]. nia.
Qed.

Lemma blur_data_untouched S w h radius (j : nat) :
  w <= 0 \/ h <= 0 \/ w * h * 4 <= Z.of_nat j ->
  (j < length (ta_data S))%nat ->
  ta_data (blur_data S w h radius) !! j = Some (Num 0).
Proof.
  intros Hout Hj. unfold blur_data. rewrite vpass_untouched by done.
  unfold zeros. cbn [ta_data]. by apply lookup_replicate_2.
Qed.

(** [sigma] does not go below 1: every radius up to 2.5 gives [sigma = 1]. *)
Lemma sigma_floor radius : (radius <= 5 # 2)%Q -> sigma_of radius = 1%Q.
Proof.
  intros Hr. unfold sigma_of, Qmax, GenericMinMax.gmax.
  destruct (1 ?= binary64 (radius / (5 # 2)))%Q eqn:E; [done | | done].
  exfalso. apply (proj2 (Qlt_alt _ _)) in E.
  assert (binary64 (radius / (5 # 2)) <= 1)%Q; [| lra].
  apply binary64_le_of_le; [reflexivity | apply binary64_1 |].
  change (radius / (5 # 2))%Q with (radius * (2 # 5))%Q. lra.
Qed.

(** ** Pixels of a region *)

Lemma pixel_at_bound w h row col :
  0 <= row < h -> 0 <= col < w ->
  Z.of_nat (pixel_at w row col) = row * w + col /\
  (pixel_at w row col < Z.to_nat w * Z.to_nat h)%nat.
Proof.
  intros Hr Hc. unfold pixel_at. split; [rewrite Z2Nat.id; nia |].
  rewrite <- Z2Nat.inj_mul by lia. apply Z2Nat.inj_lt; nia.
Qed.

Lemma pixel_centre_at w h row col :
  0 <= row < h -> 0 <= col < w ->
  pixel_centre w (pixel_at w row col)
  = (inject_Z col + (1 # 2), inject_Z row + (1 # 2))%Q.
Proof.
  intros Hr Hc. unfold pixel_centre.
  rewrite (proj1 (pixel_at_bound w h row col Hr Hc)).
  rewrite Z.add_comm, Z.mod_add by lia. rewrite Z.mod_small by lia.
  rewrite Z.div_add by lia. rewrite Z.div_small by lia. reflexivity.
Qed.

Lemma mask_bytes_length w h b :
  0 <= w -> 0 <= h ->
  length (image_bytes (maskCanvas_of w h b)) = Z.to_nat (w * h * 4).
Proof.
  intros Hw Hh. rewrite image_bytes_length, maskCanvas_length.
  rewrite (Z2Nat.inj_mul (w * h) 4) by nia. rewrite Z2Nat.inj_mul by lia. reflexivity.
Qed.

(** The opacity byte of the mask at a pixel: 255 where the ellipse covers
    the centre, 0 elsewhere. *)
Lemma mask_alpha_byte w h b row col :
  0 <= row < h -> 0 <= col < w ->
  ta_get (TypedArray Uint8ClampedArray (image_bytes (maskCanvas_of w h b)))
         (sample_index w row col 3)
  = Num (inject_Z (if in_ellipseb (maskEllipse (expandBox w h b))
                                  (inject_Z col + (1 # 2)) (inject_Z row + (1 # 2))
                   then 255 else 0)).
Proof.
  intros Hr Hc. destruct (pixel_at_bound w h row col Hr Hc) as [Ei Hi].
  unfold sample_index. rewrite <- Ei.
  replace (Z.of_nat (pixel_at w row col) * 4 + 3)
    with (Z.of_nat (pixel_at w row col * 4 + 3)%nat) by lia.
  rewrite ta_get_nat. cbn [ta_data].
  rewrite (image_bytes_lookup _ _ 3 _ (maskCanvas_pixel w h b _ Hi)) by lia.
  rewrite (pixel_centre_at w h row col Hr Hc). cbn [fst snd].
  destruct (in_ellipseb _ _ _); reflexivity.
Qed.

Lemma inject_Z_abs_bounds (a b R : Z) :
  Z.abs (a - b) <= R ->
  (inject_Z b - inject_Z R <= inject_Z a /\ inject_Z a <= inject_Z b + inject_Z R)%Q.
Proof.
  intros H. rewrite <- inject_Z_plus.
  assert (E : (inject_Z b - inject_Z R == inject_Z (b - R))%Q).
  { unfold Z.sub. rewrite inject_Z_plus, inject_Z_opp. reflexivity. }
  rewrite E. rewrite <- !Zle_Qle. lia.
Qed.

Lemma far_not_covered w h b row col r c :
  out_of_reach w h b row col ->
  in_window w h featherReach row col r c ->
  ~ in_ellipse (maskEllipse (expandBox w h b))
               (inject_Z c + (1 # 2)) (inject_Z r + (1 # 2)).
Proof.
  intros [_ Hfar] (_ & _ & Hrr & Hcc) Hin. cbn zeta in Hfar.
  apply in_ellipse_box in Hin.
  unfold maskEllipse in Hin. cbn [e_cx e_cy e_rx e_ry] in Hin.
  rewrite !Qhalf in Hin. destruct Hin as [[Hx1 Hx2] [Hy1 Hy2]].
  destruct (inject_Z_abs_bounds _ _ _ Hrr) as [Hr1 Hr2].
  destruct (inject_Z_abs_bounds _ _ _ Hcc) as [Hc1 Hc2].
  set (e := expandBox w h b) in *. clearbody e.
  set (R := inject_Z featherReach) in *. clearbody R.
  destruct Hfar as [H | [H | [H | H]]].
  - clear - H Hx1 Hc2. lra.
  - clear - H Hx2 Hc1. lra.
  - clear - H Hy1 Hr2. lra.
  - clear - H Hy2 Hr1. lra.
Qed.

(** The feathered mask is fully transparent out of reach of the region. *)
Lemma mask_alpha_far w h b row col :
  0 <= row < h -> 0 <= col < w ->
  out_of_reach w h b row col ->
  mask_alpha w h b (pixel_at w row col) = 0%Q.
Proof.
  intros Hr Hc Hfar. unfold mask_alpha, feathered_of.
  rewrite (proj1 (pixel_at_bound w h row col Hr Hc)).
  destruct (blur_data_range
              (TypedArray Uint8ClampedArray (image_bytes (maskCanvas_of w h b)))
              w h FEATHER_RADIUS row col 3 0 0) as (z & Ez & Hz); try lia.
  - cbn [ta_data]. apply mask_bytes_length; lia.
  - intros r c Hin. pose proof Hin as (Hr' & Hc' & _).
    rewrite (mask_alpha_byte w h b r c Hr' Hc').
    destruct (in_ellipseb _ _ _) eqn:E.
    + exfalso. apply in_ellipseb_spec in E.
      by apply (far_not_covered w h b row col r c).
    + eexists. split; [reflexivity |]. split; apply Qle_refl.
  - unfold sample_index in Ez. rewrite Ez. assert (z = 0) as -> by lia. reflexivity.
Qed.

(** It is fully opaque where the ellipse covers the whole window. *)
Lemma mask_alpha_covered w h b row col :
  0 <= row < h -> 0 <= col < w ->
  window_covered w h b row col ->
  mask_alpha w h b (pixel_at w row col) = 255%Q.
Proof.
  intros Hr Hc Hcov. unfold mask_alpha, feathered_of.
  rewrite (proj1 (pixel_at_bound w h row col Hr Hc)).
  destruct (blur_data_range
              (TypedArray Uint8ClampedArray (image_bytes (maskCanvas_of w h b)))
              w h FEATHER_RADIUS row col 3 255 255) as (z & Ez & Hz); try lia.
  - cbn [ta_data]. apply mask_bytes_length; lia.
  - intros r c Hin. pose proof Hin as (Hr' & Hc' & _).
    rewrite (mask_alpha_byte w h b r c Hr' Hc').
    destruct (in_ellipseb _ _ _) eqn:E.
    + eexists. split; [reflexivity |]. split; apply Qle_refl.
    + exfalso. apply Hcov in Hin. apply in_ellipseb_spec in Hin. congruence.
  - unfold sample_index in Ez. rewrite Ez. assert (z = 255) as -> by lia. reflexivity.
Qed.

Lemma stencil_over_0 o b : pixel_eq (stencil_over o b (0 / 255)) o.
Proof. unfold pixel_eq, stencil_over. cbn [pr pg pb pa]. repeat split; field. Qed.

Lemma stencil_over_1 o b :
  pixel_eq (stencil_over o b (255 / 255)) (composite source_over o b).
Proof.
  unfold pixel_eq, stencil_over, composite. cbn [pr pg pb pa]. repeat split; field.
Qed.

Lemma pixel_eq_refl p : pixel_eq p p.
Proof. unfold pixel_eq. repeat split; reflexivity. Qed.

Lemma pixel_eq_sym p q : pixel_eq p q -> pixel_eq q p.
Proof. unfold pixel_eq. intros (H1 & H2 & H3 & H4). repeat split; by symmetry. Qed.

(** The pipeline is a fold of the iterations, with or without regions. *)
Lemma blurFaces_fold img detections (st : heap) :
  exists st',
    blurFaces img detections st
    = (foldl (face_step (cv_width img) (cv_height img) (blurred_of img))
             (drawImage source_over
                (createCanvas (cv_width img) (cv_height img)) img)
             detections, st').
Proof.
  destruct detections as [| det dets].
  - exists st. apply blurFaces_nil.
  - by apply blurFaces_run.
Qed.

Lemma face_step_shape w h blurredCanvas ctx det :
  cv_width (face_step w h blurredCanvas ctx det) = cv_width ctx /\
  cv_height (face_step w h blurredCanvas ctx det) = cv_height ctx /\
  length (cv_pixels (face_step w h blurredCanvas ctx det)) = length (cv_pixels ctx).
Proof. unfold face_step. split; [done |]. split; [done |]. apply drawImage_length. Qed.

Lemma face_steps_shape w h blurredCanvas dets ctx :
  cv_width (foldl (face_step w h blurredCanvas) ctx dets) = cv_width ctx /\
  cv_height (foldl (face_step w h blurredCanvas) ctx dets) = cv_height ctx /\
  length (cv_pixels (foldl (face_step w h blurredCanvas) ctx dets))
  = length (cv_pixels ctx).
Proof.
  revert ctx. induction dets as [| det dets IH]; intros ctx; [done |].
  cbn [foldl]. destruct (IH (face_step w h blurredCanvas ctx det)) as (-> & -> & ->).
  apply face_step_shape.
Qed.

(** A property of a pixel that every iteration keeps holds at the end. *)
Lemma face_steps_pixel (P : pixel -> Prop) w h blurredCanvas dets (i : nat) b :
  (i < Z.to_nat w * Z.to_nat h)%nat ->
  cv_pixels blurredCanvas !! i = Some b ->
  (forall det o, det ∈ dets -> P o ->
     P (stencil_over o b (mask_alpha w h (box (detection det)) i / 255))) ->
  (forall p q, pixel_eq p q -> P q -> P p) ->
  forall ctx o, cv_pixels ctx !! i = Some o -> P o ->
    exists p, cv_pixels (foldl (face_step w h blurredCanvas) ctx dets) !! i = Some p /\
              P p.
Proof.
  intros Hi Hb Hstep Hcomp. induction dets as [| det dets IH]; intros ctx o Ho HP.
  - by exists o.
  - cbn [foldl].
    destruct (face_step_pixel w h blurredCanvas ctx det i o b Hi Ho Hb) as (p & Hp & Hpe).
    eapply IH; [| exact Hp |].
    + intros d q Hd. apply Hstep. by right.
    + apply (Hcomp _ _ Hpe). apply Hstep; [left | done].
Qed.

(** The main canvas after the image is drawn on it. *)
Lemma drawn_pixel w h img (i : nat) o :
  (i < Z.to_nat w * Z.to_nat h)%nat ->
  cv_pixels img !! i = Some o ->
  exists p, cv_pixels (drawImage source_over (createCanvas w h) img) !! i = Some p /\
            pixel_eq p o.
Proof.
  intros Hi Ho. eexists. split.
  - erewrite drawImage_lookup by (by apply createCanvas_lookup). rewrite Ho. reflexivity.
  - unfold pixel_eq, composite, transparent. cbn [pr pg pb pa default from_option id].
    repeat split; ring.
Qed.

(** ** Images of one colour *)

Lemma solid_wf w h r g b : 0 <= w -> 0 <= h -> canvas_wf (solid w h r g b).
Proof.
  intros Hw Hh. unfold canvas_wf, solid. cbn [cv_width cv_height cv_pixels].
  split; [done |]. split; [done |]. apply length_replicate.
Qed.

Lemma fmap_concat_replicate {A B} (f : A -> B) (n : nat) (l : list A) :
  f <$> concat (replicate n l) = concat (replicate n (f <$> l)).
Proof.
  induction n as [| n IH]; [done |]. cbn [replicate concat]. by rewrite fmap_app, IH.
Qed.

Lemma byte_round_trip (c : Z) :
  is_byte c -> ToUint8Clamp (Num (inject_Z c / 255 / 1 * 255)) = c.
Proof.
  intros Hc. rewrite (ToUint8Clamp_comp _ (inject_Z c)) by field.
  apply ToUint8Clamp_near; [done | lra | lra].
Qed.

Lemma solid_pixel_bytes r g b :
  is_byte r -> is_byte g -> is_byte b ->
  coerce Uint8ClampedArray <$> straight_bytes (solid_pixel r g b)
  = pixel_bytes (r, g, b, 255).
Proof.
  intros Hr Hg Hb. unfold straight_bytes, solid_pixel. cbn [pa pr pg pb].
  change (Qeq_bool 1 0) with false. cbn [fmap list_fmap coerce pixel_bytes].
  rewrite !byte_round_trip by done. reflexivity.
Qed.

Lemma solid_bytes w h r g b :
  0 <= w -> 0 <= h -> is_byte r -> is_byte g -> is_byte b ->
  image_bytes (solid w h r g b) = uniform_buffer w h (r, g, b, 255).
Proof.
  intros Hw Hh Hr Hg Hb. unfold image_bytes, solid, uniform_buffer. cbn [cv_pixels].
  rewrite fmap_replicate, fmap_concat_replicate, solid_pixel_bytes by done.
  by rewrite Z2Nat.inj_mul.
Qed.

(** The blurred image of a one-colour image has that colour everywhere. *)
Lemma solid_blurred_pixel w h r g b (i : nat) p :
  0 <= w -> 0 <= h -> is_byte r -> is_byte g -> is_byte b ->
  cv_pixels (blurred_of (solid w h r g b)) !! i = Some p ->
  pixel_eq p (solid_pixel r g b).
Proof.
  intros Hw Hh Hr Hg Hb Hp.
  assert (Hi : (i < Z.to_nat w * Z.to_nat h)%nat).
  { apply lookup_lt_Some in Hp. by rewrite blurred_of_length in Hp. }
  unfold blurred_of in Hp. change (cv_width (solid w h r g b)) with w in Hp.
  change (cv_height (solid w h r g b)) with h in Hp.
  rewrite (image_bytes_comp _ (solid w h r g b)) in Hp
    by (apply (draw_on_fresh_canvas (solid w h r g b)); by apply solid_wf).
  rewrite solid_bytes in Hp by done.
  rewrite blur_data_uniform in Hp by (try done; repeat split; try apply Hr;
    try apply Hg; try apply Hb; lia).
  destruct (drawn_pixel w h (solid w h r g b) i (solid_pixel r g b) Hi) as (p0 & Hp0 & _).
  { unfold solid. cbn [cv_pixels]. by apply lookup_replicate_2. }
  rewrite (canvas_of_bytes_lookup _ _ _ _ Hp0) in Hp. injection Hp as <-.
  destruct (pixel_of_index w h i Hw Hh Hi) as (Hrow & Hcol & Ei).
  replace (Z.of_nat i * 4) with ((Z.of_nat i / w * w + Z.of_nat i mod w) * 4 + 0) by lia.
  replace ((Z.of_nat i / w * w + Z.of_nat i mod w) * 4 + 0 + 1)
    with ((Z.of_nat i / w * w + Z.of_nat i mod w) * 4 + 1) by lia.
  replace ((Z.of_nat i / w * w + Z.of_nat i mod w) * 4 + 0 + 2)
    with ((Z.of_nat i / w * w + Z.of_nat i mod w) * 4 + 2) by lia.
  replace ((Z.of_nat i / w * w + Z.of_nat i mod w) * 4 + 0 + 3)
    with ((Z.of_nat i / w * w + Z.of_nat i mod w) * 4 + 3) by lia.
  rewrite !(uniform_get w h) by (done || lia).
  change (chanZ 0 (r, g, b, 255)) with r. change (chanZ 1 (r, g, b, 255)) with g.
  change (chanZ 2 (r, g, b, 255)) with b. change (chanZ 3 (r, g, b, 255)) with 255.
  unfold pixel_eq, premultiplied, solid_pixel. cbn [to_Q pr pg pb pa].
  change (inject_Z 255) with 255%Q. repeat split; field.
Qed.

Lemma stencil_over_same o b px t :
  pixel_eq o px -> pixel_eq b px -> (pa px == 1)%Q ->
  pixel_eq (stencil_over o b t) px.
Proof.
  unfold pixel_eq, stencil_over. cbn [pr pg pb pa].
  intros (O1 & O2 & O3 & O4) (B1 & B2 & B3 & B4) Ha.
  rewrite O1, O2, O3, O4, B1, B2, B3, B4, Ha. repeat split; ring.
Qed.

Lemma stencil_over_alpha o b t :
  (pa o == 1)%Q -> (pa b == 1)%Q -> (pa (stencil_over o b t) == 1)%Q.
Proof. intros Ho Hb. unfold stencil_over. cbn [pa]. rewrite Ho, Hb. ring. Qed.

(** ** Strings and arguments *)

Lemma substring_all (s : string) : String.substring 0 (String.length s) s = s.
Proof. induction s as [| c s IH]; [done |]. cbn. by rewrite IH. Qed.

Lemma String_replace_file_prefix (s : string) :
  String_replace ("file://" +:+ s) "file://" "" = s.
Proof.
  unfold String.append. cbn. unfold String.append.
  replace (String.prefix "" s) with true by (by destruct s).
  rewrite Nat.sub_0_r. apply substring_all.
Qed.

Lemma defaultOutput_nonempty `{NodeHost} inputFile : defaultOutput inputFile <> "".
Proof. unfold defaultOutput, String.append. discriminate. Qed.

Lemma or_else_nonempty a b : b <> "" -> or_else a b <> "".
Proof. intros Hb. unfold or_else. destruct a as [s |]; [by case_decide | done]. Qed.

(** ** The ellipse and the detector's box *)

Lemma in_ellipse_comp cx cy rx ry cx' cy' rx' ry' px py :
  (cx == cx' -> cy == cy' -> rx == rx' -> ry == ry' ->
   (in_ellipse (Ellipse cx cy rx ry) px py
    <-> in_ellipse (Ellipse cx' cy' rx' ry') px py))%Q.
Proof.
  intros E1 E2 E3 E4. unfold in_ellipse. cbn [e_cx e_cy e_rx e_ry].
  rewrite E1, E2, E3, E4. reflexivity.
Qed.

(** The ellipse of a region whose padded box lies on the canvas: centred
    half a width right of [x] and 0.45 heights below [y], with radii 0.7
    widths and 0.75 heights. *)
Lemma unclamped_ellipse w h b px py :
  padded_box_fits w h b ->
  in_ellipse (maskEllipse (expandBox w h b)) px py
  <-> in_ellipse (Ellipse (box_x b + box_width b * (1 # 2))
                          (box_y b + box_height b * (9 # 20))
                          (box_width b * (7 # 10)) (box_height b * (3 # 4))) px py.
Proof.
  intros (Hw & Hh & Hx & Hy & Hx1 & Hy1). cbn zeta in Hx, Hy, Hx1, Hy1.
  unfold maskEllipse, expandBox. cbn [fx fy fw fh].
  destruct b as [x y bw bh]. cbn [box_x box_y box_width box_height] in *.
  assert (Ex : (Qmax 0 (x - bw * (1 # 5)) == x - bw * (1 # 5))%Q) by (by apply Q.max_r).
  assert (Ey : (Qmax 0 (y - bh * (1 # 5) * (3 # 2)) == y - bh * (1 # 5) * (3 # 2))%Q)
    by (by apply Q.max_r).
  assert (Ew : (Qmin (inject_Z w - Qmax 0 (x - bw * (1 # 5))) (bw + bw * (1 # 5) * 2)
                == bw + bw * (1 # 5) * 2)%Q).
  { apply Q.min_r. rewrite Ex. clear - Hx1. lra. }
  assert (Eh : (Qmin (inject_Z h - Qmax 0 (y - bh * (1 # 5) * (3 # 2)))
                     (bh + bh * (1 # 5) * (5 # 2))
                == bh + bh * (1 # 5) * (5 # 2))%Q).
  { apply Q.min_r. rewrite Ey. clear - Hy1. lra. }
  apply in_ellipse_comp.
  - rewrite Ew, Ex. field.
  - rewrite Eh, Ey. field.
  - rewrite Ew. field.
  - rewrite Eh. field.
Qed.

(** ** Opacity of the feathered mask *)

Lemma mask_alpha_range w h b (i : nat) : (0 <= mask_alpha w h b i <= 255)%Q.
Proof.
  unfold mask_alpha, feathered_of.
  replace (Z.of_nat i * 4 + 3) with (Z.of_nat (i * 4 + 3)%nat) by lia.
  rewrite ta_get_nat.
  pose proof (blur_data_bytes
    (TypedArray Uint8ClampedArray (image_bytes (maskCanvas_of w h b)))
    w h FEATHER_RADIUS) as Hb.
  destruct (ta_data _ !! _) as [v |] eqn:E; cbn [default from_option id to_Q].
  - destruct (proj1 (Forall_lookup _ _) Hb _ _ E) as (z & -> & Hz0 & Hz1). cbn [to_Q].
    split.
    + change 0%Q with (inject_Z 0). by rewrite <- Zle_Qle.
    + change 255%Q with (inject_Z 255). by rewrite <- Zle_Qle.
  - split; discriminate.
Qed.

Lemma lerp_between (a b t : Q) :
  (0 <= t -> t <= 1 -> between a b (lerp a b t))%Q.
Proof.
  intros Ht0 Ht1. unfold between, lerp.
  destruct (Q.min_spec a b) as [[Hab ->] | [Hab ->]];
    destruct (Q.max_spec a b) as [[Hab' ->] | [Hab' ->]]; split; nra.
Qed.

Lemma between_comp (a b x y : Q) : (x == y)%Q -> between a b y -> between a b x.
Proof. intros E [H1 H2]. unfold between. rewrite E. done. Qed.

(** ** Feathering a hard edge *)
















Section Edges.

(** What the edge bounds use of [Math.exp] beyond positivity: it is at
    most 1 on the arguments up to 0 and at least 1/2 from -1/2 on (the
    exponential of -1/2 is 0.6065...). *)
Hypothesis exp_le_1 : forall x, (x <= 0 -> Math_exp x <= 1)%Q.
Hypothesis exp_ge_half : forall x, (- (1 # 2) <= x -> 1 # 2 <= Math_exp x)%Q.















End Edges.

(** ** The inside of a region *)

(** The midpoint of two points of the ellipse is a point of the ellipse. *)
Lemma in_ellipse_midpoint e x1 y1 x2 y2 :
  in_ellipse e x1 y1 -> in_ellipse e x2 y2 ->
  in_ellipse e ((x1 + x2) * (1 # 2)) ((y1 + y2) * (1 # 2)).
Proof.
  destruct e as [cx cy rx ry]. unfold in_ellipse. cbn [e_cx e_cy e_rx e_ry].
  intros (Hrx & Hry & H1) (_ & _ & H2). split; [done |]. split; [done |].
  set (u1 := (x1 - cx)%Q) in *. set (u2 := (x2 - cx)%Q) in *.
  set (v1 := (y1 - cy)%Q) in *. set (v2 := (y2 - cy)%Q) in *.
  assert (Eu : ((x1 + x2) * (1 # 2) - cx == (u1 + u2) * (1 # 2))%Q) by (unfold u1, u2; ring).
  assert (Ev : ((y1 + y2) * (1 # 2) - cy == (v1 + v2) * (1 # 2))%Q) by (unfold v1, v2; ring).
  rewrite Eu, Ev. clearbody u1 u2 v1 v2.
  assert (Hu : ((u1 + u2) * (1 # 2) * ((u1 + u2) * (1 # 2))
                <= (u1 * u1 + u2 * u2) * (1 # 2))%Q).
  { pose proof (Qsquare_nonneg (u1 - u2)). nra. }
  assert (Hv : ((v1 + v2) * (1 # 2) * ((v1 + v2) * (1 # 2))
                <= (v1 * v1 + v2 * v2) * (1 # 2))%Q).
  { pose proof (Qsquare_nonneg (v1 - v2)). nra. }
  assert (Hr2 : (0 <= rx * rx)%Q) by nra. assert (Hs2 : (0 <= ry * ry)%Q) by nra.
  set (A := (rx * rx)%Q) in *. set (B := (ry * ry)%Q) in *. clearbody A B.
  set (U := ((u1 + u2) * (1 # 2) * ((u1 + u2) * (1 # 2)))%Q) in *.
  set (V := ((v1 + v2) * (1 # 2) * ((v1 + v2) * (1 # 2)))%Q) in *.
  clearbody U V. nra.
Qed.

(** A window of whole pixels inside the ellipse is a window of covered
    pixel centres. *)
Lemma window_inside_covered w h b row col :
  window_inside w h b row col -> window_covered w h b row col.
Proof.
  intros Hin r c Hrc.
  pose proof (Hin r c Hrc 0 0 ltac:(lia) ltac:(lia)) as H00.
  pose proof (Hin r c Hrc 1 1 ltac:(lia) ltac:(lia)) as H11.
  pose proof (in_ellipse_midpoint _ _ _ _ _ H00 H11) as Hm.
  destruct Hm as (Hrx & Hry & Hm). split; [done |]. split; [done |].
  rewrite !Z.add_0_r, !inject_Z_plus in Hm.
  assert (Ec : ((inject_Z c + (inject_Z c + inject_Z 1)) * (1 # 2) == inject_Z c + (1 # 2))%Q).
  { change (inject_Z 1) with 1%Q. ring. }
  assert (Er : ((inject_Z r + (inject_Z r + inject_Z 1)) * (1 # 2) == inject_Z r + (1 # 2))%Q).
  { change (inject_Z 1) with 1%Q. ring. }
  rewrite Ec, Er in Hm. exact Hm.
Qed.

(** ** Further properties of the blur *)

(** X1: no overshoot. When channel [ch] of a [w] x [h] source buffer holds
    numbers between the bytes [lo] and [hi] on the window of a pixel (the
    pixels at most [kHalf] rows and columns away), the blur stores for
    that pixel and channel a byte between [lo] and [hi]. In particular
    the output never leaves the range of the source, and a pixel whose
    window has one value keeps it. Relies on [Math.exp] being positive
    and on float32 stores having relative error at most 2^-24. *)
Theorem blur_output_within_window_range src w h radius (st : heap) S row col ch lo hi :
  st !! src = Some S ->
  length (ta_data S) = Z.to_nat (w * h * 4) ->
  0 <= row < h -> 0 <= col < w -> 0 <= ch < 4 ->
  0 <= lo -> hi <= 255 ->
  window_within S w h (kHalf_of radius) row col ch lo hi ->
  exists out st' O z,
    separableGaussianBlur src w h radius st = (out, st') /\
    st' !! out = Some O /\
    ta_get O (sample_index w row col ch) = Num (inject_Z z) /\
    lo <= z <= hi.
Proof.
  intros HS Hlen Hr Hc Hch Hlo Hhi Hwin.
  destruct (blur_data_run src w h radius st S HS) as (out & st' & Hrun & HO).
  destruct (blur_data_range S w h radius row col ch lo hi) as (z & Ez & Hz); try done.
  by exists out, st', (blur_data S w h radius), z.
Qed.

(** X2: locality. The value the blur stores for a pixel and a channel
    depends only on that channel of the source on the window of the pixel:
    two sources of the same size that agree there give the same value,
    whatever they hold elsewhere and in the other channels. *)
Theorem blur_output_depends_on_window_only
    src src' w h radius (st st' : heap) S S' row col ch :
  st !! src = Some S -> st' !! src' = Some S' ->
  length (ta_data S) = Z.to_nat (w * h * 4) ->
  length (ta_data S') = Z.to_nat (w * h * 4) ->
  0 <= row < h -> 0 <= col < w -> 0 <= ch < 4 ->
  window_agree S S' w h (kHalf_of radius) row col ch ->
  exists out st1 O out' st1' O',
    separableGaussianBlur src w h radius st = (out, st1) /\
    st1 !! out = Some O /\
    separableGaussianBlur src' w h radius st' = (out', st1') /\
    st1' !! out' = Some O' /\
    ta_get O (sample_index w row col ch) = ta_get O' (sample_index w row col ch).
Proof.
  intros HS HS' Hlen Hlen' Hr Hc Hch Hwin.
  destruct (blur_data_run src w h radius st S HS) as (out & st1 & Hrun & HO).
  destruct (blur_data_run src' w h radius st' S' HS') as (out' & st1' & Hrun' & HO').
  exists out, st1, (blur_data S w h radius), out', st1', (blur_data S' w h radius).
  split; [exact Hrun |]. split; [exact HO |]. split; [exact Hrun' |].
  split; [exact HO' |]. by apply blur_data_local.
Qed.

(** X3: the blur stores into the first [w * h * 4] entries of its result
    only. The result has the length of the source; every entry from index
    [w * h * 4] on is 0, and when [w] or [h] is not positive the whole
    result is zeros. *)
Theorem blur_leaves_entries_beyond_image_zero src w h radius (st : heap) S (j : nat) :
  st !! src = Some S ->
  (j < length (ta_data S))%nat ->
  w <= 0 \/ h <= 0 \/ w * h * 4 <= Z.of_nat j ->
  exists out st' O,
    separableGaussianBlur src w h radius st = (out, st') /\
    st' !! out = Some O /\
    length (ta_data O) = length (ta_data S) /\
    ta_data O !! j = Some (Num 0).
Proof.
  intros HS Hj Hout.
  destruct (blur_data_run src w h radius st S HS) as (out & st' & Hrun & HO).
  exists out, st', (blur_data S w h radius).
  split; [done |]. split; [done |]. split; [apply blur_data_length |].
  by apply blur_data_untouched.
Qed.

(** X4: the blur has a least strength. [sigma] is at least 1, so every
    radius up to 2.5, zero and negative ones included, gives the result of
    radius 2.5, computed with a kernel of 7 weights: radius 0 does not
    return the source unblurred. *)
Theorem blur_radius_floor src w h radius (st : heap) :
  (radius <= 5 # 2)%Q ->
  separableGaussianBlur src w h radius st
  = separableGaussianBlur src w h (5 # 2) st /\
  kLen_of radius = 7.
Proof.
  intros Hr. pose proof (sigma_floor radius Hr) as E.
  pose proof (sigma_floor (5 # 2) ltac:(apply Qle_refl)) as E'.
  split.
  - unfold separableGaussianBlur, gaussKernel, kHalf_of. by rewrite E, E'.
  - unfold kLen_of, kHalf_of. rewrite E. reflexivity.
Qed.

(** X5: every weight of the kernel is a positive number: the sum the
    weights are divided by is never zero, so no weight is NaN, and the
    kernel has no negative lobe. Relies on [Math.exp] being positive and
    on float32 stores having relative error at most 2^-24. *)
Theorem kernel_weights_are_positive radius (st : heap) :
  exists kernel st' weights,
    gaussKernel radius st = (kernel, st') /\
    st' !! kernel = Some (TypedArray Float32Array weights) /\
    Forall (fun v => exists q, v = Num q /\ (0 < q)%Q) weights.
Proof.
  eexists (fresh (dom st)), _, (kernel_weights radius).
  split; [apply gaussKernel_run |]. split; [apply lookup_insert_eq |].
  rewrite kernel_weights_Num. apply Forall_fmap, Forall_forall. intros i _.
  eexists. split; [reflexivity |]. unfold nw. apply fround_pos.
  apply Qlt_shift_div_l; [apply ksum_pos |].
  pose proof (rw_pos radius i). lra.
Qed.

(** ** Further properties of the pipeline *)

(** X7: the ellipse of the mask covers the two upper corners of the
    detector's box and neither of its two lower corners, for every region
    whose padded box lies on the canvas: the box is padded by 0.3 heights
    above and 0.2 below, and the ellipse inscribed in the padded box leaves
    the lower corners of the face box to the feathering. *)
Theorem mask_ellipse_covers_upper_corners_only w h b :
  padded_box_fits w h b ->
  let e := maskEllipse (expandBox w h b) in
  in_ellipse e (box_x b) (box_y b) /\
  in_ellipse e (box_x b + box_width b) (box_y b) /\
  ~ in_ellipse e (box_x b) (box_y b + box_height b) /\
  ~ in_ellipse e (box_x b + box_width b) (box_y b + box_height b).
Proof.
  intros Hfit e. unfold e.
  rewrite !(unclamped_ellipse w h b _ _ Hfit).
  destruct Hfit as (Hw & Hh & _). destruct b as [x y bw bh].
  cbn [box_x box_y box_width box_height] in *.
  unfold in_ellipse. cbn [e_cx e_cy e_rx e_ry].
  assert (Hm : (0 < bw * bw * (bh * bh))%Q).
  { apply Qmult_lt_0_compat; apply Qmult_lt_0_compat; done. }
  set (m := (bw * bw * (bh * bh))%Q) in *.
  assert (Hrx : (0 < bw * (7 # 10))%Q) by (clear - Hw; lra).
  assert (Hry : (0 < bh * (3 # 4))%Q) by (clear - Hh; lra).
  assert (Er : (bw * (7 # 10) * (bw * (7 # 10)) * (bh * (3 # 4) * (bh * (3 # 4)))
                == (441 # 1600) * m)%Q) by (unfold m; ring).
  assert (Eu : forall px, ((px - (x + bw * (1 # 2))) * (px - (x + bw * (1 # 2)))
                           == bw * bw * (1 # 4) ->
            (px - (x + bw * (1 # 2))) * (px - (x + bw * (1 # 2)))
              * (bh * (3 # 4) * (bh * (3 # 4)))
            + (y - (y + bh * (9 # 20))) * (y - (y + bh * (9 # 20)))
              * (bw * (7 # 10) * (bw * (7 # 10)))
            == (9 # 64) * m + (3969 # 40000) * m)%Q).
  { intros px E. rewrite E. unfold m. ring. }
  assert (El : forall px, ((px - (x + bw * (1 # 2))) * (px - (x + bw * (1 # 2)))
                           == bw * bw * (1 # 4) ->
            (px - (x + bw * (1 # 2))) * (px - (x + bw * (1 # 2)))
              * (bh * (3 # 4) * (bh * (3 # 4)))
            + (y + bh - (y + bh * (9 # 20))) * (y + bh - (y + bh * (9 # 20)))
              * (bw * (7 # 10) * (bw * (7 # 10)))
            == (9 # 64) * m + (5929 # 40000) * m)%Q).
  { intros px E. rewrite E. unfold m. ring. }
  assert (E0 : ((x - (x + bw * (1 # 2))) * (x - (x + bw * (1 # 2)))
                == bw * bw * (1 # 4))%Q) by ring.
  assert (E1 : ((x + bw - (x + bw * (1 # 2))) * (x + bw - (x + bw * (1 # 2)))
                == bw * bw * (1 # 4))%Q) by ring.
  clearbody m.
  split; [| split; [| split]].
  - split; [done |]. split; [done |]. rewrite (Eu _ E0), Er. clear - Hm. lra.
  - split; [done |]. split; [done |]. rewrite (Eu _ E1), Er. clear - Hm. lra.
  - intros (_ & _ & H). rewrite (El _ E0), Er in H. clear - Hm H. lra.
  - intros (_ & _ & H). rewrite (El _ E1), Er in H. clear - Hm H. lra.
Qed.

(** X8: the saved bitmap has the width and the height of the decoded
    image, and one pixel for each position, whatever the regions. *)
Theorem blurFaces_keeps_dimensions img detections (st : heap) :
  exists out st',
    blurFaces img detections st = (out, st') /\
    cv_width out = cv_width img /\
    cv_height out = cv_height img /\
    length (cv_pixels out)
    = (Z.to_nat (cv_width img) * Z.to_nat (cv_height img))%nat.
Proof.
  destruct (blurFaces_fold img detections st) as [st' Hrun].
  eexists _, st'. split; [exact Hrun |].
  destruct (face_steps_shape (cv_width img) (cv_height img) (blurred_of img) detections
              (drawImage source_over (createCanvas (cv_width img) (cv_height img)) img))
    as (-> & -> & ->).
  split; [done |]. split; [done |].
  by rewrite drawImage_length, createCanvas_length.
Qed.

(** X9: an image without transparency stays without transparency: every
    pixel of the saved bitmap is opaque, whatever the regions. Relies on
    [Math.exp] being positive and on float32 stores having relative error
    at most 2^-24. *)
Theorem blurFaces_keeps_opaque img detections (st : heap) :
  canvas_wf img -> opaque img ->
  exists out st', blurFaces img detections st = (out, st') /\ opaque out.
Proof.
  intros Hwf Hop. destruct (blurFaces_fold img detections st) as [st' Hrun].
  eexists _, st'. split; [exact Hrun |].
  set (w := cv_width img) in *. set (h := cv_height img) in *.
  unfold opaque. apply Forall_lookup_2. intros i p Hp.
  assert (Hi : (i < Z.to_nat w * Z.to_nat h)%nat).
  { apply lookup_lt_Some in Hp.
    destruct (face_steps_shape w h (blurred_of img) detections
                (drawImage source_over (createCanvas w h) img)) as (_ & _ & E).
    rewrite E, drawImage_length, createCanvas_length in Hp. done. }
  destruct Hwf as (_ & _ & Hlen). fold w h in Hlen.
  destruct (lookup_lt_is_Some_2 (cv_pixels img) i) as [o Ho]; [lia |].
  destruct (lookup_lt_is_Some_2 (cv_pixels (blurred_of img)) i) as [b Hb].
  { rewrite blurred_of_length. done. }
  destruct (drawn_pixel w h img i o Hi Ho) as (p0 & Hp0 & Hpe0).
  destruct (face_steps_pixel (fun p => pa p == 1)%Q w h (blurred_of img) detections i b
              Hi Hb) with (ctx := drawImage source_over (createCanvas w h) img) (o := p0)
    as (p' & Hp' & HP).
  - intros det o' _ Ho'. apply stencil_over_alpha; [done |].
    eapply blurred_of_opaque; [| done | exact Hb]. repeat split; try done.
    all: unfold canvas_wf in *; lia.
  - intros p1 q (_ & _ & _ & E) Hq. by rewrite E.
  - exact Hp0.
  - destruct Hpe0 as (_ & _ & _ & E). rewrite E.
    apply (proj1 (Forall_lookup _ _) Hop _ _ Ho).
  - congruence.
Qed.

(** X10: a pixel out of reach of every region comes out as it went in. If,
    for each region, at least [featherReach] = 41 whole pixels lie between
    the pixel and the (non-empty) expanded box, to the left, to the right,
    above or below it, the pixel of the saved bitmap equals the pixel of
    the decoded image and the four bytes saved for it are the same. Relies on [Math.exp] being
    positive and on float32 stores having relative error at most 2^-24. *)
Theorem blurFaces_leaves_far_pixels img detections (st : heap) row col o :
  let w := cv_width img in
  let h := cv_height img in
  0 <= row < h -> 0 <= col < w ->
  cv_pixels img !! pixel_at w row col = Some o ->
  Forall (fun det => out_of_reach w h (box (detection det)) row col) detections ->
  exists out st' p,
    blurFaces img detections st = (out, st') /\
    cv_pixels out !! pixel_at w row col = Some p /\
    pixel_eq p o /\
    saved_bytes p = saved_bytes o.
Proof.
  intros w h Hr Hc Ho Hfar.
  destruct (blurFaces_fold img detections st) as [st' Hrun]. fold w h in Hrun.
  destruct (pixel_at_bound w h row col Hr Hc) as [Ei Hi].
  destruct (lookup_lt_is_Some_2 (cv_pixels (blurred_of img)) (pixel_at w row col))
    as [b Hb].
  { rewrite blurred_of_length. done. }
  destruct (drawn_pixel w h img _ o Hi Ho) as (p0 & Hp0 & Hpe0).
  destruct (face_steps_pixel (fun p => pixel_eq p o) w h (blurred_of img) detections
              _ b Hi Hb)
    with (ctx := drawImage source_over (createCanvas w h) img) (o := p0)
    as (p & Hp & HP).
  - intros det o' Hdet Ho'.
    rewrite (mask_alpha_far w h _ row col Hr Hc
               (proj1 (Forall_forall _ _) Hfar det Hdet)).
    eapply pixel_eq_trans; [apply stencil_over_0 | exact Ho'].
  - intros p1 q Hpq Hq. by eapply pixel_eq_trans.
  - exact Hp0.
  - exact Hpe0.
  - eexists _, st', p. split; [exact Hrun |]. split; [exact Hp |]. split; [exact HP |].
    by apply straight_bytes_comp.
Qed.

(** X11: well inside a region the image is replaced by its blur. Take one
    region and a pixel such that every pixel of its feathering window (the
    pixels at most [featherReach] = 41 rows and columns away) lies wholly
    inside the ellipse of the region. Then the pixel of the saved bitmap is
    the blurred pixel drawn over the pixel of the image at full strength:
    it is the pixel of the blurred image itself when the image is opaque.
    Relies on [Math.exp] being positive and on float32 stores having
    relative error at most 2^-24. *)
Theorem blurFaces_blurs_the_inside img det (st : heap) row col :
  let w := cv_width img in
  let h := cv_height img in
  canvas_wf img ->
  0 <= row < h -> 0 <= col < w ->
  window_inside w h (box (detection det)) row col ->
  exists out st' o b p,
    blurFaces img [det] st = (out, st') /\
    cv_pixels img !! pixel_at w row col = Some o /\
    cv_pixels (blurred_of img) !! pixel_at w row col = Some b /\
    cv_pixels out !! pixel_at w row col = Some p /\
    pixel_eq p (composite source_over o b) /\
    (opaque img -> pixel_eq p b).
Proof.
  intros w h Hwf Hr Hc Hin.
  destruct (blurFaces_fold img [det] st) as [st' Hrun]. fold w h in Hrun.
  destruct (pixel_at_bound w h row col Hr Hc) as [Ei Hi].
  destruct (lookup_lt_is_Some_2 (cv_pixels img) (pixel_at w row col)) as [o Ho].
  { destruct Hwf as (_ & _ & ->). exact Hi. }
  destruct (lookup_lt_is_Some_2 (cv_pixels (blurred_of img)) (pixel_at w row col))
    as [b Hb].
  { rewrite blurred_of_length. exact Hi. }
  destruct (drawn_pixel w h img _ o Hi Ho) as (p0 & Hp0 & Hpe0).
  cbn [foldl] in Hrun.
  destruct (face_step_pixel w h (blurred_of img) _ det _ p0 b Hi Hp0 Hb) as (p & Hp & Hpe).
  rewrite (mask_alpha_covered w h _ row col Hr Hc (window_inside_covered _ _ _ _ _ Hin))
    in Hpe.
  assert (Hso : pixel_eq p (composite source_over o b)).
  { eapply pixel_eq_trans; [exact Hpe |].
    eapply pixel_eq_trans; [apply stencil_over_1 |].
    destruct Hpe0 as (E1 & E2 & E3 & E4).
    unfold pixel_eq, composite. cbn [pr pg pb pa]. rewrite E1, E2, E3, E4.
    repeat split; reflexivity. }
  exists (face_step w h (blurred_of img)
            (drawImage source_over (createCanvas w h) img) det), st', o, b, p.
  split; [exact Hrun |]. split; [exact Ho |]. split; [exact Hb |].
  split; [exact Hp |]. split; [exact Hso |].
  intros Hop. pose proof (blurred_of_opaque img _ b Hwf Hop Hb) as Ha.
  eapply pixel_eq_trans; [exact Hso |].
  unfold pixel_eq, composite. cbn [pr pg pb pa]. rewrite Ha. repeat split; ring.
Qed.

(** X12: an iteration moves a pixel towards the blurred image and never
    past it. Where the blurred pixel is opaque, every channel of the new
    pixel lies between that channel of the output so far and that channel
    of the blurred pixel. *)
Theorem blurFace_moves_towards_blurred w h blurredCanvas det ctx (st : heap) (i : nat) o b :
  (i < Z.to_nat w * Z.to_nat h)%nat ->
  cv_pixels ctx !! i = Some o ->
  cv_pixels blurredCanvas !! i = Some b ->
  (pa b == 1)%Q ->
  exists out st' p,
    blurFace w h blurredCanvas det ctx st = (out, st') /\
    cv_pixels out !! i = Some p /\
    pixel_between o b p.
Proof.
  intros Hi Ho Hb Ha.
  destruct (blurFace_run w h blurredCanvas det ctx st) as [st' Hrun].
  destruct (face_step_pixel w h blurredCanvas ctx det i o b Hi Ho Hb) as (p & Hp & Hpe).
  eexists _, st', p. split; [exact Hrun |]. split; [exact Hp |].
  pose proof (pixel_eq_trans _ _ _ Hpe (stencil_over_opaque o b _ Ha))
    as (E1 & E2 & E3 & E4).
  cbn [lerp_pixel pr pg pb pa] in E1, E2, E3, E4.
  destruct (mask_alpha_range w h (box (detection det)) i) as [H0 H1].
  set (m := mask_alpha w h (box (detection det)) i) in *. clearbody m.
  assert (Ht0 : (0 <= m / 255)%Q).
  { change (m / 255)%Q with (m * (1 # 255))%Q. clear - H0. lra. }
  assert (Ht1 : (m / 255 <= 1)%Q).
  { change (m / 255)%Q with (m * (1 # 255))%Q. clear - H1. lra. }
  repeat split.
  all: try (eapply between_comp; [eassumption | by apply lerp_between]).
Qed.

(** X13: an image of one opaque colour goes through unchanged. Whatever
    the regions, the saved bitmap is the decoded image, and its bytes are
    the colour repeated for every pixel. Relies on [Math.exp] being
    positive and on float32 stores having relative error at most 2^-24. *)
Theorem blurFaces_leaves_solid_image w h r g b detections (st : heap) :
  0 <= w -> 0 <= h -> is_byte r -> is_byte g -> is_byte b ->
  exists out st',
    blurFaces (solid w h r g b) detections st = (out, st') /\
    canvas_eq out (solid w h r g b) /\
    image_bytes out = uniform_buffer w h (r, g, b, 255).
Proof.
  intros Hw Hh Hr Hg Hb.
  destruct (blurFaces_fold (solid w h r g b) detections st) as [st' Hrun].
  change (cv_width (solid w h r g b)) with w in Hrun.
  change (cv_height (solid w h r g b)) with h in Hrun.
  set (out := foldl _ _ _) in Hrun.
  assert (Heq : canvas_eq out (solid w h r g b)).
  { destruct (face_steps_shape w h (blurred_of (solid w h r g b)) detections
                (drawImage source_over (createCanvas w h) (solid w h r g b)))
      as (Ew & Eh & El). fold out in Ew, Eh, El.
    split; [exact Ew |]. split; [exact Eh |].
    rewrite drawImage_length, createCanvas_length in El.
    apply Forall2_same_length_lookup_2.
    { rewrite El. unfold solid. cbn [cv_pixels]. by rewrite length_replicate. }
    intros i p q Hp Hq.
    assert (Hi : (i < Z.to_nat w * Z.to_nat h)%nat).
    { apply lookup_lt_Some in Hp. by rewrite El in Hp. }
    assert (q = solid_pixel r g b) as ->.
    { unfold solid in Hq. cbn [cv_pixels] in Hq.
      apply lookup_replicate in Hq. by destruct Hq. }
    destruct (lookup_lt_is_Some_2 (cv_pixels (blurred_of (solid w h r g b))) i)
      as [bp Hbp].
    { rewrite blurred_of_length. done. }
    pose proof (solid_blurred_pixel w h r g b i bp Hw Hh Hr Hg Hb Hbp) as Hbe.
    destruct (drawn_pixel w h (solid w h r g b) i (solid_pixel r g b) Hi)
      as (p0 & Hp0 & Hpe0).
    { unfold solid. cbn [cv_pixels]. by apply lookup_replicate_2. }
    destruct (face_steps_pixel (fun p => pixel_eq p (solid_pixel r g b)) w h
                (blurred_of (solid w h r g b)) detections i bp Hi Hbp)
      with (ctx := drawImage source_over (createCanvas w h) (solid w h r g b)) (o := p0)
      as (p' & Hp' & HP).
    - intros det o' _ Ho'. apply stencil_over_same; [done | done | reflexivity].
    - intros p1 q Hpq Hq'. by eapply pixel_eq_trans.
    - exact Hp0.
    - exact Hpe0.
    - fold out in Hp'. congruence. }
  exists out, st'. split; [exact Hrun |]. split; [exact Heq |].
  rewrite (image_bytes_comp _ _ Heq). by apply solid_bytes.
Qed.

(** ** Properties of the command line *)

(** What the script does before the promise is settled. *)
Lemma cli_cases `{NodeHost} (args : list string) :
  (forall i o, cli args = call_blurFaces i o ->
     args !! 0%nat = Some i /\ fs_existsSync i = true /\ o <> "") /\
  (forall code message, cli args = process_exit code message ->
     code = 1 /\
     (args = [] \/ exists i, args !! 0%nat = Some i /\ fs_existsSync i = false)).
Proof.
  unfold cli. destruct args as [| i rest]; cbn [length lookup list_lookup default].
  - rewrite decide_True by lia. split; [discriminate |].
    intros code message E. injection E as <- _. split; [done | by left].
  - rewrite decide_False by (cbn; lia). cbn [from_option id].
    destruct (fs_existsSync i) eqn:Ex; cbn [negb]; split.
    + intros i' o E. injection E as <- <-. split; [done |]. split; [done |].
      apply or_else_nonempty, defaultOutput_nonempty.
    + discriminate.
    + discriminate.
    + intros code message E. injection E as <- _. split; [done |]. right. by exists i.
Qed.

(** X14: how the script ends. Every call of [process.exit] has status 1,
    and the script ends that way exactly when there is no argument, when
    the file named by the first argument does not exist, or when the
    promise of [blurFaces] is rejected; it runs to its end exactly when
    [blurFaces] is called and its promise is fulfilled. [blurFaces] is
    called only on an input path that exists, with an output path that is
    not empty; how it is settled on other paths does not matter. *)
Theorem script_ends_with_status_1 `{NodeHost}
    (settles : string -> string -> settled) (args : list string) :
  (forall code message, script settles args = exited code message -> code = 1) /\
  ((exists message, script settles args = exited 1 message) <->
   args = [] \/
   (exists i, args !! 0%nat = Some i /\ fs_existsSync i = false) \/
   (exists i o err, cli args = call_blurFaces i o /\ settles i o = rejected err)) /\
  (script settles args = ran_to_end <->
   exists i o, cli args = call_blurFaces i o /\ settles i o = fulfilled) /\
  (forall i o, cli args = call_blurFaces i o ->
     args !! 0%nat = Some i /\ fs_existsSync i = true /\ o <> "") /\
  (forall settles' : string -> string -> settled,
     (forall i o, fs_existsSync i = true -> o <> "" -> settles' i o = settles i o) ->
     script settles' args = script settles args).
Proof.
  destruct (cli_cases args) as [Hcall Hexit].
  split; [| split; [| split; [| split]]].
  - intros code message. unfold script.
    destruct (cli args) as [c m | i o] eqn:E.
    + intros [= <- _]. by destruct (Hexit c m eq_refl).
    + destruct (settles i o); [done |]. by intros [= <- _].
  - unfold script. destruct (cli args) as [c m | i o] eqn:E.
    + destruct (Hexit c m eq_refl) as [-> Hwhy]. split.
      * intros _. destruct Hwhy as [? | ?]; [by left | right; by left].
      * intros _. by exists m.
    + destruct (Hcall i o eq_refl) as (Hi & He & Ho). split.
      * destruct (settles i o) as [| err] eqn:Es; [by intros [m [=]] |].
        intros _. right. right. by exists i, o, err.
      * intros [-> | [(i' & Hi' & He') | (i' & o' & err & [= <- <-] & ->)]].
        -- done.
        -- congruence.
        -- by eexists.
  - unfold script. destruct (cli args) as [c m | i o] eqn:E.
    + split; [done |]. by intros (i & o & [=] & _).
    + split.
      * destruct (settles i o) eqn:Es; [| done]. intros _. by exists i, o.
      * intros (i' & o' & [= <- <-] & ->). done.
  - exact Hcall.
  - intros settles' Hs. unfold script. destruct (cli args) as [c m | i o] eqn:E; [done |].
    destruct (Hcall i o eq_refl) as (_ & He & Ho). by rewrite Hs.
Qed.

(** X15: the output path. For an input file that exists, a second
    argument that is not the empty string is the output path as it is; with
    no second argument, or with the empty string as second argument, the
    output path is [faceshield-] followed by the base name of the input
    without its extension and by [.png]. Arguments after the second are
    ignored. *)
Theorem cli_output_path `{NodeHost} (i : string) :
  fs_existsSync i = true ->
  (forall o rest, o <> "" -> cli (i :: o :: rest) = call_blurFaces i o) /\
  cli [i]
  = call_blurFaces i ("faceshield-" +:+ path_basename i (path_extname i) +:+ ".png") /\
  (forall rest, cli (i :: "" :: rest) = cli [i]).
Proof.
  intros Ex. unfold cli, defaultOutput.
  cbn [length lookup list_lookup default from_option id or_else].
  rewrite !decide_False by (cbn; lia). rewrite Ex. cbn [negb].
  split; [| split].
  - intros o rest Ho. rewrite decide_False by (cbn; lia).
    cbn [lookup list_lookup or_else]. by rewrite decide_False.
  - reflexivity.
  - intros rest. rewrite decide_False by (cbn; lia).
    cbn [lookup list_lookup or_else]. by rewrite decide_True.
Qed.

(** X16: both networks are loaded from the local [models] folder when it
    exists and from the folder of the package otherwise: adding the
    [file://] prefix and replacing it by the empty string gives back the
    folder, also when [file://] occurs in its name again. *)
Theorem modelFolder_is_the_resolved_folder `{NodeHost} (dirname : string) :
  modelFolder dirname
  = if fs_existsSync (path_resolve dirname "models")
    then path_resolve dirname "models"
    else path_resolve dirname "node_modules/@vladmandic/face-api/model".
Proof.
  unfold modelFolder.
  destruct (fs_existsSync _); apply String_replace_file_prefix.
Qed.

End Proofs.

(** * The computable instance meets the assumptions *)

Lemma exp_q_pos (x : Q) : (0 < exp_q x)%Q.
Proof. unfold exp_q, Qlt. cbn [Qnum Qden]. lia. Qed.

Lemma fround_q_exponent (x : Q) :
  ~ (x == 0)%Q ->
  let e0 := Z.log2 (Z.abs (Qnum x)) - Z.log2 (Zpos (Qden x)) in
  let e := if Qle_bool (2 ^ e0) (Qabs x) then e0 else e0 - 1 in
  (2 ^ e <= Qabs x)%Q.
Proof.
  intros Hx e0 e. unfold e.
  destruct (Qle_bool (2 ^ e0) (Qabs x)) eqn:E.
  - by apply Qle_bool_iff.
  - by apply log2_guess_lower.
Qed.

Lemma fround_q_err (x : Q) : (Qabs (fround_q x - x) <= Qabs x * eps32)%Q.
Proof.
  unfold fround_q. destruct (Qeq_bool x 0) eqn:E0.
  - apply Qeq_bool_eq in E0. rewrite E0. discriminate.
  - assert (Hx : ~ (x == 0)%Q) by (by apply Qeq_bool_neq).
    pose proof (fround_q_exponent x Hx) as He. cbn zeta in He.
    set (e := if Qle_bool _ _ then _ else _) in *.
    set (s := 23 - e).
    destruct (round_half_even_err (x * 2 ^ s)) as [Hm1 Hm2].
    set (m := inject_Z (round_half_even (x * 2 ^ s))) in *.
    assert (HP : (0 < 2 ^ s)%Q) by (by apply Qpower_0_lt).
    assert (HPi : (2 ^ (- s) == / 2 ^ s)%Q) by apply Qpower_opp.
    assert (HPi0 : (0 < / 2 ^ s)%Q) by (by apply Qinv_lt_0_compat).
    assert (HPP : (2 ^ s * / 2 ^ s == 1)%Q) by (apply Qmult_inv_r; lra).
    assert (Hes : (2 ^ e * eps32 == / 2 ^ s * (1 # 2))%Q).
    { rewrite <- HPi. change eps32 with (2 ^ (-24))%Q. change (1 # 2)%Q with (2 ^ (-1))%Q.
      rewrite <- !Qpower_plus by apply two_ne_0. unfold s.
      replace (e + -24) with (- (23 - e) + -1) by lia. reflexivity. }
    rewrite HPi. clear HPi. clearbody m.
    set (Pi := (/ 2 ^ s)%Q) in *. set (P := (2 ^ s)%Q) in *.
    set (E2 := (2 ^ e)%Q) in *. clearbody Pi P E2.
    assert (Hxe : (E2 * eps32 <= Qabs x * eps32)%Q).
    { apply Qmult_le_compat_r; [done | discriminate]. }
    apply Qle_trans with (Pi * (1 # 2))%Q; [| lra].
    apply Qabs_Qle_condition.
    assert (Ex : (x == x * P * Pi)%Q).
    { rewrite <- Qmult_assoc, HPP. ring. }
    split.
    + assert ((x * P - (1 # 2)) * Pi <= m * Pi)%Q by (apply Qmult_le_compat_r; lra).
      nra.
    + assert (m * Pi <= (x * P + (1 # 2)) * Pi)%Q by (apply Qmult_le_compat_r; lra).
      nra.
Qed.










(** C1, counterexample: the one-pixel half-transparent image with one
    region covering it. The composited opacity is not the interpolated one. *)
Lemma C1_counterexample :
  ~ (forall JS : JSMath,
       (forall x, 0 < Math_exp x)%Q ->
       (forall x, Qabs (Math_fround x - x) <= Qabs x * eps32)%Q ->
       lerp_rule).
Proof.
  intros H. apply (@lerp_rule_fails host exp_q_pos fround_q_err).
  apply H; [apply exp_q_pos | apply fround_q_err].
Qed.


(** C10, counterexample: a 100 x 100 image and the region at (15, 15) of
    72 x 72 pixels. In binary64 [padX = 72 * 0.2] is 14.4, [fx = 15 - 14.4]
    is 0.5999999999999996 and [fw = 100 - fx] is 99.4, so [fx + fw] is
    larger than 100 by 5.3e-15. *)
Lemma C10_counterexample : ~ expanded_box_on_canvas.
Proof.
  intros H. destruct (H 100 100 wide_box) as (_ & _ & Hx & _).
  vm_compute in Hx. by apply Hx.
Qed.

(** * The theorems at concrete inputs *)

Lemma C1_witness :
  [right_pixel] <> [] /\ canvas_wf black_white_2x1 /\ opaque black_white_2x1 /\
  exists st',
    @blurFaces host black_white_2x1 [right_pixel] ∅
    = (foldl (@face_step host 2 1 (@blurred_of host black_white_2x1))
             (drawImage source_over (createCanvas 2 1) black_white_2x1)
             [right_pixel], st') /\
    (forall ctx det (i : nat) o b,
       cv_pixels ctx !! i = Some o ->
       cv_pixels (@blurred_of host black_white_2x1) !! i = Some b ->
       exists p,
         cv_pixels (@face_step host 2 1 (@blurred_of host black_white_2x1) ctx det) !! i
         = Some p /\
         pixel_eq p (stencil_over o b (@mask_alpha host 2 1 (box (detection det)) i / 255)) /\
         ((pa b == 1)%Q ->
          pixel_eq p (lerp_pixel o b (@mask_alpha host 2 1 (box (detection det)) i / 255)))) /\
    (canvas_wf black_white_2x1 -> opaque black_white_2x1 ->
     forall (i : nat) b,
       cv_pixels (@blurred_of host black_white_2x1) !! i = Some b -> (pa b == 1)%Q).
Proof.
  split; [discriminate |].
  split; [unfold canvas_wf; cbn; repeat split; lia |].
  split; [repeat constructor |].
  apply (@C1_regions_composited_in_order host exp_q_pos fround_q_err
           black_white_2x1 [right_pixel] ∅).
  discriminate.
Defined.

(** The radius 3.3333333333333335, at which the rounded product [sigma * 3]
    is 4: nine weights. *)
Lemma C2_witness :
  (0 < 7505999378950827 # 2251799813685248)%Q /\
  exists kernel st' weights,
    @gaussKernel host (7505999378950827 # 2251799813685248) ∅ = (kernel, st') /\
    st' !! kernel = Some (TypedArray Float32Array weights) /\
    Z.of_nat (length weights) = 9 /\
    (exists total, foldl jadd (Num 0) weights = Num total /\
                   (Qabs (total - 1) <= 1 # 1000000)%Q) /\
    forall i, (i < length weights)%nat ->
      weights !! i = weights !! (length weights - 1 - i)%nat.
Proof.
  split; [reflexivity |].
  apply (@C2_kernel_length_sum_symmetry host exp_q_pos fround_q_err
           (7505999378950827 # 2251799813685248) ∅).
  reflexivity.
Defined.

Lemma C3_witness :
  0 <= 100 /\ byte_color (255, 0, 0, 255) /\
  exists out st',
    @separableGaussianBlur host 1%positive 100 100 BLUR_RADIUS red_100_heap = (out, st') /\
    st' !! out
    = Some (TypedArray Uint8ClampedArray (uniform_buffer 100 100 (255, 0, 0, 255))).
Proof.
  split; [lia |]. split; [unfold byte_color, is_byte; lia |].
  apply (@C3_uniform_color_unchanged host exp_q_pos fround_q_err
           1%positive 100 100 BLUR_RADIUS red_100_heap Uint8ClampedArray (255, 0, 0, 255)).
  - lia.
  - lia.
  - unfold byte_color, is_byte. lia.
  - apply lookup_singleton_eq.
Defined.

Lemma C4_witness :
  length two_pixel_mask = Z.to_nat (2 * 1 * 4) /\
  exists out st' tmp T O,
    @separableGaussianBlur host 1%positive 2 1 1 two_pixel_heap = (out, st') /\
    st' !! tmp = Some T /\
    st' !! out = Some O /\
    forall row col ch, 0 <= row < 1 -> 0 <= col < 2 -> 0 <= ch < 4 ->
      ta_get T ((row * 2 + col) * 4 + ch)
      = @coerce host Float32Array
          (convolve_at (TypedArray Float32Array (@kernel_weights host 1)) (kHalf_of 1)
             (fun c => ta_get (TypedArray Uint8ClampedArray two_pixel_mask)
                         ((row * 2 + clamp_to 0 (2 - 1) c) * 4 + ch)) col) /\
      ta_get O ((row * 2 + col) * 4 + ch)
      = @coerce host Uint8ClampedArray
          (convolve_at (TypedArray Float32Array (@kernel_weights host 1)) (kHalf_of 1)
             (fun r => ta_get T ((clamp_to 0 (1 - 1) r * 2 + col) * 4 + ch)) row).
Proof.
  split; [reflexivity |].
  apply (@C4_two_pass_clamped_convolution host 1%positive 2 1 1 two_pixel_heap
           (TypedArray Uint8ClampedArray two_pixel_mask)).
  - apply lookup_singleton_eq.
  - reflexivity.
Defined.


Lemma C6_witness :
  canvas_wf half_red_1x1 /\
  exists out,
    @blurFaces host half_red_1x1 [] ∅ = (out, ∅) /\
    canvas_eq out half_red_1x1 /\
    @image_bytes host out = @image_bytes host half_red_1x1 /\
    forall src w h radius S,
      (∅ : heap) !! src = Some S ->
      (@separableGaussianBlur host src w h radius ∅).2 <> ∅.
Proof.
  assert (Hwf : canvas_wf half_red_1x1).
  { unfold canvas_wf. cbn. repeat split; [lia | lia]. }
  split; [exact Hwf |].
  apply (@C6_no_region_passthrough host half_red_1x1 ∅ Hwf).
Defined.





Lemma C8_witness :
  two_pixel_heap !! 1%positive = Some (TypedArray Uint8ClampedArray two_pixel_mask) /\
  exists out st' O,
    @separableGaussianBlur host 1%positive 2 1 FEATHER_RADIUS two_pixel_heap = (out, st') /\
    st' !! 1%positive = Some (TypedArray Uint8ClampedArray two_pixel_mask) /\
    two_pixel_heap !! out = None /\
    out <> 1%positive /\
    st' !! out = Some O /\
    ta_kind O = Uint8ClampedArray /\
    length (ta_data O) = length two_pixel_mask /\
    (length two_pixel_mask = Z.to_nat (2 * 1 * 4) ->
     length (ta_data O) = Z.to_nat (2 * 1 * 4)) /\
    forall l a, two_pixel_heap !! l = Some a -> st' !! l = Some a.
Proof.
  split; [apply lookup_singleton_eq |].
  apply (@C8_blur_does_not_mutate_source host 1%positive 2 1 FEATHER_RADIUS
           two_pixel_heap (TypedArray Uint8ClampedArray two_pixel_mask)).
  apply lookup_singleton_eq.
Defined.

Lemma C9_witness :
  (BLUR_RADIUS < FEATHER_RADIUS)%Q /\
  kHalf_of BLUR_RADIUS <= kHalf_of FEATHER_RADIUS /\
  kLen_of BLUR_RADIUS <= kLen_of FEATHER_RADIUS.
Proof.
  split; [reflexivity |].
  apply (C9_halfWidth_monotone BLUR_RADIUS FEATHER_RADIUS). reflexivity.
Defined.

Lemma blur_output_within_window_range_witness :
  window_within (TypedArray Uint8ClampedArray two_pixel_mask) 2 1 (kHalf_of 1) 0 1 3 0 255 /\
  exists out st' O z,
    @separableGaussianBlur host 1%positive 2 1 1 two_pixel_heap = (out, st') /\
    st' !! out = Some O /\
    ta_get O (sample_index 2 0 1 3) = Num (inject_Z z) /\
    0 <= z <= 255.
Proof.
  assert (Hwin : window_within (TypedArray Uint8ClampedArray two_pixel_mask)
                   2 1 (kHalf_of 1) 0 1 3 0 255).
  { intros r c (Hr & Hc & _). assert (r = 0) as -> by lia.
    assert (c = 0 \/ c = 1) as [-> | ->] by lia;
      (eexists; split; [reflexivity | split; unfold Qle; cbn; lia]). }
  split; [exact Hwin |].
  apply (@blur_output_within_window_range host exp_q_pos fround_q_err
           1%positive 2 1 1 two_pixel_heap
           (TypedArray Uint8ClampedArray two_pixel_mask) 0 1 3 0 255).
  - apply lookup_singleton_eq.
  - reflexivity.
  - lia.
  - lia.
  - lia.
  - lia.
  - lia.
  - exact Hwin.
Defined.

Lemma blur_output_depends_on_window_only_witness :
  window_agree (TypedArray Uint8ClampedArray two_pixel_mask)
               (TypedArray Uint8ClampedArray two_pixel_tinted) 2 1 (kHalf_of 1) 0 0 3 /\
  exists out st1 O out' st1' O',
    @separableGaussianBlur host 1%positive 2 1 1 two_pixel_heap = (out, st1) /\
    st1 !! out = Some O /\
    @separableGaussianBlur host 1%positive 2 1 1 two_pixel_tinted_heap = (out', st1') /\
    st1' !! out' = Some O' /\
    ta_get O (sample_index 2 0 0 3) = ta_get O' (sample_index 2 0 0 3).
Proof.
  assert (Hwin : window_agree (TypedArray Uint8ClampedArray two_pixel_mask)
                   (TypedArray Uint8ClampedArray two_pixel_tinted)
                   2 1 (kHalf_of 1) 0 0 3).
  { intros r c (Hr & Hc & _). assert (r = 0) as -> by lia.
    assert (c = 0 \/ c = 1) as [-> | ->] by lia; reflexivity. }
  split; [exact Hwin |].
  apply (@blur_output_depends_on_window_only host 1%positive 1%positive 2 1 1
           two_pixel_heap two_pixel_tinted_heap
           (TypedArray Uint8ClampedArray two_pixel_mask)
           (TypedArray Uint8ClampedArray two_pixel_tinted) 0 0 3).
  - apply lookup_singleton_eq.
  - apply lookup_singleton_eq.
  - reflexivity.
  - reflexivity.
  - lia.
  - lia.
  - lia.
  - exact Hwin.
Defined.

Lemma blur_leaves_entries_beyond_image_zero_witness :
  1 * 1 * 4 <= Z.of_nat 5 /\
  exists out st' O,
    @separableGaussianBlur host 1%positive 1 1 1 two_pixel_heap = (out, st') /\
    st' !! out = Some O /\
    length (ta_data O) = length two_pixel_mask /\
    ta_data O !! 5%nat = Some (Num 0).
Proof.
  split; [lia |].
  apply (@blur_leaves_entries_beyond_image_zero host 1%positive 1 1 1 two_pixel_heap
           (TypedArray Uint8ClampedArray two_pixel_mask) 5%nat).
  - apply lookup_singleton_eq.
  - cbn. lia.
  - right. right. lia.
Defined.

Lemma blur_radius_floor_witness :
  (0 <= 5 # 2)%Q /\
  @separableGaussianBlur host 1%positive 2 1 0 two_pixel_heap
  = @separableGaussianBlur host 1%positive 2 1 (5 # 2) two_pixel_heap /\
  kLen_of 0 = 7.
Proof.
  split; [discriminate |].
  apply (@blur_radius_floor host 1%positive 2 1 0 two_pixel_heap). discriminate.
Defined.

Lemma kernel_weights_are_positive_witness :
  exists kernel st' weights,
    @gaussKernel host BLUR_RADIUS ∅ = (kernel, st') /\
    st' !! kernel = Some (TypedArray Float32Array weights) /\
    Forall (fun v => exists q, v = Num q /\ (0 < q)%Q) weights.
Proof.
  apply (@kernel_weights_are_positive host exp_q_pos fround_q_err BLUR_RADIUS ∅).
Defined.

Lemma mask_ellipse_covers_upper_corners_only_witness :
  padded_box_fits 100 100 centre_box /\
  in_ellipse (maskEllipse (expandBox 100 100 centre_box)) 25 25 /\
  in_ellipse (maskEllipse (expandBox 100 100 centre_box)) (25 + 50) 25 /\
  ~ in_ellipse (maskEllipse (expandBox 100 100 centre_box)) 25 (25 + 50) /\
  ~ in_ellipse (maskEllipse (expandBox 100 100 centre_box)) (25 + 50) (25 + 50).
Proof.
  assert (Hfit : padded_box_fits 100 100 centre_box).
  { unfold padded_box_fits. cbn. repeat split; (reflexivity || discriminate). }
  split; [exact Hfit |].
  apply (mask_ellipse_covers_upper_corners_only 100 100 centre_box Hfit).
Defined.

Lemma blurFaces_keeps_opaque_witness :
  canvas_wf black_white_2x1 /\ opaque black_white_2x1 /\
  exists out st',
    @blurFaces host black_white_2x1 [right_pixel] ∅ = (out, st') /\ opaque out.
Proof.
  assert (Hwf : canvas_wf black_white_2x1).
  { unfold canvas_wf. cbn. repeat split; lia. }
  assert (Hop : opaque black_white_2x1) by (repeat constructor).
  split; [exact Hwf |]. split; [exact Hop |].
  apply (@blurFaces_keeps_opaque host exp_q_pos fround_q_err
           black_white_2x1 [right_pixel] ∅ Hwf Hop).
Defined.

Lemma blurFaces_leaves_far_pixels_witness :
  out_of_reach 100 1 (box (detection right_end)) 0 0 /\
  exists out st' p,
    @blurFaces host (solid 100 1 10 20 30) [right_end] ∅ = (out, st') /\
    cv_pixels out !! pixel_at 100 0 0 = Some p /\
    pixel_eq p (solid_pixel 10 20 30) /\
    @saved_bytes host p = @saved_bytes host (solid_pixel 10 20 30).
Proof.
  assert (Hfar : out_of_reach 100 1 (box (detection right_end)) 0 0).
  { split; [split; reflexivity |]. left. vm_compute. discriminate. }
  split; [exact Hfar |].
  apply (@blurFaces_leaves_far_pixels host exp_q_pos fround_q_err
           (solid 100 1 10 20 30) [right_end] ∅ 0 0 (solid_pixel 10 20 30)).
  - cbn. lia.
  - cbn. lia.
  - reflexivity.
  - constructor; [exact Hfar | constructor].
Defined.

Lemma striped_wf w h : 0 <= w -> 0 <= h -> canvas_wf (striped w h).
Proof.
  intros Hw Hh. unfold canvas_wf, striped. cbn [cv_width cv_height cv_pixels].
  split; [done |]. split; [done |]. by rewrite length_fmap, length_seq.
Qed.

(** The ellipse of [large_face] on a 200 x 200 image is the circle of
    radius 100 about (100, 100); the window of pixel (100, 100) reaches 42
    pixels from the centre at most. *)
Lemma large_face_inside : window_inside 200 200 (box (detection large_face)) 100 100.
Proof.
  intros r c (Hr & Hc & Hdr & Hdc) dx dy Hdx Hdy.
  assert (HR : featherReach = 41) by (vm_compute; reflexivity). rewrite HR in Hdr, Hdc.
  apply in_ellipseb_spec. unfold in_ellipseb.
  change (maskEllipse (expandBox 200 200 (box (detection large_face))))
    with (Ellipse (200 # 2) (200 # 2) (200 # 2) (200 # 2)).
  cbn [e_cx e_cy e_rx e_ry].
  apply andb_true_iff. split; [reflexivity |]. apply Qle_bool_iff.
  assert (Hx : (inject_Z 58 <= inject_Z (c + dx) <= inject_Z 142)%Q).
  { rewrite <- !Zle_Qle. lia. }
  assert (Hy : (inject_Z 58 <= inject_Z (r + dy) <= inject_Z 142)%Q).
  { rewrite <- !Zle_Qle. lia. }
  change (inject_Z 58) with 58%Q in Hx, Hy. change (inject_Z 142) with 142%Q in Hx, Hy.
  set (x := inject_Z (c + dx)) in *. set (y := inject_Z (r + dy)) in *. clearbody x y.
  nra.
Qed.

Lemma blurFaces_blurs_the_inside_witness :
  canvas_wf (striped 200 200) /\
  window_inside 200 200 (box (detection large_face)) 100 100 /\
  exists out st' o b p,
    @blurFaces host (striped 200 200) [large_face] ∅ = (out, st') /\
    cv_pixels (striped 200 200) !! pixel_at 200 100 100 = Some o /\
    cv_pixels (@blurred_of host (striped 200 200)) !! pixel_at 200 100 100 = Some b /\
    cv_pixels out !! pixel_at 200 100 100 = Some p /\
    pixel_eq p (composite source_over o b) /\
    (opaque (striped 200 200) -> pixel_eq p b).
Proof.
  split; [apply striped_wf; lia |]. split; [apply large_face_inside |].
  apply (@blurFaces_blurs_the_inside host exp_q_pos fround_q_err
           (striped 200 200) large_face ∅ 100 100).
  - apply striped_wf; lia.
  - cbn. lia.
  - cbn. lia.
  - apply large_face_inside.
Defined.

Lemma blurFace_moves_towards_blurred_witness :
  exists out st' p,
    @blurFace host 2 1 black_white_2x1 right_pixel black_white_2x1 ∅ = (out, st') /\
    cv_pixels out !! 1%nat = Some p /\
    pixel_between (Pixel 1 1 1 1) (Pixel 1 1 1 1) p.
Proof.
  apply (@blurFace_moves_towards_blurred host 2 1 black_white_2x1 right_pixel
           black_white_2x1 ∅ 1%nat (Pixel 1 1 1 1) (Pixel 1 1 1 1)).
  - cbn. lia.
  - reflexivity.
  - reflexivity.
  - reflexivity.
Defined.

Lemma blurFaces_leaves_solid_image_witness :
  is_byte 10 /\ is_byte 20 /\ is_byte 30 /\
  exists out st',
    @blurFaces host (solid 2 1 10 20 30) [right_pixel] ∅ = (out, st') /\
    canvas_eq out (solid 2 1 10 20 30) /\
    @image_bytes host out = uniform_buffer 2 1 (10, 20, 30, 255).
Proof.
  split; [unfold is_byte; lia |]. split; [unfold is_byte; lia |].
  split; [unfold is_byte; lia |].
  apply (@blurFaces_leaves_solid_image host exp_q_pos fround_q_err
           2 1 10 20 30 [right_pixel] ∅); unfold is_byte; lia.
Defined.

Lemma cli_output_path_witness :
  @fs_existsSync one_photo "photo.jpg" = true /\
  (forall o rest, o <> "" ->
     @cli one_photo ("photo.jpg" :: o :: rest) = call_blurFaces "photo.jpg" o) /\
  @cli one_photo ["photo.jpg"] = call_blurFaces "photo.jpg" "faceshield-photo.png" /\
  (forall rest, @cli one_photo ("photo.jpg" :: "" :: rest) = @cli one_photo ["photo.jpg"]).
Proof.
  split; [reflexivity |].
  apply (@cli_output_path one_photo "photo.jpg"). reflexivity.
Defined.

(** * The model run on small inputs *)

(** The two-pixel mask of the C7 counterexample is the mask [blurFaces]
    builds on a 2 x 1 image for a region over the right-hand pixel. *)
Example two_pixel_mask_from_region :
  @image_bytes host (maskCanvas_of 2 1 (box (detection right_pixel))) = two_pixel_mask.
Proof. vm_compute. reflexivity. Qed.

(** With no region the saved image is the input, not its blur: on the
    black and white pair the two differ. *)
Example no_region_output_is_not_blurred :
  @image_bytes host (@blurFaces host black_white_2x1 [] ∅).1
  = pixel_bytes (0, 0, 0, 255) ++ pixel_bytes (255, 255, 255, 255) /\
  @image_bytes host (@blurred_of host black_white_2x1)
  = pixel_bytes (119, 119, 119, 255) ++ pixel_bytes (136, 136, 136, 255).
Proof. split; vm_compute; reflexivity. Qed.

(** At radius 3.3333333333333335 the quotient by 2.5 is rounded to
    1.3333333333333333 and its product by 3 to 4: the kernel has 9 weights,
    where exact arithmetic gives a half-width of 5. *)
Example kernel_length_at_a_rounded_product :
  kLen_of (7505999378950827 # 2251799813685248) = 9 /\
  Qceiling (3 * Qmax 1 ((7505999378950827 # 2251799813685248) / (5 # 2))) = 5.
Proof. split; vm_compute; reflexivity. Qed.

(** The expanded box of [wide_box] on a 100 x 100 canvas, in binary64 and
    in exact arithmetic. *)
Example wide_box_expanded :
  (fx (expandBox64 100 100 wide_box) + fw (expandBox64 100 100 wide_box)
   == 100 + (3 # 562949953421312))%Q /\
  (fx (expandBox 100 100 wide_box) + fw (expandBox 100 100 wide_box) == 100)%Q.
Proof. split; vm_compute; reflexivity. Qed.

(** The script on the file system that holds [photo.jpg] only. *)
Example cli_without_arguments :
  @cli one_photo []
  = process_exit 1 "Usage: node blur-faces.js <input-image> [output-image]".
Proof. reflexivity. Qed.

Example cli_missing_input :
  @cli one_photo ["holiday.jpg"; "out.png"]
  = process_exit 1 "❌ File not found: holiday.jpg".
Proof. reflexivity. Qed.

Example cli_default_output :
  @cli one_photo ["photo.jpg"] = call_blurFaces "photo.jpg" "faceshield-photo.png".
Proof. reflexivity. Qed.

Example script_run_fulfilled :
  @script one_photo (fun _ _ => fulfilled) ["photo.jpg"] = ran_to_end.
Proof. reflexivity. Qed.

Example script_run_rejected :
  @script one_photo
     (fun _ _ => rejected (mkRejection (Some "Input file is missing") "Error"))
     ["photo.jpg"]
  = exited 1 "❌ Error: Input file is missing".
Proof. reflexivity. Qed.

Example modelFolder_of_package :
  @modelFolder one_photo "/app" = "/app/node_modules/@vladmandic/face-api/model".
Proof. reflexivity. Qed.

(** [replace] removes the first occurrence only. *)
Example String_replace_first_only :
  String_replace "file://a/file://b" "file://" "" = "a/file://b".
Proof. reflexivity. Qed.
